(** * alias_sample: Vose's alias method, embedded and verified

    A shallow embedding of [alias_sample.go]: the table builder
    [InitWithSeed] (with [Init]) and the sampler [Next].

    The arithmetic of the source is IEEE 754 binary64 ([float64]).  The
    algorithm is written over an interface [Arith] that lists the
    operations the source uses, and is run at the instance [binary64]:
    the operations of [SpecFloat] at precision 53 and maximal exponent
    1024, which is what the Go program computes.  What holds of the
    control flow alone is proved for every instance.  The rationals [Qc]
    are the instance [exact]; the program is not run at it: it is where
    the statements measure, without rounding, the mass that a binary64
    table routes to an outcome.

    Go's [int] indices are never negative here and are modelled as [nat].
    A run-time panic (index out of range, popping an empty deque,
    [Intn] of a non-positive bound) is the result [Panic]. *)

From Stdlib Require Import ZArith QArith Qpower Qcanon Zpower Lia Lqa String.
From Stdlib Require Import Floats.SpecFloat.
From stdpp Require Import numbers base tactics option list sets.

Local Open Scope nat_scope.
#[local] Set Warnings "-clear-no-such-hyp".

(** ** Results of a run *)

Inductive res (A : Type) : Type :=
  | Ret (a : A)
  | Panic
  | Timeout.
Arguments Ret {A} a.
Arguments Panic {A}.
Arguments Timeout {A}.

Global Instance res_ret : MRet res := λ A a, Ret a.
Global Instance res_bind : MBind res := λ A B f m,
  match m with
  | Ret a => f a
  | Panic => Panic
  | Timeout => Timeout
  end.

(** ** The arithmetic the source uses *)

Class Arith (F : Type) := {
  fzero : F;                  (* the zero value of a float64 *)
  fone : F;                   (* the literal 1.0 *)
  fadd : F → F → F;
  fsub : F → F → F;
  fmul : F → F → F;
  fdiv : F → F → F;
  fge : F → F → bool;         (* x >= y *)
  flt : F → F → bool;         (* x < y *)
  of_int : nat → F            (* float64(n) for an int n >= 0 *)
}.

Module B64.
Definition prec : Z := 53.
Definition emax : Z := 1024.
Definition float64 : Type := spec_float.
Definition zero : float64 := S754_zero false.
Definition one : float64 := SFone prec emax.
Definition nan : float64 := S754_nan.
Definition add : float64 → float64 → float64 := SFadd prec emax.
Definition sub : float64 → float64 → float64 := SFsub prec emax.
Definition mul : float64 → float64 → float64 := SFmul prec emax.
Definition div : float64 → float64 → float64 := SFdiv prec emax.
Definition ge (x y : float64) : bool := SFleb y x.
Definition lt (x y : float64) : bool := SFltb x y.
Definition of_nat (n : nat) : float64 :=
  binary_normalize prec emax (Z.of_nat n) 0 false.
(** 2^k as a binary64 value, for 0 <= k + 1074. *)
Definition pow2 (k : Z) : float64 := SFldexp prec emax one k.
(** [m * 2^e] *)
Definition F2Q (m e : Z) : Q := (inject_Z m * 2 ^ e)%Q.
(** The exact value of a finite binary64 value (0 for the others). *)
Definition to_Q (x : float64) : Q :=
  match x with
  | S754_finite s m e => if s then (- F2Q (Z.pos m) e)%Q else F2Q (Z.pos m) e
  | _ => 0%Q
  end.
End B64.

Global Instance binary64 : Arith B64.float64 := {|
  fzero := B64.zero;
  fone := B64.one;
  fadd := B64.add;
  fsub := B64.sub;
  fmul := B64.mul;
  fdiv := B64.div;
  fge := B64.ge;
  flt := B64.lt;
  of_int := B64.of_nat
|}.

Definition Qc_geb (x y : Qc) : bool := bool_decide (y ≤ x)%Qc.
Definition Qc_ltb (x y : Qc) : bool := bool_decide (x < y)%Qc.

Global Instance exact : Arith Qc := {|
  fzero := 0%Qc;
  fone := 1%Qc;
  fadd := Qcplus;
  fsub := Qcminus;
  fmul := Qcmult;
  fdiv := Qcdiv;
  fge := Qc_geb;
  flt := Qc_ltb;
  of_int := λ n, Qc_of_Z (Z.of_nat n)
|}.

(** ** The pseudo-random source ([math/rand]) *)

(** The generator is a library outside the repository: it is a parameter
    of the model.  [Intn r n] is only called with [0 < n] (the source's
    [Intn] panics otherwise, which [rand_Intn] below writes out). *)
Class RandGen (F : Type) := {
  Rand : Type;
  NewSource : Z → Rand;            (* r.New(r.NewSource(seed)) *)
  Int63 : Rand → Z * Rand;
  Intn : Rand → nat → nat * Rand;
  Float64 : Rand → F * Rand
}.

(** What the documentation of [math/rand] promises of [Intn]. *)
Class RandGenSpec (F : Type) `{RandGen F} := {
  Intn_range : ∀ (r : Rand) (n : nat), 0 < n → (Intn r n).1 < n
}.

(** What it promises of [Float64]: a value below 1.0. *)
Definition Float64_below_one (F : Type) `{Arith F, RandGen F} : Prop :=
  ∀ r : Rand, flt (Float64 r).1 fone = true.

(** The calls a function makes on its generator, in order. *)
Inductive draw : Type :=
  | DrawIntn (n : nat)
  | DrawFloat64.

(** ** The deque ([github.com/gammazero/deque]), used as a stack *)

(** The back of the deque is the head of the list. *)
Module Deque.
Definition t : Type := list nat.
Definition empty : t := [].
Definition Len (d : t) : nat := length d.
Definition PushBack (d : t) (i : nat) : t := i :: d.
Definition PopBack (d : t) : res (nat * t) :=
  match d with
  | [] => Panic
  | i :: d' => Ret (i, d')
  end.
End Deque.

(** ** Slices *)

(** [l[i]], which panics out of range. *)
Definition index {A} (l : list A) (i : nat) : res A :=
  match l !! i with
  | Some a => Ret a
  | None => Panic
  end.

(** [l[i] = v], which panics out of range. *)
Definition set_index {A} (l : list A) (i : nat) (v : A) : res (list A) :=
  if decide (i < length l) then Ret (<[i := v]> l) else Panic.

(** ** The program *)

Record SampleError := { message : string }.

Section Program.
Context {F : Type} {FA : Arith F} {FG : RandGen F}.

Record AliasSampler := {
  seed : Z;
  rand : Rand;
  probability : list F;
  alias : list nat
}.

(** The locals of [InitWithSeed] that the loops update. *)
Record builder := {
  probs2 : list F;
  b_probability : list F;
  b_alias : list nat;
  small : Deque.t;
  large : Deque.t
}.

(** [for _, p := range probs2 { tot += p }] *)
Definition total (probs2 : list F) : F := fold_left fadd probs2 fzero.

(** [for i := range probs2 { probs2[i] /= tot }] *)
Definition normalize (probs2 : list F) (tot : F) : list F :=
  (λ p, fdiv p tot) <$> probs2.

(** The loop that populates the stacks, over the indices still to visit. *)
Fixpoint populate (idxs : list nat) (probs2 : list F) (average : F)
    (small large : Deque.t) : res (Deque.t * Deque.t) :=
  match idxs with
  | [] => Ret (small, large)
  | i :: idxs' =>
      p ← index probs2 i;
      if fge p average
      then populate idxs' probs2 average small (Deque.PushBack large i)
      else populate idxs' probs2 average (Deque.PushBack small i) large
  end.

(** The condition of the pairing loop. *)
Definition pairing (b : builder) : bool :=
  negb (Deque.Len (small b) =? 0) && negb (Deque.Len (large b) =? 0).

(** One iteration of the pairing loop. *)
Definition pair_body (probs : list F) (average : F) (b : builder)
    : res builder :=
  '(less, small1) ← Deque.PopBack (small b);
  '(more, large1) ← Deque.PopBack (large b);
  pl ← index (probs2 b) less;
  probability1 ← set_index (b_probability b) less
                   (fmul pl (of_int (length probs)));
  alias1 ← set_index (b_alias b) less more;
  pm ← index (probs2 b) more;
  pl' ← index (probs2 b) less;
  probs2' ← set_index (probs2 b) more (fsub (fadd pm pl') average);
  pm' ← index probs2' more;
  if fge pm' (fdiv fone (of_int (length probs2')))
  then Ret {| probs2 := probs2'; b_probability := probability1;
              b_alias := alias1; small := small1;
              large := Deque.PushBack large1 more |}
  else Ret {| probs2 := probs2'; b_probability := probability1;
              b_alias := alias1; small := Deque.PushBack small1 more;
              large := large1 |}.

(** The pairing loop.  [fuel] bounds the number of iterations; the
    loop is shown below never to need more than [length probs - 1]. *)
Fixpoint pair_loop (fuel : nat) (probs : list F) (average : F)
    (b : builder) : res builder :=
  if pairing b then
    match fuel with
    | 0 => Timeout
    | S fuel' => b' ← pair_body probs average b;
                 pair_loop fuel' probs average b'
    end
  else Ret b.

(** [for d.Len() != 0 { probability[d.PopBack()] = 1.0 }] *)
Fixpoint drain (d : Deque.t) (probability : list F) : res (list F) :=
  match d with
  | [] => Ret probability
  | i :: d' => probability' ← set_index probability i fone;
               drain d' probability'
  end.

(** The state in which the pairing loop is entered. *)
Definition populated (probs : list F) : res builder :=
  let probs2 := normalize probs (total probs) in
  let probability := replicate (length probs) fzero in
  let alias := replicate (length probs) 0 in
  let average := fdiv fone (of_int (length probs)) in
  '(small, large) ← populate (seq 0 (length probs)) probs2 average
                      Deque.empty Deque.empty;
  Ret {| probs2 := probs2; b_probability := probability;
         b_alias := alias; small := small; large := large |}.

(** The state in which the pairing loop is left. *)
Definition paired (probs : list F) : res builder :=
  b ← populated probs;
  pair_loop (length probs) probs (fdiv fone (of_int (length probs))) b.

(** What [InitWithSeed] returns: the pointer and the error, either of
    which may be nil. *)
Definition InitWithSeed (probs : list F) (seed : Z)
    : res (option AliasSampler * option SampleError) :=
  let rand := NewSource seed in
  if length probs =? 0 then
    Ret (None, Some {| message := "no probabilities provided" |})
  else
    b ← paired probs;
    probability1 ← drain (small b) (b_probability b);
    probability2 ← drain (large b) probability1;
    Ret (Some {| seed := seed; rand := rand;
                 probability := probability2; alias := b_alias b |},
         None).

(** [Init] draws the seed from the process-wide source [g]. *)
Definition Init (probs : list F) (g : Rand)
    : res (option AliasSampler * option SampleError) * Rand :=
  let '(seed, g') := Int63 g in
  (InitWithSeed probs seed, g').

(** A generator together with the log of the calls made on it. *)
Definition logged : Type := Rand * list draw.

(** [s.rand.Intn(n)] *)
Definition rand_Intn (g : logged) (n : nat) : res (nat * logged) :=
  if n =? 0 then Panic
  else let '(v, r') := Intn g.1 n in Ret (v, (r', g.2 ++ [DrawIntn n])).

(** [s.rand.Float64()] *)
Definition rand_Float64 (g : logged) : F * logged :=
  let '(u, r') := Float64 g.1 in (u, (r', g.2 ++ [DrawFloat64])).

(** [Next] returns the outcome, the sampler with its generator
    advanced, and the calls it made on the generator. *)
Definition Next (s : AliasSampler)
    : res (nat * AliasSampler * list draw) :=
  '(column, g1) ← rand_Intn (rand s, []) (length (probability s));
  let '(u, g2) := rand_Float64 g1 in
  p ← index (probability s) column;
  let coinToss := flt u p in
  let s' := {| seed := seed s; rand := g2.1;
               probability := probability s; alias := alias s |} in
  if coinToss then Ret (column, s', g2.2)
  else a ← index (alias s) column; Ret (a, s', g2.2).

(** [k] calls of [Next] in a row: the outcomes, in order. *)
Fixpoint Next_n (k : nat) (s : AliasSampler)
    : res (list nat * AliasSampler) :=
  match k with
  | 0 => Ret ([], s)
  | S k' => '(o, s', _) ← Next s;
            '(os, s'') ← Next_n k' s';
            Ret (o :: os, s'')
  end.
End Program.

Arguments AliasSampler F {_}.
Arguments builder : clear implicits.

(** ** The rest of the repository: the error's text and the test's loop *)

(** [func (e *SampleError) Error() string] *)
Definition Error (e : SampleError) : string := message e.

Section TestProgram.
Context {F : Type} {FA : Arith F} {FG : RandGen F}.

(** The counting loop of [TestInit], entered with [res] all zero:
    [for range sz { r := as.Next(); res[r] += 1 }] *)
Fixpoint count_draws (sz : nat) (s : AliasSampler F) (counts : list nat)
    : res (list nat * AliasSampler F) :=
  match sz with
  | 0 => Ret (counts, s)
  | S sz' => '(r, s', _) ← Next s;
             c ← index counts r;
             counts' ← set_index counts r (c + 1);
             count_draws sz' s' counts'
  end.
End TestProgram.

(** A small linear congruential generator, for running the model. *)
Definition lcg_next (r : N) : N := ((75 * r + 74) mod 65537)%N.

Global Instance lcg_gen {F} {FA : Arith F} : RandGen F := {|
  Rand := N;
  NewSource := λ seed, (Z.to_N seed mod 65537)%N;
  Int63 := λ r, (Z.of_N r, lcg_next r);
  Intn := λ r n, (N.to_nat ((r / 4) mod N.of_nat n), lcg_next r);
  Float64 := λ r, (match (r mod 4)%N with
                   | 0%N => fzero
                   | 1%N => fdiv fone (of_int 4)
                   | 2%N => fdiv fone (of_int 2)
                   | _ => fdiv (of_int 3) (of_int 4)
                   end, lcg_next r)
|}.

(** * Vocabulary of the statements *)

Section Vocabulary.
Context {F : Type} {FA : Arith F} {FG : RandGen F}.
Implicit Types (b : builder F) (probs w : list F) (d : Deque.t).

(** The combined size of the two worklists. *)
Definition worklist_size b : nat :=
  Deque.Len (small b) + Deque.Len (large b).

(** The entry of [w] at [i], for stating properties. *)
Definition entry w (i : nat) : F := default fzero (w !! i).

(** The state after one iteration that pops [less] and [more]. *)
Definition paired_with probs (avg : F) b (less : nat) (s1 : Deque.t)
    (more : nat) (l1 : Deque.t) : builder F :=
  let w' := fsub (fadd (entry (probs2 b) more) (entry (probs2 b) less)) avg in
  let probs2' := <[more := w']> (probs2 b) in
  let to_large := fge w' (fdiv fone (of_int (length probs2'))) in
  {| probs2 := probs2';
     b_probability := <[less := fmul (entry (probs2 b) less)
                                     (of_int (length probs))]>
                        (b_probability b);
     b_alias := <[less := more]> (b_alias b);
     small := if to_large then s1 else more :: s1;
     large := if to_large then more :: l1 else l1 |}.

(** Whether index [i] of the working weights [w] is classified large. *)
Definition to_large w (avg : F) (i : nat) : bool := fge (entry w i) avg.

(** ** The invariant of the loops of [InitWithSeed] *)

Record wf (n : nat) b : Prop := {
  wf_probs2 : length (probs2 b) = n;
  wf_probability : length (b_probability b) = n;
  wf_alias : length (b_alias b) = n;
  wf_range : ∀ i, i ∈ small b ++ large b → i < n;
  wf_nodup : NoDup (small b ++ large b);
  wf_alias_range : ∀ i a, b_alias b !! i = Some a → a < n
}.

(** ** The pairing loop as a relation: [pair_run k b b'] when the loop,
    entered in [b], makes exactly [k] iterations and leaves in [b']. *)
Inductive pair_run probs (avg : F) : nat → builder F → builder F → Prop :=
  | pair_run_exit b :
      pairing b = false → pair_run probs avg 0 b b
  | pair_run_iter k b b' b'' :
      pairing b = true → pair_body probs avg b = Ret b' →
      pair_run probs avg k b' b'' → pair_run probs avg (S k) b b''.

(** What the pairing loop has written so far: the alias entry of an
    index still on a worklist is untouched, and an index on neither
    worklist has had its probability entry assigned as [less]. *)
Record assigned probs b : Prop := {
  assigned_alias : ∀ i, i ∈ small b ++ large b → b_alias b !! i = Some 0;
  assigned_probability : ∀ i,
    i < length probs → i ∉ small b ++ large b →
    b_probability b !! i
    = Some (fmul (entry (probs2 b) i) (of_int (length probs)))
}.

(** ** The tables of a sampler over [n] outcomes *)
Record table_ok (n : nat) (s : AliasSampler F) : Prop := {
  table_probability : length (probability s) = n;
  table_alias : length (alias s) = n;
  table_alias_range : ∀ i a, alias s !! i = Some a → a < n
}.

(** The sampler after a draw that left the generator in [r]. *)
Definition advanced (s : AliasSampler F) (r : Rand) : AliasSampler F :=
  {| seed := seed s; rand := r;
     probability := probability s; alias := alias s |}.
End Vocabulary.

(** A binary64 zero, of either sign. *)
Definition is_zero (x : B64.float64) : Prop :=
  x = S754_zero false ∨ x = S754_zero true.

(** ** The mass that a table routes to an outcome, in rationals *)

Definition sumQ (l : list Qc) : Qc := foldr Qcplus 0%Qc l.

(** The normalized input weight of outcome [k]: [weights[k] / Σ weights]. *)
Definition normalized (weights : list Qc) (k : nat) : Qc :=
  (entry weights k / sumQ weights)%Qc.

(** The probability with which a draw from the table returns [k]: column
    [k] is drawn with probability [1/n] and kept with probability
    [probability[k]]; a column [i] with [alias[i] = k] is drawn with
    probability [1/n] and left for its alias with probability
    [1 - probability[i]]. *)
Definition mass (probability : list Qc) (alias : list nat) (k : nat) : Qc :=
  let n := Qc_of_Z (Z.of_nat (length probability)) in
  (entry probability k / n
   + sumQ ((λ i, if decide (alias !! i = Some k)
                 then (1 - entry probability i) / n else 0)
           <$> seq 0 (length probability)))%Qc.

(** The exact value of a binary64 entry, for the mass of a binary64
    table (an entry that is not finite counts as 0). *)
Definition to_Qc (x : B64.float64) : Qc := Q2Qc (B64.to_Q x).

(** ** Binary64: well-formed values and rounding *)

(** A well-formed binary64 value that is finite and not negative; one
    that is not negative (finite or +Inf); one that is finite and
    positive. *)
Definition finite_nonneg (x : B64.float64) : Prop :=
  match x with
  | S754_zero _ => True
  | S754_finite false m e => bounded B64.prec B64.emax m e = true
  | _ => False
  end.

Definition nonneg (x : B64.float64) : Prop :=
  finite_nonneg x ∨ x = S754_infinity false.

(** [0.0 <= p && p <= 1.0] *)
Definition in_unit (p : B64.float64) : Prop :=
  SFleb B64.zero p = true ∧ SFleb p B64.one = true.

(** A well-formed positive weight. *)
Definition finite_pos (x : B64.float64) : Prop :=
  match x with
  | S754_finite false m e => bounded B64.prec B64.emax m e = true
  | _ => False
  end.

(** The invariant of the pairing loop at binary64. *)
Record b64_inv (probs : list B64.float64) (b : builder B64.float64) : Prop := {
  b64_nonneg : ∀ k, nonneg (entry (probs2 b) k);
  b64_small : ∀ k, k ∈ small b →
    fge (entry (probs2 b) k) (fdiv fone (of_int (length probs))) = false;
  b64_large : ∀ k, k ∈ large b →
    fge (entry (probs2 b) k) (fdiv fone (of_int (length probs))) = true;
  b64_unit : ∀ k, k < length probs → k ∉ small b ++ large b →
    in_unit (entry (b_probability b) k)
}.

(** A canonical representation [m * 2^e] at binary64. *)
Definition canonical (m e : Z) : Prop :=
  (0 < m)%Z ∧ fexp B64.prec B64.emax (Zdigits2 m + e) = e.

(** [shifted k mrs mrs']: [mrs'] is [mrs] shifted right by [k] bits. *)
Definition shifted (k : Z) (mrs mrs' : shr_record) : Prop :=
  shr_m mrs' = (shr_m mrs / 2 ^ k)%Z ∧
  (shr_r mrs = false → shr_s mrs = false → (shr_m mrs mod 2 ^ k)%Z = 0%Z →
   shr_r mrs' = false ∧ shr_s mrs' = false).

(** What [binary_round_aux] returns for a rounded mantissa [r] at
    exponent [E]. *)
Definition round_result (s : bool) (r E : Z) (R : B64.float64) : Prop :=
  (r = 0%Z ∧ R = S754_zero s) ∨
  ((0 < r)%Z ∧ ∃ m2 e2, (E ≤ e2)%Z ∧ (Z.pos m2 * 2 ^ (e2 - E))%Z = r ∧
     canonical_mantissa B64.prec B64.emax m2 e2 = true ∧
     (((e2 ≤ 971)%Z ∧ R = S754_finite s m2 e2) ∨
      ((971 < e2)%Z ∧ R = S754_infinity s))).

(** ** Binary64: the error of a run of [InitWithSeed] *)

(** [2^-52], twice the unit roundoff, and the least positive binary64
    value [2^-1074]. *)
Definition u2 : Q := 1 # 4503599627370496.
Definition eta : Q := (2 ^ (-1074))%Q.

(** The same, as canonical rationals. *)
Definition U2 : Qc := Q2Qc (1 # 4503599627370496).
Definition Eta : Qc := Q2Qc eta.

(** The binary64 value of a normalized weight, [probs2[k]] before the
    pairing loop. *)
Definition what (probs : list B64.float64) (k : nat) : Qc :=
  to_Qc (entry (normalize probs (total probs)) k).

(** During the pairing loop at binary64: the mass that the entries
    written so far route to [k], with the working weight of [k] while
    [k] is still on a worklist. *)
Definition fmass (n : nat) (b : builder B64.float64) (k : nat) : Qc :=
  ((if decide (k ∈ small b ++ large b)
    then to_Qc (entry (probs2 b) k)
    else to_Qc (entry (b_probability b) k) / Qc_of_Z (Z.of_nat n))
   + sumQ ((λ i, if decide ((i ∉ small b ++ large b)
                            ∧ b_alias b !! i = Some k)
                 then (1 - to_Qc (entry (b_probability b) i))
                      / Qc_of_Z (Z.of_nat n)
                 else 0) <$> seq 0 n))%Qc.

(** The working weight the worklists hold in excess of [1/n]. *)
Definition fexcess (n : nat) (b : builder B64.float64) : Qc :=
  sumQ ((λ k, (to_Qc (entry (probs2 b) k) - 1 / Qc_of_Z (Z.of_nat n))%Qc)
        <$> (small b ++ large b)).

(** What one iteration of the pairing loop can add to the error. *)
Definition step_err : Qc := (Q2Qc 11 * U2)%Qc.

(** The tolerance on the mass routed to an outcome: [n * 2^-46]. *)
Definition tolerance (n : nat) : Qc :=
  (Qc_of_Z (Z.of_nat n) * Q2Qc (1 # 70368744177664))%Qc.

(** The invariant of the pairing loop at binary64, after [j] iterations. *)
Record float_inv (probs : list B64.float64) (j : nat)
    (b : builder B64.float64) : Prop := {
  fi_finite : ∀ k, k ∈ small b ++ large b →
    finite_nonneg (entry (probs2 b) k);
  fi_prob : ∀ k, k < length probs → k ∉ small b ++ large b →
    finite_nonneg (entry (b_probability b) k)
    ∧ (to_Qc (entry (b_probability b) k) ≤ 1)%Qc;
  fi_mass : ∀ k, k < length probs →
    (fmass (length probs) b k - what probs k
       ≤ Qc_of_Z (Z.of_nat j) * step_err)%Qc
    ∧ (what probs k - fmass (length probs) b k
       ≤ Qc_of_Z (Z.of_nat j) * step_err)%Qc;
  fi_excess :
    let E0 := (sumQ ((λ k, what probs k) <$> seq 0 (length probs)) - 1)%Qc in
    (fexcess (length probs) b - E0 ≤ Qc_of_Z (Z.of_nat j) * step_err)%Qc
    ∧ (E0 - fexcess (length probs) b ≤ Qc_of_Z (Z.of_nat j) * step_err)%Qc
}.

(** ** An outcome that the pairing loop never uses as [more] *)

(** What [math/rand] promises of [Float64] at the lower end: a value
    that is not below 0.0. *)
Definition Float64_not_negative (F : Type) `{Arith F, RandGen F} : Prop :=
  ∀ r : Rand, flt (Float64 r).1 fzero = false.

(** The index [k] is not on the large worklist, its working weight is
    still its normalized weight, and no alias entry written so far is
    [k]. *)
Record kept_small {F} {FA : Arith F} (probs : list F) (k : nat)
    (b : builder F) : Prop := {
  ks_large : k ∉ large b;
  ks_weight : entry (probs2 b) k = entry (normalize probs (total probs)) k;
  ks_alias : ∀ i, i ∉ small b ++ large b → b_alias b !! i ≠ Some k
}.

(** The probability entries that the pairing loop has assigned are
    finite. *)
Definition assigned_finite (probs : list B64.float64)
    (b : builder B64.float64) : Prop :=
  ∀ k, k < length probs → k ∉ small b ++ large b →
    finite_nonneg (entry (b_probability b) k).

(** ** Binary64: scaling by a power of two *)

(** [x * 2^c], on the representation. *)
Definition scale2 (c : Z) (x : B64.float64) : B64.float64 :=
  match x with
  | S754_finite s m e => S754_finite s m (e + c)
  | _ => x
  end.

(** A zero, or a well-formed positive normal value (53 significant
    bits). *)
Definition normal_or_zero (x : B64.float64) : Prop :=
  match x with
  | S754_zero _ => True
  | S754_finite false m e =>
      bounded B64.prec B64.emax m e = true ∧ Zdigits2 (Z.pos m) = 53%Z
  | _ => False
  end.

(** * Properties that hold in every arithmetic *)

Lemma res_bind_Ret {A B} (f : A → res B) (a : A) : (Ret a ≫= f) = f a.
Proof. done. Qed.

Lemma index_Some {A} (l : list A) i a : l !! i = Some a → index l i = Ret a.
Proof. unfold index. by intros ->. Qed.

Lemma index_Ret_inv {A} (l : list A) i a : index l i = Ret a → l !! i = Some a.
Proof. unfold index. by destruct (l !! i); intros [=->]. Qed.

Lemma set_index_lt {A} (l : list A) i v :
  i < length l → set_index l i v = Ret (<[i := v]> l).
Proof. unfold set_index. intros. by rewrite decide_True. Qed.

Lemma set_index_Ret_inv {A} (l l' : list A) i v :
  set_index l i v = Ret l' → i < length l ∧ l' = <[i := v]> l.
Proof. unfold set_index. case_decide; [|done]. by intros [=<-]. Qed.

Section Generic.
Context {F : Type} {FA : Arith F} {FG : RandGen F}.
Implicit Types (b : builder F) (probs w : list F) (d : Deque.t).

Lemma entry_insert_ne w i j (v : F) : i ≠ j → entry (<[j := v]> w) i = entry w i.
Proof. intros. unfold entry. by rewrite list_lookup_insert_ne. Qed.

Lemma entry_insert_eq w i (v : F) : i < length w → entry (<[i := v]> w) i = v.
Proof. intros. unfold entry. by rewrite list_lookup_insert_eq. Qed.

Lemma entry_lookup w i (v : F) : w !! i = Some v → entry w i = v.
Proof. unfold entry. by intros ->. Qed.

Lemma lookup_entry w i : i < length w → w !! i = Some (entry w i).
Proof.
  intros Hi. pose proof (lookup_lt_is_Some_2 _ _ Hi) as [v Hv].
  by rewrite (entry_lookup _ _ _ Hv).
Qed.

Lemma pairing_true b :
  pairing b = true ↔
  ∃ less s1 more l1, small b = less :: s1 ∧ large b = more :: l1.
Proof.
  unfold pairing, Deque.Len. split.
  - destruct (small b) as [|less s1], (large b) as [|more l1]; try done.
    intros _. by exists less, s1, more, l1.
  - by intros (less & s1 & more & l1 & -> & ->).
Qed.

Lemma pairing_false b : pairing b = false ↔ small b = [] ∨ large b = [].
Proof.
  unfold pairing, Deque.Len.
  destruct (small b), (large b); cbn; intuition congruence.
Qed.

(** The iteration, when no index is out of range. *)
Lemma pair_body_in_range probs avg b less s1 more l1 :
  small b = less :: s1 → large b = more :: l1 →
  less < length (probs2 b) → more < length (probs2 b) →
  less < length (b_probability b) → less < length (b_alias b) →
  pair_body probs avg b = Ret (paired_with probs avg b less s1 more l1).
Proof.
  intros Hs Hl Hless Hmore Hp Ha.
  pose proof (lookup_lt_is_Some_2 _ _ Hless) as [wl Hwl].
  pose proof (lookup_lt_is_Some_2 _ _ Hmore) as [wm Hwm].
  unfold pair_body, paired_with, entry. rewrite Hs, Hl, Hwl, Hwm. cbn.
  rewrite (index_Some _ _ _ Hwl), (index_Some _ _ _ Hwm). cbn.
  rewrite !set_index_lt by done. cbn.
  erewrite index_Some; [|by apply list_lookup_insert_eq]. cbn.
  by destruct (fge _ _).
Qed.

(** Whatever the iteration returns, it is that state: one index is
    popped from each worklist and [more] is pushed back on one. *)
Lemma pair_body_Ret_inv probs avg b b' :
  pair_body probs avg b = Ret b' →
  ∃ less s1 more l1,
    small b = less :: s1 ∧ large b = more :: l1 ∧
    less < length (probs2 b) ∧ more < length (probs2 b) ∧
    less < length (b_probability b) ∧ less < length (b_alias b) ∧
    b' = paired_with probs avg b less s1 more l1.
Proof.
  intros Hb. pose proof Hb as Hb0. unfold pair_body in Hb.
  destruct (small b) as [|less s1] eqn:Hs; [done|].
  destruct (large b) as [|more l1] eqn:Hl; [done|]. cbn in Hb.
  destruct (index (probs2 b) less) as [wl| |] eqn:Hwl; [|done..].
  cbn in Hb.
  destruct (set_index (b_probability b) less _) as [p1| |] eqn:Hp1;
    [|done..]. cbn in Hb.
  destruct (set_index (b_alias b) less _) as [a1| |] eqn:Ha1; [|done..].
  cbn in Hb.
  destruct (index (probs2 b) more) as [wm| |] eqn:Hwm; [|done..].
  apply index_Ret_inv in Hwl, Hwm.
  apply set_index_Ret_inv in Hp1 as [Hp1 _], Ha1 as [Ha1 _].
  exists less, s1, more, l1.
  assert (less < length (probs2 b)) by by eapply lookup_lt_Some.
  assert (more < length (probs2 b)) by by eapply lookup_lt_Some.
  split_and!; try done.
  rewrite (pair_body_in_range probs avg b less s1 more l1) in Hb0 by done.
  by injection Hb0.
Qed.

Lemma paired_with_size probs avg b less s1 more l1 :
  small b = less :: s1 → large b = more :: l1 →
  worklist_size (paired_with probs avg b less s1 more l1) + 1
  = worklist_size b.
Proof.
  intros Hs Hl. unfold worklist_size, paired_with, Deque.Len. cbn.
  rewrite Hs, Hl. destruct (fge _ _); cbn; lia.
Qed.

Lemma paired_with_wf n probs avg b less s1 more l1 :
  wf n b → small b = less :: s1 → large b = more :: l1 →
  wf n (paired_with probs avg b less s1 more l1).
Proof.
  intros [Hw Hp Ha Hr Hn Har] Hs Hl. rewrite Hs, Hl in Hr, Hn.
  assert (Hperm : (more :: s1) ++ l1 ≡ₚ s1 ++ more :: l1)
    by (cbn; apply Permutation_middle).
  apply NoDup_cons_1_2 in Hn as Hn'.
  assert (Hr' : ∀ i, i ∈ s1 ++ more :: l1 → i < n)
    by (intros i Hi; apply Hr; by right).
  split; cbn; rewrite ?length_insert; try done.
  - destruct (fge _ _); [done|]. intros i. rewrite Hperm. apply Hr'.
  - destruct (fge _ _); [done|]. by rewrite Hperm.
  - intros i a [(_ & <- & _)|(_ & Hi)]%list_lookup_insert_Some.
    + apply Hr'. set_solver.
    + by eapply Har.
Qed.

Lemma pair_body_wf n probs avg b :
  wf n b → pairing b = true →
  ∃ b', pair_body probs avg b = Ret b' ∧ wf n b' ∧
        worklist_size b' + 1 = worklist_size b.
Proof.
  intros Hwf (less & s1 & more & l1 & Hs & Hl)%pairing_true.
  exists (paired_with probs avg b less s1 more l1).
  assert (less < n ∧ more < n) as [??].
  { split; apply (wf_range _ _ Hwf); rewrite Hs, Hl; set_solver. }
  destruct Hwf as [Hw Hp Ha Hr Hn Har].
  split_and!.
  - apply pair_body_in_range; try done; lia.
  - by apply paired_with_wf.
  - by apply paired_with_size.
Qed.

Lemma pair_run_loop probs avg k b b' fuel :
  pair_run probs avg k b b' → k ≤ fuel →
  pair_loop fuel probs avg b = Ret b'.
Proof.
  intros Hrun. revert fuel.
  induction Hrun as [b Hb|k b b' b'' Hb Hbody _ IH]; intros fuel Hfuel.
  - destruct fuel; cbn; by rewrite Hb.
  - destruct fuel as [|fuel]; [lia|]. cbn. rewrite Hb, Hbody. cbn.
    apply IH. lia.
Qed.

Lemma pair_run_exits probs avg k b b' :
  pair_run probs avg k b b' → pairing b' = false.
Proof. by induction 1. Qed.

Lemma pair_run_wf n probs avg k b b' :
  pair_run probs avg k b b' → wf n b → wf n b'.
Proof.
  induction 1 as [|k b b' b'' Hb Hbody _ IH]; [done|]. intros Hwf.
  destruct (pair_body_wf n probs avg b Hwf Hb) as (b1 & Hb1 & Hwf1 & _).
  apply IH. congruence.
Qed.

(** The loop stops: from a state of worklist size [m] it makes fewer
    than [m] iterations (none when [m = 0]). *)
Lemma pair_run_total n probs avg b :
  wf n b →
  ∃ k b', pair_run probs avg k b b' ∧ k ≤ worklist_size b - 1.
Proof.
  remember (worklist_size b) as m eqn:Hm. revert b Hm.
  induction m as [m IH] using lt_wf_ind. intros b -> Hwf.
  destruct (pairing b) eqn:Hb.
  - destruct (pair_body_wf n probs avg b Hwf Hb) as (b1 & Hb1 & Hwf1 & Hsz).
    destruct (IH (worklist_size b1) ltac:(lia) b1 eq_refl Hwf1)
      as (k & b' & Hrun & Hk).
    exists (S k), b'. split; [by eapply pair_run_iter|].
    apply pairing_true in Hb as (less & s1 & more & l1 & Hs & Hl).
    assert (2 ≤ worklist_size b)
      by (unfold worklist_size, Deque.Len; rewrite Hs, Hl; cbn; lia).
    destruct (pairing b1) eqn:Hb1p.
    + apply pairing_true in Hb1p as (?&?&?&?& Hs1 & Hl1).
      assert (2 ≤ worklist_size b1)
        by (unfold worklist_size, Deque.Len; rewrite Hs1, Hl1; cbn; lia).
      lia.
    + inversion Hrun; [lia|congruence].
  - exists 0, b. split; [by constructor|lia].
Qed.

(** ** The loop that populates the stacks *)

Lemma populate_spec idxs w avg s l :
  (∀ i, i ∈ idxs → i < length w) →
  populate idxs w avg s l =
  Ret (reverse (filter (λ i, to_large w avg i = false) idxs) ++ s,
       reverse (filter (λ i, to_large w avg i = true) idxs) ++ l).
Proof.
  revert s l. induction idxs as [|i idxs IH]; intros s l Hr; [done|].
  pose proof (lookup_lt_is_Some_2 w i (Hr i ltac:(left))) as [p Hp].
  cbn [populate]. rewrite (index_Some _ _ _ Hp), res_bind_Ret.
  rewrite !filter_cons.
  assert (Hti : to_large w avg i = fge p avg)
    by (unfold to_large, entry; by rewrite Hp).
  assert (Hr' : ∀ j, j ∈ idxs → j < length w)
    by (intros j Hj; apply Hr; by right).
  destruct (fge p avg); rewrite IH by done; unfold Deque.PushBack.
  - rewrite decide_False, decide_True by congruence.
    by rewrite reverse_cons, <-app_assoc.
  - rewrite decide_True, decide_False by congruence.
    by rewrite reverse_cons, <-app_assoc.
Qed.

Lemma populated_spec probs :
  let w := normalize probs (total probs) in
  let avg := fdiv fone (of_int (length probs)) in
  populated probs =
  Ret {| probs2 := w;
         b_probability := replicate (length probs) fzero;
         b_alias := replicate (length probs) 0;
         small := reverse (filter (λ i, to_large w avg i = false)
                             (seq 0 (length probs)));
         large := reverse (filter (λ i, to_large w avg i = true)
                             (seq 0 (length probs))) |}.
Proof.
  intros w avg. unfold populated. fold w avg.
  rewrite populate_spec.
  - cbn. by rewrite !app_nil_r.
  - intros i [_ Hi]%elem_of_seq. unfold w, normalize.
    rewrite length_fmap. lia.
Qed.

Lemma populated_wf probs b :
  probs ≠ [] → populated probs = Ret b → wf (length probs) b.
Proof.
  intros Hne. rewrite populated_spec. intros [=<-].
  split; cbn.
  - unfold normalize. by rewrite length_fmap.
  - by rewrite length_replicate.
  - by rewrite length_replicate.
  - intros i. rewrite elem_of_app, !elem_of_reverse, !list_elem_of_filter,
      !elem_of_seq. lia.
  - apply NoDup_app. split_and!.
    + rewrite reverse_Permutation. apply NoDup_filter, NoDup_seq.
    + intros i. rewrite !elem_of_reverse, !list_elem_of_filter.
      intros [-> _] [? _]. done.
    + rewrite reverse_Permutation. apply NoDup_filter, NoDup_seq.
  - intros i a [-> _]%lookup_replicate. destruct probs; [done|cbn; lia].
Qed.

Lemma to_large_split_length w avg (l : list nat) :
  length (filter (λ i, to_large w avg i = false) l)
  + length (filter (λ i, to_large w avg i = true) l) = length l.
Proof.
  induction l as [|i l IH]; [done|]. rewrite !filter_cons.
  destruct (to_large w avg i); cbn.
  - rewrite decide_False, decide_True by done. cbn. lia.
  - rewrite decide_True, decide_False by done. cbn. lia.
Qed.

(** Every index is on exactly one of the two worklists at the start. *)
Lemma populated_worklist_size probs b :
  populated probs = Ret b → worklist_size b = length probs.
Proof.
  rewrite populated_spec. intros [=<-].
  unfold worklist_size, Deque.Len. cbn.
  by rewrite !length_reverse, to_large_split_length, length_seq.
Qed.

(** ** The loops that empty the stacks *)

Lemma drain_spec d (p : list F) :
  (∀ i, i ∈ d → i < length p) →
  ∃ p', drain d p = Ret p' ∧ length p' = length p ∧
        (∀ i, i ∈ d → p' !! i = Some fone) ∧
        (∀ i, i ∉ d → p' !! i = p !! i).
Proof.
  revert p. induction d as [|j d IH]; intros p Hr.
  - exists p. split_and!; [done|done|set_solver|done].
  - cbn [drain]. rewrite set_index_lt by (apply Hr; by left). cbn.
    destruct (IH (<[j := fone]> p)) as (p' & Hp' & Hlen & Hin & Hout).
    { intros i Hi. rewrite length_insert. apply Hr. by right. }
    exists p'. rewrite length_insert in Hlen. split_and!; [done|done|..].
    + intros i Hi. destruct (decide (i ∈ d)) as [|Hid]; [by apply Hin|].
      rewrite Hout by done. apply elem_of_cons in Hi as [->|]; [|done].
      apply list_lookup_insert_eq, Hr. by left.
    + intros i [Hij Hid]%not_elem_of_cons. rewrite Hout by done.
      by apply list_lookup_insert_ne.
Qed.

(** ** Construction, as a whole *)

Lemma paired_with_assigned n probs avg b less s1 more l1 :
  wf n b → n = length probs → assigned probs b →
  small b = less :: s1 → large b = more :: l1 →
  assigned probs (paired_with probs avg b less s1 more l1).
Proof.
  intros [Hw Hp Ha Hr Hn Har] -> [Hal Hpr] Hs Hl.
  rewrite Hs, Hl in Hr, Hn, Hal, Hpr.
  assert (Hless : less ∉ s1 ++ more :: l1) by by apply NoDup_cons_1_1 in Hn.
  assert (Hmore : more ∉ s1 ++ l1).
  { apply NoDup_cons_1_2, NoDup_app in Hn as (_ & Hd & Hn2).
    apply NoDup_cons_1_1 in Hn2.
    intros [Hm|Hm]%elem_of_app; [|done]. apply (Hd more Hm). by left. }
  assert (Hsame : ∀ i,
    i ∈ small (paired_with probs avg b less s1 more l1)
        ++ large (paired_with probs avg b less s1 more l1)
    ↔ i ∈ s1 ++ more :: l1).
  { intros i. cbn. destruct (fge _ _); set_solver. }
  split.
  - intros i Hi%Hsame. cbn. rewrite list_lookup_insert_ne by set_solver.
    apply Hal. set_solver.
  - intros i Hi Hni. rewrite Hsame in Hni. cbn.
    assert (i ≠ more) by set_solver.
    rewrite entry_insert_ne by done.
    destruct (decide (i = less)) as [->|Hil].
    + apply list_lookup_insert_eq. rewrite Hp. apply Hr. set_solver.
    + rewrite list_lookup_insert_ne by done. apply Hpr; set_solver.
Qed.

Lemma pair_run_assigned probs avg k b b' :
  pair_run probs avg k b b' →
  wf (length probs) b → assigned probs b → assigned probs b'.
Proof.
  induction 1 as [|k b b' b'' Hb Hbody _ IH]; [done|]. intros Hwf Has.
  apply pair_body_Ret_inv in Hbody
    as (less & s1 & more & l1 & Hs & Hl & _ & _ & _ & _ & ->).
  apply IH.
  - by apply paired_with_wf.
  - by eapply paired_with_assigned.
Qed.

Lemma populated_assigned probs b :
  populated probs = Ret b → assigned probs b.
Proof.
  rewrite populated_spec. intros [=<-]. split; cbn.
  - intros i. rewrite elem_of_app, !elem_of_reverse, !list_elem_of_filter,
      !elem_of_seq. intros Hi. apply lookup_replicate_2. lia.
  - intros i Hi Hni. exfalso. apply Hni.
    rewrite elem_of_app, !elem_of_reverse, !list_elem_of_filter, !elem_of_seq.
    destruct (to_large _ _ i); [right|left]; split; (done || lia).
Qed.

(** The run of [InitWithSeed] on a non-empty slice, step by step. *)
Lemma InitWithSeed_run probs sd :
  probs ≠ [] →
  ∃ b0 k b p,
    populated probs = Ret b0 ∧
    pair_run probs (fdiv fone (of_int (length probs))) k b0 b ∧
    k ≤ length probs - 1 ∧
    paired probs = Ret b ∧
    wf (length probs) b ∧ assigned probs b ∧
    length p = length probs ∧
    (∀ i, i ∈ small b ++ large b → p !! i = Some fone) ∧
    (∀ i, i ∉ small b ++ large b → p !! i = b_probability b !! i) ∧
    InitWithSeed probs sd =
      Ret (Some {| seed := sd; rand := NewSource sd;
                   probability := p; alias := b_alias b |}, None).
Proof.
  intros Hne. set (avg := fdiv fone (of_int (length probs))).
  destruct (populated probs) as [b0| |] eqn:Hb0;
    [|by rewrite populated_spec in Hb0..].
  pose proof (populated_wf probs b0 Hne Hb0) as Hwf0.
  pose proof (populated_worklist_size probs b0 Hb0) as Hsz.
  destruct (pair_run_total _ probs avg b0 Hwf0) as (k & b & Hrun & Hk).
  rewrite Hsz in Hk.
  pose proof (pair_run_wf _ _ _ _ _ _ Hrun Hwf0) as Hwf.
  pose proof (pair_run_assigned _ _ _ _ _ Hrun Hwf0
                (populated_assigned _ _ Hb0)) as Has.
  assert (Hpaired : paired probs = Ret b).
  { unfold paired. rewrite Hb0, res_bind_Ret.
    apply (pair_run_loop _ _ k); [done|lia]. }
  destruct (drain_spec (small b) (b_probability b))
    as (p1 & Hp1 & Hlen1 & Hin1 & Hout1).
  { intros i Hi. rewrite (wf_probability _ _ Hwf).
    apply (wf_range _ _ Hwf). set_solver. }
  destruct (drain_spec (large b) p1) as (p2 & Hp2 & Hlen2 & Hin2 & Hout2).
  { intros i Hi. rewrite Hlen1, (wf_probability _ _ Hwf).
    apply (wf_range _ _ Hwf). set_solver. }
  exists b0, k, b, p2. split_and!; try done.
  - by rewrite Hlen2, Hlen1, (wf_probability _ _ Hwf).
  - intros i [Hi|Hi]%elem_of_app; [|by apply Hin2].
    destruct (decide (i ∈ large b)); [by apply Hin2|].
    rewrite Hout2 by done. by apply Hin1.
  - intros i [Hs Hl]%not_elem_of_app. by rewrite Hout2, Hout1.
  - unfold InitWithSeed. destruct probs; [done|].
    cbn [length Nat.eqb]. rewrite Hpaired, res_bind_Ret, Hp1, res_bind_Ret.
    by rewrite Hp2, res_bind_Ret.
Qed.

Lemma pair_run_size probs avg k b b' :
  pair_run probs avg k b b' → worklist_size b' + k = worklist_size b.
Proof.
  induction 1 as [|k b b' b'' Hb Hbody _ IH]; [lia|].
  apply pair_body_Ret_inv in Hbody
    as (less & s1 & more & l1 & Hs & Hl & _ & _ & _ & _ & ->).
  pose proof (paired_with_size probs avg b less s1 more l1 Hs Hl). lia.
Qed.

(** ** The sampler *)

Lemma InitWithSeed_table_ok probs sd :
  probs ≠ [] →
  ∃ s, InitWithSeed probs sd = Ret (Some s, None) ∧
       table_ok (length probs) s ∧ seed s = sd ∧ rand s = NewSource sd.
Proof.
  intros Hne.
  destruct (InitWithSeed_run probs sd Hne)
    as (b0 & k & b & p & _ & _ & _ & _ & Hwf & _ & Hlen & _ & _ & Hinit).
  eexists. split; [exact Hinit|]. split; [|done].
  split; cbn; [done|apply Hwf..].
Qed.

Lemma Next_spec `{!RandGenSpec F} n (s : AliasSampler F) :
  0 < n → length (probability s) = n → length (alias s) = n →
  ∃ column r1 u r2 a,
    Intn (rand s) n = (column, r1) ∧ column < n ∧
    Float64 r1 = (u, r2) ∧
    alias s !! column = Some a ∧
    Next s = Ret (if flt u (entry (probability s) column) then column else a,
                  advanced s r2, [DrawIntn n; DrawFloat64]).
Proof.
  intros Hn Hp Ha.
  destruct (Intn (rand s) n) as [column r1] eqn:Hc.
  destruct (Float64 r1) as [u r2] eqn:Hu.
  assert (Hcol : column < n).
  { pose proof (Intn_range (rand s) n Hn) as Hr. by rewrite Hc in Hr. }
  pose proof (lookup_lt_is_Some_2 (alias s) column ltac:(lia)) as [a Hal].
  assert (Hpc : probability s !! column = Some (entry (probability s) column))
    by (apply lookup_entry; lia).
  exists column, r1, u, r2, a. split_and!; try done.
  unfold Next, rand_Intn, rand_Float64. rewrite Hp.
  destruct n; [lia|]. cbn [Nat.eqb fst snd]. rewrite Hc, res_bind_Ret.
  cbn [fst snd]. rewrite Hu.
  rewrite (index_Some _ _ _ Hpc), res_bind_Ret.
  cbn [fst snd app]. destruct (flt _ _); [done|].
  by rewrite (index_Some _ _ _ Hal), res_bind_Ret.
Qed.

Lemma Next_table_ok `{!RandGenSpec F} n (s : AliasSampler F) :
  0 < n → table_ok n s →
  ∃ o s' log, Next s = Ret (o, s', log) ∧ o < n ∧ table_ok n s'.
Proof.
  intros Hn [Hp Ha Har].
  destruct (Next_spec n s Hn Hp Ha)
    as (column & r1 & u & r2 & a & _ & Hcol & _ & Hal & ->).
  eexists _, _, _. split; [done|]. split.
  - destruct (flt _ _); [done|]. by eapply Har.
  - by split.
Qed.

Lemma Next_n_in_range `{!RandGenSpec F} n k (s : AliasSampler F) :
  0 < n → table_ok n s →
  ∃ os s', Next_n k s = Ret (os, s') ∧ length os = k ∧
           Forall (λ o, o < n) os ∧ table_ok n s'.
Proof.
  intros Hn. revert s. induction k as [|k IH]; intros s Hok.
  - exists [], s. by split_and!.
  - destruct (Next_table_ok n s Hn Hok) as (o & s1 & log & Hnext & Ho & Hok1).
    destruct (IH s1 Hok1) as (os & s' & Hnext' & Hlen & Hos & Hok').
    exists (o :: os), s'. cbn [Next_n].
    rewrite Hnext, res_bind_Ret, Hnext', res_bind_Ret.
    split_and!; [done|cbn; lia|by constructor|done].
Qed.
End Generic.

(** ** How indices are classified *)

Lemma populated_classifies {F} {FA : Arith F} (probs : list F) b0 i :
  populated probs = Ret b0 → i < length probs →
  let average := fdiv fone (of_int (length probs)) in
  (fge (entry (probs2 b0) i) average = true → i ∈ large b0 ∧ i ∉ small b0) ∧
  (fge (entry (probs2 b0) i) average = false → i ∈ small b0 ∧ i ∉ large b0).
Proof.
  rewrite populated_spec. intros [=<-] Hi. cbn.
  rewrite !elem_of_reverse, !list_elem_of_filter, !elem_of_seq.
  unfold to_large. split; intros ->; (split; [split; [done|lia]|by intros [? _]]).
Qed.

Lemma pair_body_reclassifies {F} {FA : Arith F} (probs : list F) b b' :
  let average := fdiv fone (of_int (length probs)) in
  length (probs2 b) = length probs →
  pair_body probs average b = Ret b' →
  ∃ less s1 more l1,
    small b = less :: s1 ∧ large b = more :: l1 ∧
    (fge (entry (probs2 b') more) average = true →
       small b' = s1 ∧ large b' = more :: l1) ∧
    (fge (entry (probs2 b') more) average = false →
       small b' = more :: s1 ∧ large b' = l1).
Proof.
  intros average Hlen
    (less & s1 & more & l1 & Hs & Hl & _ & Hmore & _ & _ & ->)%pair_body_Ret_inv.
  exists less, s1, more, l1. split_and!; [done..| |]; cbn;
    rewrite entry_insert_eq, length_insert, Hlen by done;
    fold average; by intros ->.
Qed.

(** ** Further properties that hold in every arithmetic *)

Section GenericExtra.
Context {F : Type} {FA : Arith F} {FG : RandGen F}.
Implicit Types (b : builder F) (probs w : list F) (d : Deque.t).

(** The tables are a function of the weights alone. *)
Lemma InitWithSeed_tables probs sd sd' s s' :
  InitWithSeed probs sd = Ret (Some s, None) →
  InitWithSeed probs sd' = Ret (Some s', None) →
  probability s' = probability s ∧ alias s' = alias s.
Proof.
  unfold InitWithSeed. destruct (length probs =? 0); [done|].
  destruct (paired probs) as [b| |]; [|done..]. rewrite !res_bind_Ret.
  destruct (drain (small b) (b_probability b)) as [p1| |]; [|done..].
  rewrite !res_bind_Ret.
  destruct (drain (large b) p1) as [p2| |]; [|done..].
  rewrite !res_bind_Ret. by intros [= <-] [= <-].
Qed.

(** A paired column never is its own alias. *)
Lemma paired_with_alias_ne n probs avg b less s1 more l1 :
  wf n b → small b = less :: s1 → large b = more :: l1 →
  (∀ i, i ∉ small b ++ large b → b_alias b !! i ≠ Some i) →
  ∀ i, i ∉ small (paired_with probs avg b less s1 more l1)
           ++ large (paired_with probs avg b less s1 more l1) →
       b_alias (paired_with probs avg b less s1 more l1) !! i ≠ Some i.
Proof.
  intros Hwf Hs Hl Hne i Hi.
  pose proof (wf_nodup _ _ Hwf) as Hnd. rewrite Hs, Hl in Hnd, Hne.
  assert (Hlm : less ≠ more).
  { intros ->. apply NoDup_cons_1_1 in Hnd. apply Hnd.
    apply elem_of_app. right. by left. }
  assert (Hi' : i ∉ s1 ++ more :: l1).
  { intros Hin. apply Hi. cbn [paired_with small large].
    destruct (fge _ _); [done|].
    by rewrite <-(Permutation_middle s1 l1 more) in Hin. }
  cbn [paired_with b_alias].
  destruct (decide (i = less)) as [->|Hil].
  - intros Hal. apply list_lookup_insert_Some in Hal as [(_ & ? & _)|[? _]];
      congruence.
  - rewrite list_lookup_insert_ne by done. apply Hne.
    intros [->|Hin]%elem_of_cons; done.
Qed.

Lemma pair_run_alias_ne n probs avg k b b' :
  pair_run probs avg k b b' → wf n b →
  (∀ i, i ∉ small b ++ large b → b_alias b !! i ≠ Some i) →
  ∀ i, i ∉ small b' ++ large b' → b_alias b' !! i ≠ Some i.
Proof.
  induction 1 as [|k b b' b'' Hb Hbody _ IH]; [done|]. intros Hwf Hne.
  apply pair_body_Ret_inv in Hbody
    as (less & s1 & more & l1 & Hs & Hl & _ & _ & _ & _ & ->).
  apply IH; [by apply paired_with_wf|by eapply paired_with_alias_ne].
Qed.

Lemma populated_all_listed probs b0 i :
  populated probs = Ret b0 → i < length probs → i ∈ small b0 ++ large b0.
Proof.
  intros Hb0 Hi. destruct (populated_classifies probs b0 i Hb0 Hi) as [Ht Hf].
  apply elem_of_app.
  destruct (fge (entry (probs2 b0) i) (fdiv fone (of_int (length probs))));
    [right; by apply Ht|left; by apply Hf].
Qed.

(** What [Next] returns leaves the tables and the seed as they were. *)
Lemma Next_Ret_inv (s s' : AliasSampler F) o log :
  Next s = Ret (o, s', log) →
  seed s' = seed s ∧ probability s' = probability s ∧ alias s' = alias s.
Proof.
  unfold Next, rand_Intn, rand_Float64.
  destruct (length (probability s) =? 0); [done|].
  destruct (Intn _ _) as [column r1]. rewrite res_bind_Ret. cbn [fst snd].
  destruct (Float64 r1) as [u r2].
  destruct (index (probability s) column) as [p| |]; [|done..].
  rewrite res_bind_Ret. destruct (flt u p).
  - by intros [= _ <- _].
  - destruct (index (alias s) column) as [a| |]; [|done..].
    rewrite res_bind_Ret. by intros [= _ <- _].
Qed.

Lemma Next_n_Ret_inv k (s s' : AliasSampler F) os :
  Next_n k s = Ret (os, s') →
  length os = k ∧
  seed s' = seed s ∧ probability s' = probability s ∧ alias s' = alias s.
Proof.
  revert s os. induction k as [|k IH]; intros s os; cbn [Next_n].
  - by intros [= <- <-].
  - destruct (Next s) as [[[o s1] log]| |] eqn:Hn; [|done..].
    rewrite res_bind_Ret.
    destruct (Next_n k s1) as [[os1 s2]| |] eqn:Hk; [|done..].
    rewrite res_bind_Ret. intros [= <- <-].
    apply Next_Ret_inv in Hn as (H1 & H2 & H3).
    apply IH in Hk as (HL & H1' & H2' & H3').
    cbn [length]. split_and!; [lia|congruence..].
Qed.

Lemma sum_list_bump (l : list nat) o c :
  l !! o = Some c → sum_list (<[o := c + 1]> l) = sum_list l + 1.
Proof.
  revert o. induction l as [|x l IH]; intros [|o] Hc; try done.
  - injection Hc as ->.
    change (c + 1 + sum_list l = c + sum_list l + 1). lia.
  - specialize (IH o Hc).
    change (x + sum_list (<[o := c + 1]> l) = x + sum_list l + 1). lia.
Qed.

(** The counting loop on a sound table. *)
Lemma count_draws_spec `{!RandGenSpec F} n sz (s : AliasSampler F)
    (counts : list nat) :
  0 < n → table_ok n s → length counts = n →
  ∃ counts' s', count_draws sz s counts = Ret (counts', s') ∧
                length counts' = n ∧
                sum_list counts' = sum_list counts + sz ∧
                table_ok n s'.
Proof.
  intros Hn. revert s counts. induction sz as [|sz IH]; intros s counts Hok Hlen.
  - exists counts, s. split_and!; [done|done|lia|done].
  - destruct (Next_table_ok n s Hn Hok) as (o & s1 & log & Hnext & Ho & Hok1).
    pose proof (lookup_lt_is_Some_2 counts o ltac:(lia)) as [c Hc].
    destruct (IH s1 (<[o := c + 1]> counts) Hok1
                ltac:(by rewrite length_insert))
      as (counts' & s' & Hrun & Hlen' & Hsum & Hok').
    exists counts', s'. cbn [count_draws].
    rewrite Hnext, res_bind_Ret, (index_Some _ _ _ Hc), res_bind_Ret.
    rewrite set_index_lt, res_bind_Ret by lia.
    split_and!; [done|done| |done].
    rewrite Hsum.
    rewrite (sum_list_bump _ _ _ Hc). lia.
Qed.

(** A table of cutoffs 1.0 gives back the column that was drawn. *)
Lemma unit_table_draw `{!RandGenSpec F} n (s : AliasSampler F) :
  0 < n → Float64_below_one F →
  probability s = replicate n fone → length (alias s) = n →
  ∃ s' log, Next s = Ret ((Intn (rand s) n).1, s', log).
Proof.
  intros Hn Hu Hp Ha.
  destruct (Next_spec n s Hn ltac:(by rewrite Hp, length_replicate) Ha)
    as (column & r1 & u & r2 & a & Hc & Hcol & Hf & _ & Hnext).
  rewrite Hc. cbn [fst]. eexists _, _. rewrite Hnext.
  rewrite Hp, (entry_lookup _ _ fone) by by apply lookup_replicate_2.
  pose proof (Hu r1) as Hu1. rewrite Hf in Hu1. cbn [fst] in Hu1.
  by rewrite Hu1.
Qed.

(** When no normalized weight passes the comparison with the average,
    the pairing loop does not run and every column is drained. *)
Lemma all_small_table probs sd :
  probs ≠ [] →
  (∀ i, i < length probs →
     fge (entry (normalize probs (total probs)) i)
         (fdiv fone (of_int (length probs))) = false) →
  InitWithSeed probs sd =
  Ret (Some {| seed := sd; rand := NewSource sd;
               probability := replicate (length probs) fone;
               alias := replicate (length probs) 0 |}, None).
Proof.
  intros Hne Hall.
  destruct (InitWithSeed_run probs sd Hne)
    as (b0 & k & b & p & Hb0 & Hrun & _ & _ & _ & _ & Hlen & Hin & _ & Hinit).
  assert (Hw : probs2 b0 = normalize probs (total probs)).
  { pose proof Hb0 as Hb0'. rewrite populated_spec in Hb0'.
    by injection Hb0' as <-. }
  assert (Hsmall : ∀ i, i < length probs → i ∈ small b0).
  { intros i Hi. apply (populated_classifies probs b0 i Hb0 Hi).
    rewrite Hw. by apply Hall. }
  assert (Hlarge : large b0 = []).
  { apply elem_of_nil_inv. intros i Hi.
    pose proof (populated_wf probs b0 Hne Hb0) as Hwf.
    assert (Hi' : i < length probs)
      by (apply (wf_range _ _ Hwf), elem_of_app; by right).
    destruct (populated_classifies probs b0 i Hb0 Hi') as [_ Hs].
    apply Hs; [|done]. rewrite Hw. by apply Hall. }
  assert (b = b0) as ->.
  { inversion Hrun as [|???? Hp]; [done|].
    apply pairing_true in Hp as (?&?&?&?&_&?). congruence. }
  assert (Halias : b_alias b0 = replicate (length probs) 0).
  { pose proof Hb0 as Hb0'. rewrite populated_spec in Hb0'.
    by injection Hb0' as <-. }
  assert (Hp : p = replicate (length probs) fone).
  { symmetry. apply replicate_as_Forall. split; [done|].
    apply Forall_lookup. intros i x Hx.
    assert (i < length probs) by (rewrite <-Hlen; by eapply lookup_lt_Some).
    rewrite Hin in Hx by (apply elem_of_app; left; by apply Hsmall).
    by injection Hx. }
  by rewrite Hp, Halias in Hinit.
Qed.
End GenericExtra.

(** * Properties of the binary64 arithmetic *)

Module B64Facts.
Import B64.

Lemma one_eq : one = S754_finite false 4503599627370496 (-52).
Proof. reflexivity. Qed.

(** A comparison with NaN is false. *)
Lemma ge_nan_l (y : float64) : ge nan y = false.
Proof. by destruct y. Qed.

Lemma ge_nan_r (x : float64) : ge x nan = false.
Proof. by destruct x. Qed.

Lemma lt_nan_r (x : float64) : lt x nan = false.
Proof. by destruct x. Qed.

Lemma compare_refl (x : float64) : x ≠ nan → SFcompare x x = Some Eq.
Proof.
  destruct x as [s|s| |s m e]; intros Hx; try done; cbn.
  - by destruct s.
  - rewrite Z.compare_refl, Pos.compare_cont_refl. by destruct s.
Qed.

Lemma ge_refl (x : float64) : x ≠ nan → ge x x = true.
Proof. intros Hx. unfold ge, SFleb. by rewrite compare_refl. Qed.

(** Strictly below is never at-or-above. *)
Lemma lt_not_ge (x y : float64) : lt x y = true → ge x y = false.
Proof.
  unfold lt, ge, SFltb, SFleb.
  destruct x as [sx|sx| |sx mx ex], y as [sy|sy| |sy my ey]; cbn;
    try done; try (by destruct sx); try (by destruct sy);
    try (by destruct sx, sy).
  pose proof (Z.compare_antisym ex ey) as Hz.
  pose proof (Pos.compare_cont_antisym my mx Eq) as Hp. cbn in Hp.
  destruct sx, sy; try done; rewrite Hz;
    (destruct (ex ?= ey)%Z; cbn; try done); rewrite <-Hp;
    by destruct (Pos.compare_cont Eq my mx).
Qed.

(** Rounding a non-negative mantissa never yields NaN. *)
Lemma shr_1_nonneg mrs : (0 ≤ shr_m mrs)%Z → (0 ≤ shr_m (shr_1 mrs))%Z.
Proof. destruct mrs as [[|[p|p|]|p] r s]; cbn; lia. Qed.

Lemma iter_shr_1_nonneg p mrs :
  (0 ≤ shr_m mrs)%Z → (0 ≤ shr_m (SpecFloat.iter_pos shr_1 p mrs))%Z.
Proof.
  revert mrs. induction p as [p IH|p IH|]; intros mrs Hm; cbn.
  - by apply IH, IH, shr_1_nonneg.
  - by apply IH, IH.
  - by apply shr_1_nonneg.
Qed.

Lemma shr_fexp_nonneg m e l :
  (0 ≤ m)%Z → (0 ≤ shr_m (shr_fexp prec emax m e l).1)%Z.
Proof.
  intros Hm. unfold shr_fexp, shr.
  assert (0 ≤ shr_m (shr_record_of_loc m l))%Z
    by by destruct l as [|[]].
  destruct (_ - e)%Z; cbn [fst]; try done. by apply iter_shr_1_nonneg.
Qed.

Lemma round_nearest_even_nonneg m l :
  (0 ≤ m)%Z → (0 ≤ round_nearest_even m l)%Z.
Proof.
  intros Hm. destruct l as [|[]]; cbn; try lia. destruct (Z.even m); lia.
Qed.

Lemma binary_round_aux_not_nan s m e l :
  (0 ≤ m)%Z → binary_round_aux prec emax s m e l ≠ nan.
Proof.
  intros Hm. unfold binary_round_aux.
  pose proof (shr_fexp_nonneg m e l Hm) as H1.
  destruct (shr_fexp prec emax m e l) as [mrs' e'].
  pose proof (shr_fexp_nonneg
    (round_nearest_even (shr_m mrs') (loc_of_shr_record mrs')) e' loc_Exact
    (round_nearest_even_nonneg _ _ H1)) as H2.
  destruct (shr_fexp prec emax _ e' loc_Exact) as [mrs'' e''].
  cbn [fst] in H2. destruct (shr_m mrs''); [done| |lia].
  by destruct (_ <=? _)%Z.
Qed.

Lemma of_nat_not_nan n : of_nat n ≠ nan.
Proof.
  unfold of_nat, binary_normalize.
  destruct (Z.of_nat n) as [|p|p] eqn:Hn; [done| |lia].
  unfold binary_round. destruct (shl_align _ _ _) as [mz ez].
  by apply binary_round_aux_not_nan.
Qed.

(** [1.0 / y] is not NaN unless [y] is. *)
Lemma div_one_not_nan (y : float64) : y ≠ nan → div one y ≠ nan.
Proof.
  rewrite one_eq. destruct y as [s|s| |s m e]; intros Hy; try done.
  unfold div, SFdiv, SFdiv_core_binary.
  set (m' := match _ with Z.pos _ => _ | _ => _ end).
  assert (Hm' : (0 ≤ m')%Z).
  { unfold m'. destruct (_ - _)%Z; try lia. apply Z.shiftl_nonneg. lia. }
  pose proof (Z.div_pos m' (Z.pos m) Hm' ltac:(lia)) as Hq.
  unfold Z.div in Hq. destruct (Z.div_eucl m' (Z.pos m)) as [q r].
  by apply binary_round_aux_not_nan.
Qed.

(** The average [1.0 / float64(n)] compares at-or-above itself. *)
Lemma average_ge_itself n :
  let average := div one (of_nat n) in ge average average = true.
Proof. apply ge_refl, div_one_not_nan, of_nat_not_nan. Qed.
End B64Facts.

(** * Rounding at binary64 *)

Module B64Round.
Import B64.
Local Open Scope Z_scope.

Lemma fexp_eq d : fexp prec emax d = Z.max (d - 53) (-1074).
Proof. reflexivity. Qed.

Lemma fexp_mono d1 d2 : d1 ≤ d2 → fexp prec emax d1 ≤ fexp prec emax d2.
Proof. rewrite !fexp_eq. lia. Qed.

(** The number of binary digits *)

Lemma digits2_pos_bounds p :
  2 ^ (Z.pos (digits2_pos p) - 1) ≤ Z.pos p < 2 ^ Z.pos (digits2_pos p).
Proof.
  induction p as [p IH|p IH|]; cbn [digits2_pos].
  - rewrite Pos2Z.inj_succ. replace (Z.succ (Z.pos (digits2_pos p)) - 1)
      with (Z.succ (Z.pos (digits2_pos p) - 1)) by lia.
    rewrite !Z.pow_succ_r by lia. lia.
  - rewrite Pos2Z.inj_succ. replace (Z.succ (Z.pos (digits2_pos p)) - 1)
      with (Z.succ (Z.pos (digits2_pos p) - 1)) by lia.
    rewrite !Z.pow_succ_r by lia. lia.
  - cbn. lia.
Qed.

Lemma Zdigits2_bounds m :
  0 < m → 2 ^ (Zdigits2 m - 1) ≤ m < 2 ^ Zdigits2 m.
Proof. destruct m as [|p|p]; try lia. intros _. apply digits2_pos_bounds. Qed.

Lemma Zdigits2_pos m : 0 < m → 0 < Zdigits2 m.
Proof. destruct m; cbn; lia. Qed.

Lemma Zdigits2_nonneg m : 0 ≤ Zdigits2 m.
Proof. destruct m; cbn; lia. Qed.

Lemma Zdigits2_unique m d :
  0 < d → 2 ^ (d - 1) ≤ m < 2 ^ d → Zdigits2 m = d.
Proof.
  intros Hd [Hlo Hhi].
  assert (Hm : 0 < m) by (pose proof (Z.pow_pos_nonneg 2 (d - 1)); lia).
  pose proof (Zdigits2_bounds m Hm) as [Hlo' Hhi'].
  pose proof (Zdigits2_pos m Hm) as Hd'.
  destruct (Z.lt_trichotomy (Zdigits2 m) d) as [Hlt|[Heq|Hgt]]; [|done|].
  - exfalso. assert (2 ^ Zdigits2 m ≤ 2 ^ (d - 1))
      by (apply Z.pow_le_mono_r; lia). lia.
  - exfalso. assert (2 ^ d ≤ 2 ^ (Zdigits2 m - 1))
      by (apply Z.pow_le_mono_r; lia). lia.
Qed.

Lemma Zdigits2_le m1 m2 : 0 < m1 → m1 ≤ m2 → Zdigits2 m1 ≤ Zdigits2 m2.
Proof.
  intros H1 H12.
  pose proof (Zdigits2_bounds m1 H1) as [Hlo1 _].
  pose proof (Zdigits2_bounds m2 ltac:(lia)) as [_ Hhi2].
  destruct (Z.le_gt_cases (Zdigits2 m1) (Zdigits2 m2)) as [|Hgt]; [done|].
  exfalso. assert (2 ^ Zdigits2 m2 ≤ 2 ^ (Zdigits2 m1 - 1))
    by (apply Z.pow_le_mono_r; lia). lia.
Qed.

(** Digits after a right shift by [k] *)
Lemma Zdigits2_div_pow2 m k :
  0 < m → 0 ≤ k < Zdigits2 m → Zdigits2 (m / 2 ^ k) = Zdigits2 m - k.
Proof.
  intros Hm Hk. pose proof (Zdigits2_bounds m Hm) as [Hlo Hhi].
  assert (H2k : 0 < 2 ^ k) by (apply Z.pow_pos_nonneg; lia).
  apply Zdigits2_unique; [lia|]. split.
  - apply Z.div_le_lower_bound; [done|].
    rewrite <-Z.pow_add_r by lia. by replace (k + (Zdigits2 m - k - 1))
      with (Zdigits2 m - 1) by lia.
  - apply Z.div_lt_upper_bound; [done|].
    rewrite <-Z.pow_add_r by lia. by replace (k + (Zdigits2 m - k))
      with (Zdigits2 m) by lia.
Qed.

Lemma div_pow2_small m k : 0 ≤ m → Zdigits2 m ≤ k → m / 2 ^ k = 0.
Proof.
  intros Hm Hk. apply Z.div_small. split; [done|].
  destruct (Z.eq_dec m 0) as [->|]; [cbn in Hk; apply Z.pow_pos_nonneg; lia|].
  pose proof (Zdigits2_bounds m ltac:(lia)) as [_ Hhi].
  assert (2 ^ Zdigits2 m ≤ 2 ^ k)
    by (apply Z.pow_le_mono_r; [lia|done]). lia.
Qed.

Lemma Zdigits2_mul_pow2 m k :
  0 < m → 0 ≤ k → Zdigits2 (m * 2 ^ k) = Zdigits2 m + k.
Proof.
  intros Hm Hk. pose proof (Zdigits2_bounds m Hm) as [Hlo Hhi].
  pose proof (Zdigits2_pos m Hm).
  assert (H2k : 0 < 2 ^ k) by (apply Z.pow_pos_nonneg; lia).
  apply Zdigits2_unique; [lia|].
  replace (Zdigits2 m + k - 1) with ((Zdigits2 m - 1) + k) by lia.
  rewrite !Z.pow_add_r by lia. nia.
Qed.

(** ** Shifting a mantissa to the right *)

Lemma shr_1_spec mrs :
  0 ≤ shr_m mrs →
  shr_m (shr_1 mrs) = shr_m mrs / 2 ∧
  (shr_r mrs = false → shr_s mrs = false → shr_m mrs mod 2 = 0 →
   shr_r (shr_1 mrs) = false ∧ shr_s (shr_1 mrs) = false).
Proof.
  destruct mrs as [m r s]. cbn [shr_m shr_r shr_s]. intros Hm.
  destruct m as [|[p|p|]|p]; try lia; cbn [shr_1 shr_m shr_r shr_s].
  - split; [done|]. by intros -> ->.
  - split; [rewrite Pos2Z.inj_xI; apply (Z.div_unique _ _ _ 1); lia|].
    intros _ _ Hmod. rewrite Pos2Z.inj_xI in Hmod.
    rewrite Z.add_comm, Z.mul_comm, Z.mod_add in Hmod by lia. done.
  - split; [rewrite Pos2Z.inj_xO; apply (Z.div_unique _ _ _ 0); lia|].
    by intros -> ->.
  - split; [done|]. intros _ _ Hmod. done.
Qed.

Lemma shifted_nonneg k a b : 0 ≤ k → 0 ≤ shr_m a → shifted k a b → 0 ≤ shr_m b.
Proof.
  intros Hk Ha [-> _]. apply Z.div_pos; [done|]. by apply Z.pow_pos_nonneg.
Qed.

Lemma shifted_trans k1 k2 a b c :
  0 ≤ k1 → 0 ≤ k2 → 0 ≤ shr_m a →
  shifted k1 a b → shifted k2 b c → shifted (k1 + k2) a c.
Proof.
  intros Hk1 Hk2 Ha [Hb1 Hb2] [Hc1 Hc2].
  assert (H1 : 0 < 2 ^ k1) by (by apply Z.pow_pos_nonneg).
  assert (H2 : 0 < 2 ^ k2) by (by apply Z.pow_pos_nonneg).
  split.
  - rewrite Hc1, Hb1, Z.pow_add_r, Z.div_div by lia. done.
  - intros Hr Hs Hmod. rewrite Z.pow_add_r in Hmod by done.
    assert (Hm1 : shr_m a mod 2 ^ k1 = 0).
    { apply Z.mod_divide in Hmod; [|lia]. apply Z.mod_divide; [lia|].
      destruct Hmod as [q Hq]. exists (q * 2 ^ k2). lia. }
    destruct (Hb2 Hr Hs Hm1) as [Hrb Hsb]. apply Hc2; [done..|].
    rewrite Hb1. apply Z.mod_divide in Hmod; [|lia].
    apply Z.mod_divide; [lia|]. destruct Hmod as [q Hq]. exists q.
    rewrite Hq. replace (q * (2 ^ k1 * 2 ^ k2)) with (q * 2 ^ k2 * 2 ^ k1)
      by lia. by rewrite Z.div_mul by lia.
Qed.

Lemma iter_shr_1_shifted p mrs :
  0 ≤ shr_m mrs → shifted (Z.pos p) mrs (SpecFloat.iter_pos shr_1 p mrs).
Proof.
  revert mrs. induction p as [p IH|p IH|]; intros mrs Hm;
    cbn [SpecFloat.iter_pos].
  - assert (H1 : shifted 1 mrs (shr_1 mrs))
      by (unfold shifted; rewrite Z.pow_1_r; by apply shr_1_spec).
    pose proof (shifted_nonneg 1 _ _ ltac:(lia) Hm H1) as Hm1.
    pose proof (IH _ Hm1) as H2.
    pose proof (shifted_nonneg (Z.pos p) _ _ ltac:(lia) Hm1 H2) as Hm2.
    pose proof (IH _ Hm2) as H3.
    replace (Z.pos p~1) with (1 + Z.pos p + Z.pos p) by lia.
    eapply shifted_trans; [lia|lia|done| |exact H3].
    eapply shifted_trans; [lia|lia|done|exact H1|exact H2].
  - pose proof (IH _ Hm) as H2.
    pose proof (shifted_nonneg (Z.pos p) _ _ ltac:(lia) Hm H2) as Hm2.
    pose proof (IH _ Hm2) as H3.
    replace (Z.pos p~0) with (Z.pos p + Z.pos p) by lia.
    eapply shifted_trans; [lia|lia|done|exact H2|exact H3].
  - unfold shifted. rewrite Z.pow_1_r. by apply shr_1_spec.
Qed.

Lemma shr_fexp_spec m e l :
  0 ≤ m → e ≤ fexp prec emax (Zdigits2 m + e) →
  ∃ mrs', shr_fexp prec emax m e l = (mrs', fexp prec emax (Zdigits2 m + e)) ∧
    shr_m mrs' = m / 2 ^ (fexp prec emax (Zdigits2 m + e) - e) ∧
    (l = loc_Exact → m mod 2 ^ (fexp prec emax (Zdigits2 m + e) - e) = 0 →
     loc_of_shr_record mrs' = loc_Exact).
Proof.
  intros Hm Hpre. unfold shr_fexp, shr.
  set (k := fexp prec emax (Zdigits2 m + e) - e).
  assert (Hrec : shr_m (shr_record_of_loc m l) = m) by by destruct l as [|[]].
  destruct k as [|p|p] eqn:Hk; [| |lia].
  - exists (shr_record_of_loc m l). split; [f_equal; lia|].
    split; [by rewrite Hrec, Z.pow_0_r, Z.div_1_r|]. by intros -> _.
  - pose proof (iter_shr_1_shifted p (shr_record_of_loc m l) ltac:(lia))
      as [H1 H2].
    eexists. split; [f_equal; lia|]. split; [by rewrite H1, Hrec|].
    intros -> Hmod. cbn in H2. destruct (H2 eq_refl eq_refl Hmod) as [Hr Hs].
    destruct (SpecFloat.iter_pos _ _ _) as [m' r s]. cbn in Hr, Hs.
    by rewrite Hr, Hs.
Qed.

Lemma round_nearest_even_spec m l :
  (round_nearest_even m l = m ∨ round_nearest_even m l = m + 1) ∧
  (l = loc_Exact → round_nearest_even m l = m).
Proof.
  split.
  - destruct l as [|[]]; cbn [round_nearest_even];
      try (destruct (Z.even m)); auto.
  - by intros ->.
Qed.

(** ** Rounding *)

(** After the shift the mantissa is that of a canonical representation. *)
Lemma canonical_after_shift m e E m1 :
  0 ≤ m → E = fexp prec emax (Zdigits2 m + e) → e ≤ E →
  m1 = m / 2 ^ (E - e) →
  0 ≤ m1 ∧ (0 < m1 → fexp prec emax (Zdigits2 m1 + E) = E) ∧
  (m1 = 0 → E = -1074).
Proof.
  intros Hm HE Hpre Hm1def.
  assert (H2k : 0 < 2 ^ (E - e)) by (apply Z.pow_pos_nonneg; lia).
  assert (Hm1 : 0 ≤ m1) by (rewrite Hm1def; by apply Z.div_pos).
  split; [done|]. rewrite fexp_eq in HE.
  destruct (Z.eq_dec m 0) as [Hm0|Hm0].
  - assert (m1 = 0) as Hz by (rewrite Hm1def, Hm0; by rewrite Z.div_0_l by lia).
    split; [lia|]. intros _. rewrite Hm0 in HE. cbn [Zdigits2] in HE. lia.
  - destruct (Z.lt_ge_cases (E - e) (Zdigits2 m)) as [Hlt|Hge].
    + assert (Hd : Zdigits2 m1 = Zdigits2 m - (E - e))
        by (rewrite Hm1def; apply Zdigits2_div_pow2; lia).
      pose proof (Zdigits2_pos m ltac:(lia)).
      split.
      * intros _. rewrite Hd, fexp_eq. lia.
      * intros Hz. rewrite Hz in Hd. cbn in Hd. lia.
    + assert (m1 = 0) as Hz by (rewrite Hm1def; apply div_pow2_small; lia).
      split; [lia|]. intros _. lia.
Qed.

Lemma binary_round_aux_spec s m e l E m1 :
  0 ≤ m → E = fexp prec emax (Zdigits2 m + e) → e ≤ E →
  m1 = m / 2 ^ (E - e) →
  ∃ r, (r = m1 ∨ r = m1 + 1) ∧
       (l = loc_Exact → m mod 2 ^ (E - e) = 0 → r = m1) ∧
       round_result s r E (binary_round_aux prec emax s m e l).
Proof.
  intros Hm HE Hpre Hm1def.
  destruct (canonical_after_shift m e E m1 Hm HE Hpre Hm1def)
    as (Hm1 & Hcan & Hzero).
  destruct (shr_fexp_spec m e l Hm ltac:(by rewrite <-HE))
    as (mrs' & Heq & Hmrs & Hex).
  rewrite <-HE in Heq, Hmrs, Hex. rewrite <-Hm1def in Hmrs.
  unfold binary_round_aux. rewrite Heq, Hmrs.
  destruct (round_nearest_even_spec m1 (loc_of_shr_record mrs'))
    as [Hr Hrex].
  remember (round_nearest_even m1 (loc_of_shr_record mrs')) as r eqn:Hrdef.
  exists r. split; [done|]. split; [intros Hl Hmod; apply Hrex; auto|].
  clear Hrdef Hrex Hex Heq Hmrs mrs' Hm1def HE Hpre Hm m e l.
  assert (Hr0 : 0 ≤ r) by lia.
  (* the second shift *)
  assert (Hpre2 : E ≤ fexp prec emax (Zdigits2 r + E)).
  { destruct (Z.eq_dec m1 0) as [Hz|Hnz].
    - rewrite (Hzero Hz). rewrite fexp_eq. lia.
    - rewrite <-(Hcan ltac:(lia)) at 1. apply fexp_mono.
      pose proof (Zdigits2_le m1 r ltac:(lia) ltac:(lia)). lia. }
  destruct (shr_fexp_spec r E loc_Exact Hr0 Hpre2) as (mrs'' & Heq2 & Hmrs2 & _).
  rewrite Heq2, Hmrs2.
  remember (fexp prec emax (Zdigits2 r + E)) as E2 eqn:HE2.
  destruct (Z.eq_dec r 0) as [Hrz|Hrnz].
  { left. rewrite Hrz. rewrite Z.div_0_l
      by (pose proof (Z.pow_pos_nonneg 2 (E2 - E)); lia). done. }
  right. split; [lia|].
  pose proof (Zdigits2_pos r ltac:(lia)) as Hdr.
  pose proof (Zdigits2_bounds r ltac:(lia)) as [Hrlo Hrhi].
  (* the second shift is by at most one bit, and exact *)
  assert (Hk2 : (E2 = E) ∨ (E2 = E + 1 ∧ r = 2 ^ (Zdigits2 r - 1)
                            ∧ 1 < Zdigits2 r)).
  { destruct (Z.eq_dec m1 0) as [Hz|Hnz].
    - left. assert (r = 1) as Hr1 by lia. rewrite HE2, Hr1.
      cbn [Zdigits2 digits2_pos]. rewrite (Hzero Hz), fexp_eq. lia.
    - specialize (Hcan ltac:(lia)).
      pose proof (Zdigits2_pos m1 ltac:(lia)) as Hd1.
      pose proof (Zdigits2_bounds m1 ltac:(lia)) as [Hlo1 Hhi1].
      pose proof (Zdigits2_le m1 r ltac:(lia) ltac:(lia)) as Hle.
      assert (Hdle : Zdigits2 r ≤ Zdigits2 m1 + 1).
      { destruct (Z.le_gt_cases (Zdigits2 r) (Zdigits2 m1 + 1)); [done|].
        exfalso. assert (2 ^ (Zdigits2 m1 + 1) ≤ 2 ^ (Zdigits2 r - 1))
          by (apply Z.pow_le_mono_r; lia).
        rewrite Z.pow_add_r in * by lia. lia. }
      destruct (Z.eq_dec (Zdigits2 r) (Zdigits2 m1)) as [Hsame|Hdiff].
      + left. by rewrite HE2, Hsame.
      + assert (Hd : Zdigits2 r = Zdigits2 m1 + 1) by lia.
        assert (Hrpow : r = 2 ^ (Zdigits2 r - 1)).
        { rewrite Hd in Hrlo |- *.
          replace (Zdigits2 m1 + 1 - 1) with (Zdigits2 m1) in * by lia. lia. }
        rewrite HE2, Hd. rewrite fexp_eq in Hcan |- *.
        destruct (Z.eq_dec (Z.max (Zdigits2 m1 + 1 + E - 53) (-1074)) E);
          [by left|right]. split_and!; [lia|by rewrite <-Hd|lia]. }
  assert (H2k2 : 0 < 2 ^ (E2 - E)) by (apply Z.pow_pos_nonneg; lia).
  assert (Hexact : r / 2 ^ (E2 - E) * 2 ^ (E2 - E) = r
                   ∧ Zdigits2 (r / 2 ^ (E2 - E)) = Zdigits2 r - (E2 - E)
                   ∧ 0 < r / 2 ^ (E2 - E)).
  { destruct Hk2 as [->|(-> & Hrpow & Hd1)].
    - rewrite Z.sub_diag, Z.pow_0_r, Z.div_1_r. lia.
    - replace (E + 1 - E) with 1 by lia. rewrite Z.pow_1_r.
      assert (Hr2 : r = 2 ^ (Zdigits2 r - 2) * 2).
      { rewrite Hrpow at 1. replace (Zdigits2 r - 1)
          with (Zdigits2 r - 2 + 1) by lia. by rewrite Z.pow_add_r by lia. }
      assert (Hq : r / 2 = 2 ^ (Zdigits2 r - 2))
        by (rewrite Hr2 at 1; by rewrite Z.div_mul by lia).
      pose proof (Z.pow_pos_nonneg 2 (Zdigits2 r - 2) ltac:(lia) ltac:(lia)).
      split_and!; [lia| |lia].
      rewrite <-(Z.pow_1_r 2) at 1. apply Zdigits2_div_pow2; lia. }
  destruct Hexact as (Hmul & Hdig & Hpos).
  destruct (r / 2 ^ (E2 - E)) as [|m2|m2] eqn:Hm2; [lia| |lia].
  exists m2, E2. split; [destruct Hk2 as [->|[-> _]]; lia|].
  split; [done|]. split.
  - unfold canonical_mantissa. apply Z.eqb_eq.
    change (Z.pos (digits2_pos m2)) with (Zdigits2 (Z.pos m2)).
    rewrite Hdig, HE2. f_equal. lia.
  - change (emax - prec) with 971.
    destruct (Z.leb_spec E2 971); [left|right]; done.
Qed.

(** ** Values *)

Local Open Scope Q_scope.

Lemma pow2_pos e : 0 < 2 ^ e.
Proof. by apply Qpower_0_lt. Qed.

Lemma pow2_add a b : 2 ^ (a + b) == 2 ^ a * 2 ^ b.
Proof. by apply Qpower_plus. Qed.

Lemma pow2_Z k : (0 ≤ k)%Z → inject_Z (2 ^ k) == 2 ^ k.
Proof. intros Hk. by rewrite Zpower_Qpower. Qed.

Lemma pow2_le a b : (a ≤ b)%Z → 2 ^ a <= 2 ^ b.
Proof. intros. by apply Qpower_le_compat_l. Qed.

Lemma F2Q_le m m' e : (m ≤ m')%Z → F2Q m e <= F2Q m' e.
Proof.
  intros H. unfold F2Q. apply Qmult_le_compat_r; [by rewrite <-Zle_Qle|].
  apply Qlt_le_weak, pow2_pos.
Qed.

Lemma F2Q_lt m m' e : (m < m')%Z → F2Q m e < F2Q m' e.
Proof.
  intros H. unfold F2Q. apply Qmult_lt_compat_r; [apply pow2_pos|].
  by rewrite <-Zlt_Qlt.
Qed.

Lemma F2Q_le_inv m m' e : F2Q m e <= F2Q m' e → (m ≤ m')%Z.
Proof.
  intros H. destruct (Z.le_gt_cases m m') as [|Hgt]; [done|].
  apply (F2Q_lt _ _ e) in Hgt. lra.
Qed.

Lemma F2Q_lt_inv m m' e : F2Q m e < F2Q m' e → (m < m')%Z.
Proof.
  intros H. destruct (Z.lt_ge_cases m m') as [|Hge]; [done|].
  apply (F2Q_le _ _ e) in Hge. lra.
Qed.

(** The same value at a lower exponent. *)
Lemma F2Q_align m e e' : (e ≤ e')%Z → F2Q m e' == F2Q (m * 2 ^ (e' - e)) e.
Proof.
  intros H. unfold F2Q. rewrite inject_Z_mult, pow2_Z by lia.
  replace e' with ((e' - e) + e)%Z at 1 by lia. rewrite pow2_add. ring.
Qed.

Lemma F2Q_0 e : F2Q 0 e == 0.
Proof. unfold F2Q. ring. Qed.

Lemma F2Q_pos m e : (0 < m)%Z → 0 < F2Q m e.
Proof. intros H. rewrite <-(F2Q_0 e). by apply F2Q_lt. Qed.

Lemma F2Q_digits m e :
  (0 < m)%Z → 2 ^ (Zdigits2 m + e - 1) <= F2Q m e ∧ F2Q m e < 2 ^ (Zdigits2 m + e).
Proof.
  intros Hm. pose proof (Zdigits2_bounds m Hm) as [Hlo Hhi].
  pose proof (Zdigits2_pos m Hm) as Hd. pose proof (pow2_pos e) as He.
  unfold F2Q. split.
  - replace (Zdigits2 m + e - 1)%Z with ((Zdigits2 m - 1) + e)%Z by lia.
    rewrite pow2_add, <-(pow2_Z (Zdigits2 m - 1)) by lia.
    apply Qmult_le_compat_r; [by rewrite <-Zle_Qle|lra].
  - rewrite pow2_add, <-(pow2_Z (Zdigits2 m)) by lia.
    apply Qmult_lt_compat_r; [done|by rewrite <-Zlt_Qlt].
Qed.

(** Shifting right rounds down. *)
Lemma F2Q_shift_bracket m e k :
  (0 ≤ m)%Z → (0 ≤ k)%Z →
  F2Q (m / 2 ^ k) (e + k) <= F2Q m e ∧
  F2Q (m + 1) e <= F2Q (m / 2 ^ k + 1) (e + k).
Proof.
  intros Hm Hk.
  assert (H2k : (0 < 2 ^ k)%Z) by (by apply Z.pow_pos_nonneg).
  pose proof (Z.div_mod m (2 ^ k) ltac:(lia)) as Hdm.
  pose proof (Z.mod_pos_bound m (2 ^ k) H2k) as Hmod.
  rewrite !(F2Q_align _ e (e + k)) by lia.
  replace (e + k - e)%Z with k by lia.
  split; apply F2Q_le; lia.
Qed.

(** An exact shift. *)
Lemma F2Q_shift_exact m e k :
  (0 ≤ m)%Z → (0 ≤ k)%Z → F2Q (m / 2 ^ k) (e + k) == F2Q m e →
  (m mod 2 ^ k = 0)%Z.
Proof.
  intros Hm Hk Heq.
  assert (H2k : (0 < 2 ^ k)%Z) by (by apply Z.pow_pos_nonneg).
  pose proof (Z.div_mod m (2 ^ k) ltac:(lia)) as Hdm.
  rewrite (F2Q_align _ e (e + k)) in Heq by lia.
  replace (e + k - e)%Z with k in Heq by lia.
  assert (H1 : (m / 2 ^ k * 2 ^ k ≤ m)%Z) by (apply F2Q_le_inv with e; lra).
  assert (H2 : (m ≤ m / 2 ^ k * 2 ^ k)%Z) by (apply F2Q_le_inv with e; lra).
  lia.
Qed.

(** ** Canonical representations *)

Lemma canonical_mantissa_canonical m e :
  canonical_mantissa prec emax m e = true ↔ canonical (Z.pos m) e.
Proof.
  unfold canonical_mantissa, canonical. rewrite Z.eqb_eq. cbn [Zdigits2].
  intuition lia.
Qed.

(** A smaller exponent means a smaller value. *)
Lemma canonical_lt_exp m e m' e' :
  canonical m e → canonical m' e' → (e < e')%Z → F2Q m e < F2Q m' e'.
Proof.
  intros [Hm He] [Hm' He'] Hlt.
  assert (Hd : (Zdigits2 m + e < Zdigits2 m' + e')%Z).
  { destruct (Z.lt_ge_cases (Zdigits2 m + e) (Zdigits2 m' + e')); [done|].
    pose proof (fexp_mono (Zdigits2 m' + e') (Zdigits2 m + e)). lia. }
  pose proof (F2Q_digits m e Hm) as [_ Hhi].
  pose proof (F2Q_digits m' e' Hm') as [Hlo _].
  pose proof (pow2_le (Zdigits2 m + e) (Zdigits2 m' + e' - 1) ltac:(lia)).
  lra.
Qed.

(** No canonical value lies strictly between two neighbours of the grid
    that rounding uses. *)
Lemma no_canonical_between m1 E mf ef :
  (0 ≤ m1)%Z →
  ((0 < m1)%Z → fexp prec emax (Zdigits2 m1 + E) = E) →
  (m1 = 0%Z → E = (-1074)%Z) →
  canonical mf ef →
  F2Q m1 E < F2Q mf ef → F2Q mf ef < F2Q (m1 + 1) E → False.
Proof.
  intros Hm1 Hcan Hzero [Hmf Hef] Hlo Hhi.
  destruct (Z.le_gt_cases E ef) as [Hle|Hgt].
  - rewrite (F2Q_align mf E ef Hle) in Hlo, Hhi.
    apply F2Q_lt_inv in Hlo, Hhi. lia.
  - destruct (Z.eq_dec m1 0%Z) as [Hz|Hnz].
    + rewrite (Hzero Hz) in Hgt. rewrite fexp_eq in Hef. lia.
    + assert (canonical m1 E) as Hc1 by (split; [lia|apply Hcan; lia]).
      pose proof (canonical_lt_exp mf ef m1 E (conj Hmf Hef) Hc1 Hgt). lra.
Qed.

(** ** Well-formed binary64 values that are not negative *)

Lemma bounded_canonical m e :
  bounded prec emax m e = true ↔ canonical (Z.pos m) e ∧ (e ≤ 971)%Z.
Proof.
  unfold bounded. rewrite andb_true_iff, canonical_mantissa_canonical.
  change (emax - prec)%Z with 971%Z. by rewrite Z.leb_le.
Qed.

Lemma to_Q_nonneg x : finite_nonneg x → 0 <= to_Q x.
Proof.
  destruct x as [| | |[] m e]; cbn; try done; intros _.
  apply Qlt_le_weak, F2Q_pos. lia.
Qed.

Lemma leb_zero_l x : finite_nonneg x → SFleb (S754_zero false) x = true.
Proof. by destruct x as [| | |[] m e]. Qed.

Lemma leb_inf_r x : nonneg x → SFleb x (S754_infinity false) = true.
Proof. by intros [Hx| ->]; [destruct x as [| | |[] m e]|]. Qed.

Lemma leb_inf_l x : finite_nonneg x → SFleb (S754_infinity false) x = false.
Proof. by destruct x as [| | |[] m e]. Qed.

(** On well-formed values the comparison of the code is that of the
    values. *)
Lemma leb_finite_nonneg x y :
  finite_nonneg x → finite_nonneg y → (SFleb x y = true ↔ to_Q x <= to_Q y).
Proof.
  destruct x as [sx| | |[] mx ex], y as [sy| | |[] my ey]; try done;
    cbn [finite_nonneg to_Q]; intros Hx Hy.
  - split; [intros _|done]. apply Qlt_le_weak, F2Q_pos. lia.
  - split; [done|]. pose proof (F2Q_pos (Z.pos mx) ex ltac:(lia)). lra.
  - apply bounded_canonical in Hx as [Hcx _], Hy as [Hcy _].
    unfold SFleb, SFcompare.
    destruct (Z.compare_spec ex ey) as [->|Hlt|Hgt].
    + rewrite Pos.compare_cont_spec. cbn [Pos.switch_Eq].
      destruct (Pos.compare_spec mx my) as [->|Hm|Hm].
      * split; [intros _; lra|done].
      * split; [intros _|done]. apply F2Q_le. lia.
      * split; [done|]. intros H%F2Q_le_inv. lia.
    + split; [intros _|done].
      apply Qlt_le_weak. by apply canonical_lt_exp.
    + split; [done|].
      pose proof (canonical_lt_exp _ _ _ _ Hcy Hcx Hgt). lra.
Qed.

(** ** What rounding guarantees: the result is well formed and is on the
    same side as [x] of every well-formed value. *)
Lemma binary_round_aux_value m e l (x : Q) :
  (0 ≤ m)%Z → (e ≤ fexp prec emax (Zdigits2 m + e))%Z →
  F2Q m e <= x → x < F2Q (m + 1) e →
  (x == F2Q m e → l = loc_Exact) →
  nonneg (binary_round_aux prec emax false m e l) ∧
  (∀ f, finite_nonneg f → to_Q f <= x →
     SFleb f (binary_round_aux prec emax false m e l) = true) ∧
  (∀ f, finite_nonneg f → x <= to_Q f →
     finite_nonneg (binary_round_aux prec emax false m e l) ∧
     SFleb (binary_round_aux prec emax false m e l) f = true).
Proof.
  intros Hm Hpre Hlo Hhi Hex.
  remember (fexp prec emax (Zdigits2 m + e)) as E eqn:HE.
  remember (m / 2 ^ (E - e))%Z as m1 eqn:Hm1.
  destruct (canonical_after_shift m e E m1 Hm HE Hpre Hm1)
    as (Hm1nn & Hcan & Hzero).
  destruct (binary_round_aux_spec false m e l E m1 Hm HE Hpre Hm1)
    as (r & Hr & Hrex & HR).
  destruct (F2Q_shift_bracket m e (E - e) Hm ltac:(lia)) as [Hb1 Hb2].
  replace (e + (E - e))%Z with E in Hb1, Hb2 by lia.
  rewrite <-Hm1 in Hb1, Hb2.
  assert (Hexact : x == F2Q m1 E → r = m1).
  { intros Hx. apply Hrex.
    - apply Hex. lra.
    - apply (F2Q_shift_exact m e (E - e) Hm ltac:(lia)).
      replace (e + (E - e))%Z with E by lia. rewrite <-Hm1. lra. }
  assert (Hbelow : ∀ f, finite_nonneg f → to_Q f <= x → to_Q f <= F2Q m1 E).
  { intros f Hf Hfx. destruct f as [| | |[] mf ef]; try done; cbn [to_Q] in *.
    - rewrite <-(F2Q_0 E). by apply F2Q_le.
    - apply bounded_canonical in Hf as [Hcf _].
      destruct (Qlt_le_dec (F2Q m1 E) (F2Q (Z.pos mf) ef)) as [Hgt|]; [|done].
      exfalso. apply (no_canonical_between m1 E (Z.pos mf) ef); try done. lra. }
  assert (Habove : ∀ f, finite_nonneg f → x <= to_Q f → F2Q r E <= to_Q f).
  { intros f Hf Hfx. destruct f as [| | |[] mf ef]; try done; cbn [to_Q] in *.
    - assert (m1 ≤ 0)%Z
        by (apply F2Q_le_inv with E; rewrite F2Q_0; lra).
      assert (m1 = 0%Z) as Hz by lia. rewrite Hz in *.
      rewrite Hexact by (rewrite F2Q_0 in *; lra). rewrite F2Q_0. lra.
    - apply bounded_canonical in Hf as [Hcf _].
      destruct (Qlt_le_dec (F2Q m1 E) (F2Q (Z.pos mf) ef)) as [Hgt|Hle].
      + destruct (Qlt_le_dec (F2Q (Z.pos mf) ef) (F2Q (m1 + 1) E))
          as [Hlt|Hge].
        * exfalso.
          by apply (no_canonical_between m1 E (Z.pos mf) ef).
        * assert (F2Q r E <= F2Q (m1 + 1) E) by (apply F2Q_le; lia). lra.
      + rewrite Hexact by lra. lra. }
  assert (Hrm1 : F2Q m1 E <= F2Q r E) by (apply F2Q_le; lia).
  destruct HR as [[Hr0 ->]|(Hrpos & m2 & e2 & HEe2 & Hm2 & Hc2 & HRes)].
  - split; [by left|]. split.
    + intros f Hf Hfx. apply leb_finite_nonneg; [done..|].
      cbn [to_Q]. pose proof (Hbelow f Hf Hfx) as Hb.
      assert (m1 = 0%Z) as Hz by lia. rewrite Hz, F2Q_0 in Hb. done.
    + intros f Hf Hfx. split; [done|]. by apply leb_zero_l.
  - assert (Hv : F2Q (Z.pos m2) e2 == F2Q r E)
      by (rewrite (F2Q_align _ E e2 HEe2); by rewrite Hm2).
    apply canonical_mantissa_canonical in Hc2.
    destruct HRes as [[He2 ->]|[He2 ->]].
    + assert (HfR : finite_nonneg (S754_finite false m2 e2))
        by (by apply bounded_canonical).
      split; [by left|]. split.
      * intros f Hf Hfx. apply leb_finite_nonneg; [done..|].
        cbn [to_Q]. pose proof (Hbelow f Hf Hfx). lra.
      * intros f Hf Hfx. split; [done|]. apply leb_finite_nonneg; [done..|].
        cbn [to_Q]. pose proof (Habove f Hf Hfx). lra.
    + split; [by right|]. split.
      * intros f Hf _. apply leb_inf_r. by left.
      * intros f Hf Hfx. exfalso. pose proof (Habove f Hf Hfx) as Ha.
        destruct f as [| | |[] mf ef]; try done; cbn [to_Q] in *.
        -- pose proof (F2Q_pos r E Hrpos). lra.
        -- apply bounded_canonical in Hf as [Hcf Hef].
           pose proof (canonical_lt_exp _ _ _ _ Hcf Hc2 ltac:(lia)). lra.
Qed.

(** ** The operations on well-formed values *)

Lemma shl_align_spec mx ex ex' :
  ∃ m' e', shl_align mx ex ex' = (m', e') ∧ e' = Z.min ex ex' ∧
           (Z.pos m' = Z.pos mx * 2 ^ (ex - e'))%Z.
Proof.
  unfold shl_align. destruct (ex' - ex)%Z as [|d|d] eqn:Hd.
  - exists mx, ex. split_and!; [done|lia|].
    rewrite Z.sub_diag, Z.pow_0_r. lia.
  - exists mx, ex. split_and!; [done|lia|].
    rewrite Z.sub_diag, Z.pow_0_r. lia.
  - exists (Pos.iter xO mx d), ex'. split_and!; [done|lia|].
    change (Pos.iter xO mx d) with (shift_pos d mx).
    rewrite shift_pos_correct. replace (ex - ex')%Z with (Z.pos d) by lia.
    change (Z.pow_pos 2 d) with (2 ^ Z.pos d)%Z. lia.
Qed.

Lemma shl_align_value mx ex ex' m' e' :
  shl_align mx ex ex' = (m', e') →
  e' = Z.min ex ex' ∧ F2Q (Z.pos m') e' == F2Q (Z.pos mx) ex.
Proof.
  intros Heq. destruct (shl_align_spec mx ex ex') as (m & e & Heq' & He & Hm).
  rewrite Heq in Heq'. injection Heq' as -> ->. split; [done|].
  rewrite Hm. symmetry. apply F2Q_align. lia.
Qed.

(** Rounding an exact value [M * 2^e]. *)
Lemma binary_round_value M e :
  nonneg (binary_round prec emax false M e) ∧
  (∀ f, finite_nonneg f → to_Q f <= F2Q (Z.pos M) e →
     SFleb f (binary_round prec emax false M e) = true) ∧
  (∀ f, finite_nonneg f → F2Q (Z.pos M) e <= to_Q f →
     finite_nonneg (binary_round prec emax false M e) ∧
     SFleb (binary_round prec emax false M e) f = true).
Proof.
  unfold binary_round.
  destruct (shl_align_spec M e (fexp prec emax (Z.pos (digits2_pos M) + e)))
    as (mz & ez & Heq & Hez & Hmz).
  rewrite Heq.
  assert (Hv : F2Q (Z.pos mz) ez == F2Q (Z.pos M) e)
    by (rewrite Hmz; symmetry; apply F2Q_align; lia).
  assert (Hd : (Zdigits2 (Z.pos mz) + ez = Z.pos (digits2_pos M) + e)%Z).
  { rewrite Hmz, Zdigits2_mul_pow2 by lia. cbn [Zdigits2]. lia. }
  destruct (binary_round_aux_value (Z.pos mz) ez loc_Exact (F2Q (Z.pos mz) ez))
    as (Hnonneg & Hbelow & Habove); [lia|rewrite Hd; lia|lra| |done|].
  { apply F2Q_lt. lia. }
  split; [done|]. split.
  - intros f Hf Hle. apply Hbelow; [done|]. lra.
  - intros f Hf Hle. apply Habove; [done|]. lra.
Qed.

Lemma finite_nonneg_nonneg x : finite_nonneg x → nonneg x.
Proof. by left. Qed.

Lemma leb_refl_nonneg x : nonneg x → SFleb x x = true.
Proof.
  intros [Hx| ->]; [|done]. apply leb_finite_nonneg; [done..|]. lra.
Qed.

Lemma leb_trans_nonneg x y z :
  nonneg x → nonneg y → nonneg z →
  SFleb x y = true → SFleb y z = true → SFleb x z = true.
Proof.
  intros [Hx| ->] [Hy| ->] [Hz| ->] Hxy Hyz;
    try (by apply leb_inf_r; auto using finite_nonneg_nonneg);
    try (by rewrite leb_inf_l in * by done); try done.
  apply leb_finite_nonneg in Hxy, Hyz; try done.
  apply leb_finite_nonneg; [done..|]. lra.
Qed.

(** Addition: the sum is well formed and not below either operand. *)
Lemma add_nonneg x y :
  nonneg x → nonneg y →
  nonneg (add x y) ∧ SFleb x (add x y) = true ∧ SFleb y (add x y) = true.
Proof.
  intros [Hx| ->] [Hy| ->].
  - destruct x as [sx| | |[] mx ex], y as [sy| | |[] my ey]; try done.
    + split; [left; by destruct sx, sy|]. by destruct sx, sy.
    + split; [by left|]. split; [done|]. by apply leb_refl_nonneg; left.
    + split; [by left|]. split; [|done]. by apply leb_refl_nonneg; left.
    + unfold add, SFadd. cbn [cond_Zopp].
      destruct (shl_align_spec mx ex (Z.min ex ey)) as (mx' & ex' & Hex & Hex' & Hmx).
      destruct (shl_align_spec my ey (Z.min ex ey)) as (my' & ey' & Hey & Hey' & Hmy).
      rewrite Hex, Hey. cbn [fst binary_normalize Z.add].
      assert (ex' = Z.min ex ey) as -> by lia.
      assert (ey' = Z.min ex ey) as -> by lia.
      assert (Hvx : F2Q (Z.pos mx') (Z.min ex ey) == F2Q (Z.pos mx) ex)
        by (rewrite Hmx; symmetry; apply F2Q_align; lia).
      assert (Hvy : F2Q (Z.pos my') (Z.min ex ey) == F2Q (Z.pos my) ey)
        by (rewrite Hmy; symmetry; apply F2Q_align; lia).
      assert (Hsum : F2Q (Z.pos (mx' + my')) (Z.min ex ey)
                     == F2Q (Z.pos mx) ex + F2Q (Z.pos my) ey).
      { rewrite <-Hvx, <-Hvy. unfold F2Q. rewrite Pos2Z.inj_add, inject_Z_plus.
        ring. }
      destruct (binary_round_value (mx' + my') (Z.min ex ey))
        as (Hnonneg & Hbelow & _).
      split; [done|].
      pose proof (F2Q_pos (Z.pos mx) ex ltac:(lia)).
      pose proof (F2Q_pos (Z.pos my) ey ltac:(lia)).
      split; apply Hbelow; try done; cbn [to_Q]; lra.
  - destruct x as [sx| | |[] mx ex]; try done;
      (split; [by right|]; split; [done|done]).
  - destruct y as [sy| | |[] my ey]; try done;
      (split; [by right|]; split; [done|done]).
  - split; [by right|]. done.
Qed.

(** Subtraction of a smaller value: the difference is well formed. *)
Lemma sub_nonneg a c :
  nonneg a → finite_nonneg c → SFleb c a = true → nonneg (sub a c).
Proof.
  intros [Ha| ->] Hc Hle.
  - pose proof (proj1 (leb_finite_nonneg c a Hc Ha) Hle) as Hv.
    destruct a as [sa| | |[] ma ea], c as [sc| | |[] mc ec]; try done.
    + left. by destruct sa, sc.
    + by left.
    + cbn [to_Q] in Hv. unfold sub, SFsub. cbn [cond_Zopp].
      destruct (shl_align_spec ma ea (Z.min ea ec))
        as (ma' & ea' & Hea & Hea' & Hma).
      destruct (shl_align_spec mc ec (Z.min ea ec))
        as (mc' & ec' & Hec & Hec' & Hmc).
      rewrite Hea, Hec. cbn [fst].
      assert (ea' = Z.min ea ec) as -> by lia.
      assert (ec' = Z.min ea ec) as -> by lia.
      assert (Hva : F2Q (Z.pos ma') (Z.min ea ec) == F2Q (Z.pos ma) ea)
        by (rewrite Hma; symmetry; apply F2Q_align; lia).
      assert (Hvc : F2Q (Z.pos mc') (Z.min ea ec) == F2Q (Z.pos mc) ec)
        by (rewrite Hmc; symmetry; apply F2Q_align; lia).
      assert (Hge : (Z.pos mc' ≤ Z.pos ma')%Z)
        by (apply F2Q_le_inv with (Z.min ea ec); lra).
      destruct (Z.pos ma' - Z.pos mc')%Z as [|M|M] eqn:HM; [|..|lia].
      * by left.
      * cbn [binary_normalize]. apply binary_round_value.
  - destruct c as [sc| | |[] mc ec]; try done; by right.
Qed.

Lemma one_nonneg : finite_nonneg one.
Proof. by vm_compute. Qed.

Lemma to_Q_one : to_Q one == 1.
Proof. by vm_compute. Qed.

Lemma canonical_digits m e :
  canonical m e →
  (Zdigits2 m ≤ 53 ∧ (Zdigits2 m = 53 ∨ e = -1074) ∧ -1074 ≤ e)%Z.
Proof. intros [Hm He]. rewrite fexp_eq in He. lia. Qed.

Lemma Zdigits2_mul m1 m2 :
  (0 < m1 → 0 < m2 → Zdigits2 m1 + Zdigits2 m2 - 1 ≤ Zdigits2 (m1 * m2))%Z.
Proof.
  intros H1 H2.
  pose proof (Zdigits2_bounds m1 H1) as [Hlo1 _].
  pose proof (Zdigits2_bounds m2 H2) as [Hlo2 _].
  pose proof (Zdigits2_pos m1 H1). pose proof (Zdigits2_pos m2 H2).
  assert (Hp : (0 < 2 ^ (Zdigits2 m1 - 1) * 2 ^ (Zdigits2 m2 - 1))%Z)
    by (apply Z.mul_pos_pos; apply Z.pow_pos_nonneg; lia).
  assert (Hd : Zdigits2 (2 ^ (Zdigits2 m1 - 1) * 2 ^ (Zdigits2 m2 - 1))
               = (Zdigits2 m1 + Zdigits2 m2 - 1)%Z).
  { apply Zdigits2_unique; [lia|]. rewrite <-Z.pow_add_r by lia.
    replace (Zdigits2 m1 - 1 + (Zdigits2 m2 - 1))%Z
      with (Zdigits2 m1 + Zdigits2 m2 - 1 - 1)%Z by lia.
    split; [lia|]. apply Z.pow_lt_mono_r; lia. }
  rewrite <-Hd. apply Zdigits2_le; [done|]. nia.
Qed.

(** A product that is at most 1 rounds into [0, 1]. *)
Lemma mul_unit w n :
  finite_nonneg w → finite_nonneg n → to_Q w * to_Q n <= 1 →
  finite_nonneg (mul w n) ∧
  SFleb zero (mul w n) = true ∧ SFleb (mul w n) one = true.
Proof.
  intros Hw Hn Hle.
  destruct w as [sw| | |[] mw ew], n as [sn| | |[] mn en]; try done.
  - apply bounded_canonical in Hw as [Hcw _], Hn as [Hcn _].
    cbn [to_Q] in Hle. unfold mul, SFmul. cbn [xorb].
    pose proof (canonical_digits _ _ Hcw) as Hdw.
    pose proof (canonical_digits _ _ Hcn) as Hdn.
    pose proof (Zdigits2_mul (Z.pos mw) (Z.pos mn) ltac:(lia) ltac:(lia)) as Hd.
    pose proof (Zdigits2_pos (Z.pos mw) ltac:(lia)).
    pose proof (Zdigits2_pos (Z.pos mn) ltac:(lia)).
    assert (Hv : F2Q (Z.pos (mw * mn)) (ew + en)
                 == F2Q (Z.pos mw) ew * F2Q (Z.pos mn) en).
    { unfold F2Q. rewrite Pos2Z.inj_mul, inject_Z_mult, pow2_add. ring. }
    destruct (binary_round_aux_value (Z.pos (mw * mn)) (ew + en) loc_Exact
                (F2Q (Z.pos (mw * mn)) (ew + en)))
      as (Hnonneg & _ & Habove); [lia| |lra| |done|].
    { rewrite Pos2Z.inj_mul, fexp_eq. lia. }
    { apply F2Q_lt. lia. }
    destruct (Habove one one_nonneg) as [HfR HR1];
      [rewrite to_Q_one; lra|].
    split; [done|]. split; [by apply leb_zero_l|done].
Qed.

(** ** Division *)

Lemma F2Q_mul a e1 b e2 : F2Q a e1 * F2Q b e2 == F2Q (a * b) (e1 + e2).
Proof. unfold F2Q. rewrite inject_Z_mult, pow2_add. ring. Qed.

Lemma new_location_exact m2 : new_location m2 0 = loc_Exact.
Proof.
  unfold new_location, new_location_even, new_location_odd.
  by destruct (Z.even m2).
Qed.

Lemma Zdigits2_pow2 k : (0 ≤ k)%Z → Zdigits2 (2 ^ k) = (k + 1)%Z.
Proof.
  intros Hk. apply Zdigits2_unique; [lia|].
  replace (k + 1 - 1)%Z with k by lia. split; [lia|].
  apply Z.pow_lt_mono_r; lia.
Qed.

Lemma Zdigits2_div m m2 :
  (0 < m2 ≤ m → Zdigits2 m - Zdigits2 m2 ≤ Zdigits2 (m / m2))%Z.
Proof.
  intros [Hm2 Hle].
  pose proof (Zdigits2_bounds m ltac:(lia)) as [Hlo _].
  pose proof (Zdigits2_bounds m2 Hm2) as [_ Hhi2].
  pose proof (Zdigits2_pos m2 Hm2) as Hd2.
  assert (Hq : (1 ≤ m / m2)%Z)
    by (apply Z.div_le_lower_bound; lia).
  pose proof (Zdigits2_pos (m / m2) ltac:(lia)) as Hdq.
  destruct (Z.le_gt_cases (Zdigits2 m - Zdigits2 m2) 1) as [|Hbig]; [lia|].
  assert (H2 : (2 ^ (Zdigits2 m - 1 - Zdigits2 m2) ≤ m / m2)%Z).
  { apply Z.div_le_lower_bound; [done|].
    transitivity (2 ^ Zdigits2 m2 * 2 ^ (Zdigits2 m - 1 - Zdigits2 m2))%Z.
    - apply Z.mul_le_mono_nonneg_r; [apply Z.pow_nonneg|]; lia.
    - rewrite <-Z.pow_add_r by lia.
      by replace (Zdigits2 m2 + (Zdigits2 m - 1 - Zdigits2 m2))%Z
        with (Zdigits2 m - 1)%Z by lia. }
  assert (Hpos : (0 < 2 ^ (Zdigits2 m - 1 - Zdigits2 m2))%Z)
    by (apply Z.pow_pos_nonneg; lia).
  pose proof (Zdigits2_le _ _ Hpos H2) as Hd.
  rewrite Zdigits2_pow2 in Hd by lia. lia.
Qed.

Lemma div_core_spec mx ex my ey :
  ∃ q e' l,
    SFdiv_core_binary prec emax (Z.pos mx) ex (Z.pos my) ey = (q, e', l) ∧
    (0 ≤ q)%Z ∧ (e' ≤ fexp prec emax (Zdigits2 q + e'))%Z ∧
    F2Q q e' <= F2Q (Z.pos mx) ex / F2Q (Z.pos my) ey ∧
    F2Q (Z.pos mx) ex / F2Q (Z.pos my) ey < F2Q (q + 1) e' ∧
    (F2Q (Z.pos mx) ex / F2Q (Z.pos my) ey == F2Q q e' → l = loc_Exact).
Proof.
  unfold SFdiv_core_binary.
  set (d1 := Zdigits2 (Z.pos mx)). set (d2 := Zdigits2 (Z.pos my)).
  remember (Z.min (fexp prec emax (d1 + ex - (d2 + ey))) (ex - ey)) as e'
    eqn:He'.
  remember (ex - ey - e')%Z as s eqn:Hs.
  assert (Hs0 : (0 ≤ s)%Z) by lia.
  remember (match s with
            | 0%Z => Z.pos mx
            | Z.pos _ => Z.shiftl (Z.pos mx) s
            | Z.neg _ => 0%Z
            end) as m' eqn:Hm'.
  assert (Hm'eq : m' = (Z.pos mx * 2 ^ s)%Z).
  { rewrite Hm'. destruct s as [|p|p]; [rewrite Z.pow_0_r; lia| |lia].
    by rewrite Z.shiftl_mul_pow2. }
  assert (H2s : (0 < 2 ^ s)%Z) by (by apply Z.pow_pos_nonneg).
  pose proof (Z_div_mod m' (Z.pos my) ltac:(lia)) as Hdm.
  destruct (Z.div_eucl m' (Z.pos my)) as [q r]. destruct Hdm as [Hdm Hr].
  assert (Hq0 : (0 ≤ q)%Z) by nia.
  exists q, e', (new_location (Z.pos my) r).
  pose proof (F2Q_pos (Z.pos my) ey ltac:(lia)) as HB.
  assert (HA : F2Q (Z.pos mx) ex == F2Q m' (e' + ey)).
  { rewrite (F2Q_align (Z.pos mx) (e' + ey) ex) by lia.
    rewrite Hm'eq. by replace (ex - (e' + ey))%Z with s by lia. }
  split; [done|]. split; [done|]. split; [|split; [|split]].
  - (* the quotient has enough digits *)
    rewrite fexp_eq. rewrite fexp_eq in He'.
    destruct (Z.eq_dec q 0%Z) as [->|Hqnz].
    + cbn [Zdigits2].
      assert (Hlt : (m' < Z.pos my)%Z) by lia.
      assert (Hdle : (Zdigits2 m' ≤ d2)%Z)
        by (apply Zdigits2_le; lia).
      rewrite Hm'eq, Zdigits2_mul_pow2 in Hdle by lia. fold d1 in Hdle. lia.
    + assert (Hge : (Z.pos my ≤ m')%Z) by nia.
      pose proof (Zdigits2_div m' (Z.pos my) ltac:(lia)) as Hd.
      assert (Hqeq : q = (m' / Z.pos my)%Z)
        by (apply (Z.div_unique _ _ _ r); lia).
      rewrite <-Hqeq in Hd. fold d2 in Hd.
      rewrite Hm'eq, Zdigits2_mul_pow2 in Hd by lia. fold d1 in Hd. lia.
  - apply Qle_shift_div_l; [done|]. rewrite F2Q_mul, HA. apply F2Q_le. nia.
  - apply Qlt_shift_div_r; [done|]. rewrite F2Q_mul, HA. apply F2Q_lt. nia.
  - intros Heq.
    assert (Hmul : F2Q q e' * F2Q (Z.pos my) ey == F2Q (Z.pos mx) ex)
      by (rewrite <-Heq; field; lra).
    rewrite F2Q_mul, HA in Hmul.
    assert (q * Z.pos my ≤ m')%Z by (apply F2Q_le_inv with (e' + ey)%Z; lra).
    assert (m' ≤ q * Z.pos my)%Z by (apply F2Q_le_inv with (e' + ey)%Z; lra).
    assert (r = 0%Z) as -> by lia. apply new_location_exact.
Qed.

(** The quotient of two positive well-formed values. *)
Lemma div_value mx ex my ey :
  bounded prec emax mx ex = true → bounded prec emax my ey = true →
  nonneg (div (S754_finite false mx ex) (S754_finite false my ey)) ∧
  (∀ f, finite_nonneg f → F2Q (Z.pos mx) ex / F2Q (Z.pos my) ey <= to_Q f →
     finite_nonneg (div (S754_finite false mx ex) (S754_finite false my ey)) ∧
     SFleb (div (S754_finite false mx ex) (S754_finite false my ey)) f = true).
Proof.
  intros Hx Hy. unfold div, SFdiv. cbn [xorb].
  destruct (div_core_spec mx ex my ey)
    as (q & e' & l & Heq & Hq & Hpre & Hlo & Hhi & Hex).
  rewrite Heq.
  destruct (binary_round_aux_value q e' l _ Hq Hpre Hlo Hhi Hex)
    as (Hnonneg & _ & Habove).
  split; [done|]. exact Habove.
Qed.

Lemma div_nonneg x y :
  finite_nonneg x → nonneg y → (∀ s, y ≠ S754_zero s) → nonneg (div x y).
Proof.
  intros Hx [Hy| ->] Hnz.
  - destruct x as [sx| | |[] mx ex], y as [sy| | |[] my ey]; try done.
    + by destruct (Hnz sy).
    + by left.
    + by destruct (Hnz sy).
    + by apply div_value.
  - destruct x as [sx| | |[] mx ex]; try done; by left.
Qed.

(** ** The constants of [InitWithSeed] *)

Lemma of_nat_nonneg n :
  (0 < n)%nat → nonneg (of_nat n) ∧ SFleb one (of_nat n) = true.
Proof.
  intros Hn. unfold of_nat.
  destruct (Z.of_nat n) as [|p|p] eqn:Hp; [lia| |lia].
  cbn [binary_normalize].
  destruct (binary_round_value p 0) as (Hnonneg & Hbelow & _).
  split; [done|]. apply Hbelow; [apply one_nonneg|].
  rewrite to_Q_one. unfold F2Q. cbn [Qpower]. rewrite Qmult_1_r.
  rewrite <-(Zle_Qle 1). lia.
Qed.

(** The average is finite, and a well-formed weight that is not at or
    above it, multiplied by [float64(n)], gives less than 1. *)
Lemma average_spec n :
  (0 < n)%nat →
  finite_nonneg (div one (of_nat n)) ∧
  (∀ w, nonneg w → SFleb (div one (of_nat n)) w = false →
     finite_nonneg (of_nat n) ∧ finite_nonneg w ∧ to_Q w * to_Q (of_nat n) < 1).
Proof.
  intros Hn. destruct (of_nat_nonneg n Hn) as [[HN|HN] H1].
  - pose proof (proj1 (leb_finite_nonneg _ _ one_nonneg HN) H1) as H1v.
    rewrite to_Q_one in H1v.
    destruct (of_nat n) as [sN| | |[] mN eN] eqn:HeqN; try done.
    cbn [to_Q] in H1v.
    pose proof (F2Q_pos (Z.pos mN) eN ltac:(lia)) as HNpos.
    destruct (div_value 4503599627370496 (-52) mN eN eq_refl HN)
      as (Hnonneg & Habove).
    change (S754_finite false 4503599627370496 (-52)) with one in *.
    assert (H1' : F2Q 4503599627370496 (-52) == 1) by exact to_Q_one.
    destruct (Habove one one_nonneg) as [Hfin _].
    { rewrite to_Q_one, H1'. apply Qle_shift_div_r; lra. }
    split; [done|]. intros w Hw Hlt. split; [done|].
    destruct Hw as [Hw| ->]; [|by rewrite leb_inf_r in Hlt by (by left)].
    split; [done|]. cbn [to_Q].
    destruct (Qlt_le_dec (to_Q w * F2Q (Z.pos mN) eN) 1) as [|Hge]; [done|].
    exfalso. destruct (Habove w Hw) as [_ Hle]; [|congruence].
    rewrite H1'. apply Qle_shift_div_r; lra.
  - rewrite HN. split; [done|]. intros w Hw Hlt. exfalso.
    change (div one (S754_infinity false)) with (S754_zero false) in Hlt.
    destruct Hw as [Hw| ->]; [|done]. by rewrite leb_zero_l in Hlt.
Qed.
End B64Round.

(** * The run of [InitWithSeed] at binary64 on well-formed weights *)

Module B64Run.
Import B64 B64Round.
Local Open Scope nat_scope.

Lemma total_nonneg (probs : list float64) :
  Forall finite_nonneg probs →
  nonneg (total probs) ∧ ∀ x, x ∈ probs → SFleb x (total probs) = true.
Proof.
  intros Hall. unfold total. cbn [fadd fzero binary64].
  enough (∀ acc, nonneg acc →
            nonneg (fold_left add probs acc)
            ∧ SFleb acc (fold_left add probs acc) = true
            ∧ ∀ x, x ∈ probs → SFleb x (fold_left add probs acc) = true)
    as Hgen by (destruct (Hgen zero) as (? & _ & ?); [by left|done]).
  induction Hall as [|x l Hx _ IH]; intros acc Hacc; cbn [fold_left].
  - split_and!; [done|by apply leb_refl_nonneg|]. by intros x ?%elem_of_nil.
  - destruct (add_nonneg acc x Hacc (finite_nonneg_nonneg x Hx)) as (Hg & Ha & Hxa).
    destruct (IH (add acc x) Hg) as (Hg' & Hle & Hin).
    split_and!; [done|exact (leb_trans_nonneg _ _ _ Hacc Hg Hg' Ha Hle)|].
    intros y [->|Hy]%elem_of_cons; [|by apply Hin].
    exact (leb_trans_nonneg _ _ _ (finite_nonneg_nonneg _ Hx) Hg Hg' Hxa Hle).
Qed.

Lemma total_nonzero (probs : list float64) :
  Forall finite_nonneg probs → Exists finite_pos probs →
  ∀ s, total probs ≠ S754_zero s.
Proof.
  intros Hall (x & Hx & Hpos)%Exists_exists s Hz.
  destruct (total_nonneg probs Hall) as [_ Hle]. specialize (Hle x Hx).
  rewrite Hz in Hle. by destruct x as [| | |[] m e].
Qed.

Section Run.
Context (probs : list float64).
Hypothesis n_pos : 0 < length probs.
Hypothesis probs_nonneg : Forall finite_nonneg probs.
Hypothesis probs_pos : Exists finite_pos probs.

Let avg : float64 := fdiv fone (of_int (length probs)).

Lemma avg_finite : finite_nonneg avg.
Proof. exact (proj1 (average_spec _ n_pos)). Qed.

Lemma one_in_unit : in_unit one.
Proof. by split. Qed.

Lemma populated_b64 b0 : populated probs = Ret b0 → b64_inv probs b0.
Proof.
  intros Hb0. pose proof (populated_classifies probs b0) as Hcl.
  specialize (λ i, Hcl i Hb0).
  pose proof (populated_wf probs b0
    ltac:(intros ->; cbn in n_pos; lia) Hb0) as Hwf.
  pose proof Hb0 as Hb0'. rewrite populated_spec in Hb0'.
  assert (Hp2 : probs2 b0 = normalize probs (total probs))
    by (by injection Hb0' as <-).
  assert (Hall : ∀ i, i < length probs → i ∈ small b0 ++ large b0).
  { intros i Hi. destruct (Hcl i Hi) as [Ht Hf].
    destruct (fge (entry (probs2 b0) i) (fdiv fone (of_int (length probs))));
      apply elem_of_app; [right; by apply Ht|left; by apply Hf]. }
  split.
  - intros k. rewrite Hp2. unfold entry, normalize. rewrite list_lookup_fmap.
    destruct (probs !! k) as [x|] eqn:Hx; cbn; [|by left].
    apply div_nonneg.
    + rewrite Forall_lookup in probs_nonneg. by eapply probs_nonneg.
    + by apply total_nonneg.
    + by apply total_nonzero.
  - intros k Hk.
    assert (Hkn : k < length probs)
      by (apply (wf_range _ _ Hwf), elem_of_app; by left).
    destruct (fge (entry (probs2 b0) k) _) eqn:Hge; [|done].
    destruct (Hcl k Hkn) as [Ht _]. by destruct (Ht Hge).
  - intros k Hk.
    assert (Hkn : k < length probs)
      by (apply (wf_range _ _ Hwf), elem_of_app; by right).
    destruct (fge (entry (probs2 b0) k) _) eqn:Hge; [done|].
    destruct (Hcl k Hkn) as [_ Hf]. by destruct (Hf Hge).
  - intros k Hk Hni. by destruct (Hni (Hall k Hk)).
Qed.

Lemma paired_with_b64 b less s1 more l1 :
  wf (length probs) b → b64_inv probs b →
  small b = less :: s1 → large b = more :: l1 →
  b64_inv probs (paired_with probs avg b less s1 more l1).
Proof.
  intros Hwf [Hnonneg Hsm Hlg Hunit] Hs Hl.
  pose proof (wf_probs2 _ _ Hwf) as Hlen.
  pose proof (wf_probability _ _ Hwf) as Hlenp.
  pose proof (wf_nodup _ _ Hwf) as Hnd.
  pose proof (wf_range _ _ Hwf) as Hr. clear Hwf.
  rewrite Hs, Hl in Hnd. rewrite Hs, Hl in Hr. rewrite Hs in Hsm.
  rewrite Hl in Hlg. rewrite Hs, Hl in Hunit.
  fold avg in Hsm, Hlg.
  assert (Hwl : ∀ i, i ∈ (less :: s1) ++ more :: l1
                     ↔ i = less ∨ i ∈ s1 ++ more :: l1)
    by (intros i; cbn [app]; apply elem_of_cons).
  assert (Hmore_in : more ∈ s1 ++ more :: l1)
    by (apply elem_of_app; right; by left).
  assert (Hless : less ∉ s1 ++ more :: l1) by by apply NoDup_cons_1_1 in Hnd.
  assert (Hlm : less ≠ more) by (by intros ->).
  assert (Hmore : more ∉ s1 ++ l1).
  { apply NoDup_cons_1_2, NoDup_app in Hnd as (_ & Hd & Hn2).
    apply NoDup_cons_1_1 in Hn2.
    intros [Hm|Hm]%elem_of_app; [|done]. apply (Hd more Hm). by left. }
  assert (Hs1 : ∀ k, k ∈ s1 → k ≠ more)
    by (intros k Hk ->; apply Hmore, elem_of_app; by left).
  assert (Hl1 : ∀ k, k ∈ l1 → k ≠ more)
    by (intros k Hk ->; apply Hmore, elem_of_app; by right).
  assert (Hlessn : less < length probs) by (apply Hr, Hwl; by left).
  assert (Hmoren : more < length probs) by (apply Hr, Hwl; by right).
  clear Hnd Hr.
  set (b' := paired_with probs avg b less s1 more l1).
  set (wm' := fsub (fadd (entry (probs2 b) more) (entry (probs2 b) less)) avg).
  assert (Hw' : probs2 b' = <[more := wm']> (probs2 b)) by done.
  assert (Hsmall' : small b' = if fge wm' avg then s1 else more :: s1)
    by (unfold b', paired_with; cbn [small]; rewrite length_insert, Hlen;
        reflexivity).
  assert (Hlarge' : large b' = if fge wm' avg then more :: l1 else l1)
    by (unfold b', paired_with; cbn [large]; rewrite length_insert, Hlen;
        reflexivity).
  assert (Hprob' : b_probability b'
    = <[less := fmul (entry (probs2 b) less) (of_int (length probs))]>
        (b_probability b)) by done.
  assert (Hperm' : small b' ++ large b' ≡ₚ more :: (s1 ++ l1)).
  { rewrite Hsmall', Hlarge'. destruct (fge wm' avg); [|done].
    by rewrite <-Permutation_middle. }
  assert (Hwl' : ∀ i, i ∈ small b' ++ large b' ↔ i ∈ s1 ++ more :: l1).
  { intros i. by rewrite Hperm', (Permutation_middle s1 l1 more). }
  assert (Hmore' : entry (probs2 b') more = wm')
    by (rewrite Hw'; apply entry_insert_eq; lia).
  assert (Hother' : ∀ i, i ≠ more → entry (probs2 b') i = entry (probs2 b) i)
    by (intros i Hi; rewrite Hw'; by apply entry_insert_ne).
  clearbody b'.
  (* the weights of [less] and [more] *)
  pose proof (Hsm less ltac:(by left)) as Hless_small.
  pose proof (Hlg more ltac:(by left)) as Hmore_large.
  destruct (average_spec _ n_pos) as [Havg Hbelow].
  destruct (Hbelow _ (Hnonneg less) Hless_small) as (HN & Hwless & Hprod).
  assert (Hwm' : nonneg wm').
  { destruct (add_nonneg _ _ (Hnonneg more) (Hnonneg less)) as (Hsum & Hle & _).
    apply sub_nonneg; [done|exact Havg|].
    exact (leb_trans_nonneg _ _ _ (finite_nonneg_nonneg _ Havg) (Hnonneg more) Hsum
             Hmore_large Hle). }
  split.
  - intros k. destruct (decide (k = more)) as [->|Hk].
    + by rewrite Hmore'.
    + rewrite Hother' by done. apply Hnonneg.
  - intros k. rewrite Hsmall'. fold avg. destruct (fge wm' avg) eqn:Hge.
    + intros Hk. rewrite Hother' by by apply Hs1. apply Hsm. by right.
    + intros [->|Hk]%elem_of_cons.
      * by rewrite Hmore'.
      * rewrite Hother' by by apply Hs1. apply Hsm. by right.
  - intros k. rewrite Hlarge'. fold avg. destruct (fge wm' avg) eqn:Hge.
    + intros [->|Hk]%elem_of_cons.
      * by rewrite Hmore'.
      * rewrite Hother' by by apply Hl1. apply Hlg. by right.
    + intros Hk. rewrite Hother' by by apply Hl1. apply Hlg. by right.
  - intros k Hk Hni. rewrite Hwl' in Hni. rewrite Hprob'.
    destruct (decide (k = less)) as [->|Hkl].
    + rewrite entry_insert_eq by lia.
      destruct (mul_unit _ _ Hwless HN (Qlt_le_weak _ _ Hprod))
        as (_ & H0 & H1).
      by split.
    + rewrite entry_insert_ne by done. apply Hunit; [done|].
      by intros [?|?]%Hwl.
Qed.

Lemma pair_run_b64 k b b' :
  pair_run probs avg k b b' → wf (length probs) b → b64_inv probs b →
  b64_inv probs b'.
Proof.
  induction 1 as [|k b b' b'' Hb Hbody _ IH]; [done|]. intros Hwf Hinv.
  apply pair_body_Ret_inv in Hbody
    as (less & s1 & more & l1 & Hs & Hl & _ & _ & _ & _ & ->).
  apply IH; [by apply paired_with_wf|by apply paired_with_b64].
Qed.

(** Every probability entry of the table is in [0, 1]. *)
Lemma InitWithSeed_in_unit {FG : RandGen float64} (sd : Z) :
  ∃ s, InitWithSeed probs sd = Ret (Some s, None) ∧
       Forall in_unit (probability s).
Proof.
  assert (Hne : probs ≠ []) by (intros ->; cbn in n_pos; lia).
  destruct (InitWithSeed_run probs sd Hne)
    as (b0 & j & b & p & Hb0 & Hrun & _ & _ & Hwf & _ & Hlen & Hin
        & Hout & Hinit).
  pose proof (populated_wf probs b0 Hne Hb0) as Hwf0.
  pose proof (pair_run_b64 j b0 b Hrun Hwf0 (populated_b64 b0 Hb0)) as Hinv.
  eexists. split; [exact Hinit|]. cbn [probability].
  apply Forall_lookup. intros i x Hx.
  assert (Hi : i < length probs) by (rewrite <-Hlen; by eapply lookup_lt_Some).
  destruct (decide (i ∈ small b ++ large b)) as [Hi'|Hi'].
  - rewrite (Hin i Hi') in Hx. injection Hx as <-. apply one_in_unit.
  - pose proof (b64_unit _ _ Hinv i Hi Hi') as Hu.
    rewrite (Hout i Hi') in Hx. by rewrite (entry_lookup _ _ _ Hx) in Hu.
Qed.
End Run.
End B64Run.

(** * Binary64: weights that are not finite *)

Module B64Edge.
Import B64 B64Round.

Lemma add_nan_l (x : float64) : add nan x = nan.
Proof. done. Qed.

Lemma add_nan_r (x : float64) : add x nan = nan.
Proof. by destruct x as [| | |[]]. Qed.

Lemma div_nan_r (x : float64) : div x nan = nan.
Proof. by destruct x as [| | |[]]. Qed.

Lemma total_nan (probs : list float64) :
  Exists (λ x, x = nan) probs → total probs = nan.
Proof.
  intros Hex. unfold total. cbn [fadd fzero binary64].
  assert (Hnan : ∀ l, fold_left add l nan = nan)
    by (induction l as [|x l IH]; [done|exact IH]).
  generalize zero.
  induction Hex as [x l ->|x l _ IH]; intros acc; cbn [fold_left].
  - rewrite add_nan_r. apply Hnan.
  - apply IH.
Qed.

Lemma normalize_entry (probs : list float64) (t : float64) i :
  i < length probs →
  ∃ x, x ∈ probs ∧ entry (normalize probs t) i = div x t.
Proof.
  intros Hi. pose proof (lookup_lt_is_Some_2 _ _ Hi) as [x Hx].
  exists x. split; [by eapply list_elem_of_lookup_2|].
  unfold entry, normalize. by rewrite list_lookup_fmap, Hx.
Qed.

(** A finite non-negative weight divided by +Inf is a zero, and +Inf
    divided by +Inf is NaN. *)
Lemma div_inf_r (x : float64) :
  nonneg x → div x (S754_infinity false) = nan
             ∨ ∃ s, div x (S754_infinity false) = S754_zero s.
Proof.
  intros [Hx| ->]; [|by left].
  destruct x as [s| | |[] m e]; try done; right; by eexists.
Qed.

Local Open Scope Q_scope.

Lemma div_below mx ex my ey f :
  bounded prec emax mx ex = true → bounded prec emax my ey = true →
  finite_nonneg f → to_Q f <= F2Q (Z.pos mx) ex / F2Q (Z.pos my) ey →
  SFleb f (div (S754_finite false mx ex) (S754_finite false my ey)) = true.
Proof.
  intros Hx Hy Hf Hle. unfold div, SFdiv. cbn [xorb].
  destruct (div_core_spec mx ex my ey)
    as (q & e' & l & Heq & Hq & Hpre & Hlo & Hhi & Hex).
  rewrite Heq.
  destruct (binary_round_aux_value q e' l _ Hq Hpre Hlo Hhi Hex)
    as (_ & Hbelow & _).
  by apply Hbelow.
Qed.

(** [float64(n)] is finite for every length a slice can have. *)
Lemma of_nat_finite n :
  (0 < n)%nat → (Z.of_nat n < 2 ^ 63)%Z →
  ∃ m e, of_nat n = S754_finite false m e ∧ bounded prec emax m e = true
         ∧ 1 <= F2Q (Z.pos m) e <= 2 ^ 63.
Proof.
  intros Hn Hlt. destruct (of_nat_nonneg n Hn) as [_ H1].
  assert (Hfin : finite_nonneg (of_nat n)
                 ∧ SFleb (of_nat n) (pow2 63) = true).
  { unfold of_nat in *.
    destruct (Z.of_nat n) as [|p|p] eqn:Hp; [lia| |lia].
    cbn [binary_normalize].
    destruct (binary_round_value p 0) as (_ & _ & Habove).
    apply Habove; [by vm_compute|].
    assert (Hv : to_Q (pow2 63) == inject_Z (2 ^ 63)) by (by vm_compute).
    rewrite Hv. unfold F2Q. cbn [Qpower]. rewrite Qmult_1_r.
    rewrite <-Zle_Qle. lia. }
  destruct Hfin as [Hfin Hle].
  apply leb_finite_nonneg in H1; [|apply one_nonneg|done].
  apply leb_finite_nonneg in Hle; [|done|by vm_compute].
  rewrite to_Q_one in H1.
  assert (Hv : to_Q (pow2 63) == 2 ^ 63) by (by vm_compute).
  rewrite Hv in Hle.
  destruct (of_nat n) as [s| | |[] m e]; try done; cbn [to_Q] in *.
  by exists m, e.
Qed.

(** The average [1.0 / float64(n)] is a positive finite value. *)
Lemma average_positive n :
  (0 < n)%nat → (Z.of_nat n < 2 ^ 63)%Z →
  ∃ m e, div one (of_nat n) = S754_finite false m e.
Proof.
  intros Hn Hlt.
  destruct (of_nat_finite n Hn Hlt) as (mN & eN & HN & Hb & Hlo & Hhi).
  destruct (average_spec n Hn) as [Havg _]. rewrite HN in Havg |- *.
  assert (Hle : SFleb (S754_finite false 1 (-1074))
                  (div one (S754_finite false mN eN)) = true).
  { rewrite B64Facts.one_eq. apply div_below; [done|done|done|].
    cbn [to_Q].
    assert (H1 : F2Q 4503599627370496 (-52) == 1) by exact to_Q_one.
    rewrite H1. apply Qle_shift_div_l; [lra|].
    assert (Ht : F2Q 1 (-1074) == 2 ^ (-1074)) by (unfold F2Q; ring).
    rewrite Ht.
    pose proof (pow2_pos (-1074)) as Hp.
    assert (H2 : 2 ^ (-1074) * 2 ^ 63 <= 1).
    { rewrite <-pow2_add. change 1 with (2 ^ 0). by apply pow2_le. }
    assert (2 ^ (-1074) * F2Q (Z.pos mN) eN <= 2 ^ (-1074) * 2 ^ 63)
      by (apply Qmult_le_l; done).
    lra. }
  destruct (div one (S754_finite false mN eN)) as [s| | |[] m e];
    try done. by exists m, e.
Qed.
End B64Edge.

(** * Sums of rationals *)

Module ExactFacts.
Local Open Scope Qc_scope.

Lemma Qc_eq_Qeq (x y : Qc) : x = y ↔ (this x == this y)%Q.
Proof. split; [by intros ->|apply Qc_is_canon]. Qed.

(** Linear arithmetic over [Qc], through [Q]. *)
Ltac qc_lra :=
  unfold Qcminus, Qcdiv, Qcle, Qclt in *;
  repeat match goal with
  | H : @eq Qc _ _ |- _ => apply Qc_eq_Qeq in H
  | H : ¬ @eq Qc _ _ |- _ => rewrite Qc_eq_Qeq in H
  | |- @eq Qc _ _ => apply Qc_eq_Qeq
  | |- ¬ @eq Qc _ _ => rewrite Qc_eq_Qeq
  end;
  cbn [this Qcplus Qcmult Qcopp Q2Qc] in *;
  rewrite ?Qred_correct in *; lra.

Lemma of_int_0 : of_int 0 = 0.
Proof. exact Z2Qc_inj_0. Qed.

Lemma of_int_S (n : nat) : of_int (S n) = of_int n + 1.
Proof.
  cbn. rewrite Nat2Z.inj_succ, <-Z.add_1_r, Z2Qc_inj_add. by rewrite Z2Qc_inj_1.
Qed.

(** Sums *)

Lemma sumQ_nil : sumQ [] = 0.
Proof. done. Qed.

Lemma sumQ_cons x l : sumQ (x :: l) = x + sumQ l.
Proof. done. Qed.

Lemma sumQ_app l1 l2 : sumQ (l1 ++ l2) = sumQ l1 + sumQ l2.
Proof.
  induction l1 as [|x l1 IH]; [rewrite sumQ_nil; cbn [app]; ring|].
  cbn [app]. rewrite !sumQ_cons, IH. ring.
Qed.

Lemma sumQ_perm l1 l2 : l1 ≡ₚ l2 → sumQ l1 = sumQ l2.
Proof.
  induction 1 as [|x l1 l2 _ IH|x y l|l1 l2 l3 _ IH1 _ IH2];
    rewrite ?sumQ_cons; [done|by rewrite IH|ring|congruence].
Qed.

Lemma sumQ_ext {A} (f g : A → Qc) (l : list A) :
  (∀ i, i ∈ l → f i = g i) → sumQ (f <$> l) = sumQ (g <$> l).
Proof.
  induction l as [|i l IH]; intros Hfg; [done|].
  rewrite !fmap_cons, !sumQ_cons.
  rewrite Hfg by left. rewrite IH; [done|]. intros j Hj. apply Hfg. by right.
Qed.

(** Changing one term of a sum. *)
Lemma sumQ_update (f g : nat → Qc) (l : list nat) (j : nat) (δ : Qc) :
  NoDup l → j ∈ l →
  (∀ i, i ∈ l → i ≠ j → g i = f i) → g j = f j + δ →
  sumQ (g <$> l) = sumQ (f <$> l) + δ.
Proof.
  intros Hnd Hj Hne Heq. induction l as [|i l IH]; [by apply elem_of_nil in Hj|].
  apply NoDup_cons in Hnd as [Hil Hnd]. rewrite !fmap_cons, !sumQ_cons.
  destruct (decide (i = j)) as [->|Hij].
  - rewrite Heq. rewrite (sumQ_ext g f); [ring|].
    intros i Hi. apply Hne; [by right|]. by intros ->.
  - rewrite Hne by (done || by left). rewrite IH; [ring|done|set_solver|].
    intros i' Hi'. apply Hne. by right.
Qed.

Lemma sumQ_minus_const {A} (f : A → Qc) (c : Qc) (l : list A) :
  sumQ ((λ i, f i - c) <$> l) = sumQ (f <$> l) - of_int (length l) * c.
Proof.
  induction l as [|i l IH].
  - rewrite !fmap_nil, sumQ_nil. cbn [length]. rewrite of_int_0. ring.
  - rewrite !fmap_cons, !sumQ_cons. cbn [length].
    rewrite IH, of_int_S. ring.
Qed.

Lemma sumQ_entries (l : list Qc) :
  sumQ ((λ i, entry l i) <$> seq 0 (length l)) = sumQ l.
Proof.
  induction l as [|x l IH]; [done|]. cbn [length seq].
  rewrite fmap_cons, !sumQ_cons.
  rewrite <-fmap_S_seq, <-list_fmap_compose. f_equal. exact IH.
Qed.

Lemma sumQ_nonneg (l : list Qc) : Forall (λ x, 0 ≤ x) l → 0 ≤ sumQ l.
Proof.
  induction 1 as [|x l Hx _ IH]; [done|]. rewrite sumQ_cons.
  by apply Qcplus_nonneg_nonneg.
Qed.

Lemma sumQ_pos (l : list Qc) :
  Forall (λ x, 0 ≤ x) l → Exists (λ x, 0 < x) l → 0 < sumQ l.
Proof.
  intros Hl. induction Hl as [|x l Hx Hl IH]; [by intros ?%Exists_nil|].
  rewrite sumQ_cons. pose proof (sumQ_nonneg l Hl).
  intros [Hp|Hp%IH]%Exists_cons; qc_lra.
Qed.
End ExactFacts.

(** * The rounding error of the binary64 operations *)

Module B64Error.
Import B64 B64Round.
Local Open Scope Z_scope.
Local Open Scope Q_scope.

Lemma u2_pow2 : 2 ^ (-52) == u2.
Proof. reflexivity. Qed.

Lemma u2_pos : 0 < u2.
Proof. reflexivity. Qed.

Lemma eta_pos : 0 < eta.
Proof. apply pow2_pos. Qed.

Lemma F2Q_succ m e : F2Q (m + 1) e == F2Q m e + 2 ^ e.
Proof. unfold F2Q. rewrite inject_Z_plus. ring. Qed.

(** The spacing of the grid at [x] is at most [2^-52 * x], except on
    the lowest grid, where it is [2^-1074]. *)
Lemma pow2_fexp_bound m e (x : Q) :
  (0 ≤ m)%Z → (e ≤ fexp prec emax (Zdigits2 m + e))%Z → F2Q m e <= x →
  2 ^ fexp prec emax (Zdigits2 m + e) <= u2 * x
  ∨ fexp prec emax (Zdigits2 m + e) = (-1074)%Z.
Proof.
  intros Hm Hpre Hx. rewrite fexp_eq in *.
  destruct (Z.eq_dec m 0%Z) as [->|Hnz]; [cbn [Zdigits2] in *; right; lia|].
  destruct (Z.le_gt_cases (Zdigits2 m + e - 53) (-1074)) as [|Hgt];
    [right; lia|left].
  rewrite Z.max_l by lia.
  pose proof (F2Q_digits m e ltac:(lia)) as [Hlo _].
  replace (Zdigits2 m + e - 53)%Z with ((-52) + (Zdigits2 m + e - 1))%Z by lia.
  rewrite pow2_add, u2_pow2.
  apply Qmult_le_l; [done|]. lra.
Qed.

(** The result of rounding [x], when finite, is within one grid step of
    [x], and is [x] itself when no bit is shifted out. *)
Lemma binary_round_aux_error m e l (x : Q) :
  (0 ≤ m)%Z → (e ≤ fexp prec emax (Zdigits2 m + e))%Z →
  F2Q m e <= x → x < F2Q (m + 1) e →
  (x == F2Q m e → l = loc_Exact) →
  finite_nonneg (binary_round_aux prec emax false m e l) →
  to_Q (binary_round_aux prec emax false m e l) - x
    <= 2 ^ fexp prec emax (Zdigits2 m + e) ∧
  x - to_Q (binary_round_aux prec emax false m e l)
    <= 2 ^ fexp prec emax (Zdigits2 m + e) ∧
  (x == F2Q m e → fexp prec emax (Zdigits2 m + e) = e →
   to_Q (binary_round_aux prec emax false m e l) == x).
Proof.
  intros Hm Hpre Hlo Hhi Hex Hfin.
  remember (fexp prec emax (Zdigits2 m + e)) as E eqn:HE.
  remember (m / 2 ^ (E - e))%Z as m1 eqn:Hm1.
  destruct (binary_round_aux_spec false m e l E m1 Hm HE Hpre Hm1)
    as (r & Hr & Hrex & HR).
  destruct (F2Q_shift_bracket m e (E - e) Hm ltac:(lia)) as [Hb1 Hb2].
  replace (e + (E - e))%Z with E in Hb1, Hb2 by lia.
  rewrite <-Hm1 in Hb1, Hb2.
  assert (Hv : to_Q (binary_round_aux prec emax false m e l) == F2Q r E).
  { destruct HR as [[Hr0 ->]|(Hrpos & m2 & e2 & HEe2 & Hm2 & Hc2 & HRes)].
    - rewrite Hr0, F2Q_0. done.
    - destruct HRes as [[He2 HRes]|[He2 HRes]]; rewrite HRes in Hfin |- *;
        [|done].
      cbn [to_Q]. rewrite (F2Q_align _ E e2 HEe2). by rewrite Hm2. }
  rewrite Hv.
  pose proof (F2Q_succ m1 E) as Hs.
  assert (F2Q m1 E <= F2Q r E) by (apply F2Q_le; lia).
  assert (F2Q r E <= F2Q (m1 + 1) E) by (apply F2Q_le; lia).
  split; [lra|]. split; [lra|].
  intros Hx HEe. assert (r = m1) as ->.
  { apply Hrex; [by apply Hex|]. rewrite HEe, Z.sub_diag, Z.pow_0_r.
    apply Z.mod_1_r. }
  rewrite Hm1, HEe, Z.sub_diag, Z.pow_0_r, Z.div_1_r. by rewrite Hx.
Qed.

(** Rounding an exact value [M * 2^e]. *)
Lemma binary_round_error M e :
  finite_nonneg (binary_round prec emax false M e) →
  to_Q (binary_round prec emax false M e) - F2Q (Z.pos M) e
    <= 2 ^ fexp prec emax (Z.pos (digits2_pos M) + e) ∧
  F2Q (Z.pos M) e - to_Q (binary_round prec emax false M e)
    <= 2 ^ fexp prec emax (Z.pos (digits2_pos M) + e) ∧
  ((fexp prec emax (Z.pos (digits2_pos M) + e) ≤ e)%Z →
   to_Q (binary_round prec emax false M e) == F2Q (Z.pos M) e).
Proof.
  unfold binary_round.
  destruct (shl_align_spec M e (fexp prec emax (Z.pos (digits2_pos M) + e)))
    as (mz & ez & Heq & Hez & Hmz).
  rewrite Heq. intros Hfin.
  assert (Hv : F2Q (Z.pos mz) ez == F2Q (Z.pos M) e)
    by (rewrite Hmz; symmetry; apply F2Q_align; lia).
  assert (Hd : (Zdigits2 (Z.pos mz) + ez = Z.pos (digits2_pos M) + e)%Z).
  { rewrite Hmz, Zdigits2_mul_pow2 by lia. cbn [Zdigits2]. lia. }
  destruct (binary_round_aux_error (Z.pos mz) ez loc_Exact (F2Q (Z.pos mz) ez))
    as (H1 & H2 & H3); [lia|rewrite Hd; lia|lra| |done|done|].
  { apply F2Q_lt. lia. }
  rewrite Hd in H1, H2, H3. rewrite <-Hv.
  split; [done|]. split; [done|]. intros Hle. apply H3; [done|lia].
Qed.

Lemma binary_round_rel M e :
  (-1074 ≤ e)%Z → finite_nonneg (binary_round prec emax false M e) →
  to_Q (binary_round prec emax false M e) - F2Q (Z.pos M) e
    <= u2 * F2Q (Z.pos M) e ∧
  F2Q (Z.pos M) e - to_Q (binary_round prec emax false M e)
    <= u2 * F2Q (Z.pos M) e.
Proof.
  intros He Hfin. destruct (binary_round_error M e Hfin) as (H1 & H2 & H3).
  pose proof (F2Q_pos (Z.pos M) e ltac:(lia)) as Hpos.
  pose proof u2_pos as Hu.
  assert (Hux : 0 <= u2 * F2Q (Z.pos M) e)
    by (apply Qmult_le_0_compat; lra).
  destruct (Z.le_gt_cases (fexp prec emax (Z.pos (digits2_pos M) + e)) e)
    as [Hle|Hgt].
  - rewrite (H3 Hle). lra.
  - destruct (pow2_fexp_bound (Z.pos M) e (F2Q (Z.pos M) e))
      as [Hb|Hb]; [lia|cbn [Zdigits2]; lia|lra| |cbn [Zdigits2] in Hb; lia].
    cbn [Zdigits2] in Hb. lra.
Qed.

(** Addition *)
Lemma add_finite x y f :
  finite_nonneg x → finite_nonneg y → finite_nonneg f →
  to_Q x + to_Q y <= to_Q f → finite_nonneg (add x y).
Proof.
  intros Hx Hy Hf Hle.
  destruct x as [sx| | |[] mx ex], y as [sy| | |[] my ey]; try done.
  - by destruct sx, sy.
  - unfold add, SFadd. cbn [cond_Zopp].
    destruct (shl_align_spec mx ex (Z.min ex ey))
      as (mx' & ex' & Hax & Hex' & Hmx).
    destruct (shl_align_spec my ey (Z.min ex ey))
      as (my' & ey' & Hay & Hey' & Hmy).
    rewrite Hax, Hay. cbn [fst binary_normalize Z.add].
    assert (ex' = Z.min ex ey) as -> by lia.
    assert (ey' = Z.min ex ey) as -> by lia.
    assert (Hvx : F2Q (Z.pos mx') (Z.min ex ey) == F2Q (Z.pos mx) ex)
      by (rewrite Hmx; symmetry; apply F2Q_align; lia).
    assert (Hvy : F2Q (Z.pos my') (Z.min ex ey) == F2Q (Z.pos my) ey)
      by (rewrite Hmy; symmetry; apply F2Q_align; lia).
    assert (Hsum : F2Q (Z.pos (mx' + my')) (Z.min ex ey)
                   == F2Q (Z.pos mx) ex + F2Q (Z.pos my) ey).
    { rewrite <-Hvx, <-Hvy. unfold F2Q. rewrite Pos2Z.inj_add, inject_Z_plus.
      ring. }
    cbn [to_Q] in *.
    destruct (binary_round_value (mx' + my') (Z.min ex ey))
      as (_ & _ & Habove).
    destruct (Habove f Hf) as [Hfin _]; [lra|done].
Qed.

Lemma add_error x y :
  finite_nonneg x → finite_nonneg y → finite_nonneg (add x y) →
  to_Q (add x y) - (to_Q x + to_Q y) <= u2 * (to_Q x + to_Q y) ∧
  (to_Q x + to_Q y) - to_Q (add x y) <= u2 * (to_Q x + to_Q y).
Proof.
  intros Hx Hy Hfin. pose proof u2_pos as Hu.
  pose proof (to_Q_nonneg x Hx) as Hx0. pose proof (to_Q_nonneg y Hy) as Hy0.
  assert (Hux : 0 <= u2 * (to_Q x + to_Q y))
    by (apply Qmult_le_0_compat; lra).
  destruct x as [sx| | |[] mx ex], y as [sy| | |[] my ey]; try done.
  - assert (to_Q (add (S754_zero sx) (S754_zero sy)) == 0)
      by (by destruct sx, sy).
    cbn [to_Q] in *. lra.
  - change (add (S754_zero sx) (S754_finite false my ey))
      with (S754_finite false my ey). cbn [to_Q] in *. lra.
  - change (add (S754_finite false mx ex) (S754_zero sy))
      with (S754_finite false mx ex). cbn [to_Q] in *. lra.
  - apply bounded_canonical in Hx as [Hcx _], Hy as [Hcy _].
    pose proof (canonical_digits _ _ Hcx) as (_ & _ & Hex).
    pose proof (canonical_digits _ _ Hcy) as (_ & _ & Hey).
    unfold add, SFadd in Hfin |- *. cbn [cond_Zopp] in Hfin |- *.
    destruct (shl_align_spec mx ex (Z.min ex ey))
      as (mx' & ex' & Hax & Hex' & Hmx).
    destruct (shl_align_spec my ey (Z.min ex ey))
      as (my' & ey' & Hay & Hey' & Hmy).
    rewrite Hax, Hay in Hfin |- *.
    cbn [fst binary_normalize Z.add] in Hfin |- *.
    assert (ex' = Z.min ex ey) as -> by lia.
    assert (ey' = Z.min ex ey) as -> by lia.
    assert (Hvx : F2Q (Z.pos mx') (Z.min ex ey) == F2Q (Z.pos mx) ex)
      by (rewrite Hmx; symmetry; apply F2Q_align; lia).
    assert (Hvy : F2Q (Z.pos my') (Z.min ex ey) == F2Q (Z.pos my) ey)
      by (rewrite Hmy; symmetry; apply F2Q_align; lia).
    assert (Hsum : F2Q (Z.pos (mx' + my')) (Z.min ex ey)
                   == F2Q (Z.pos mx) ex + F2Q (Z.pos my) ey).
    { rewrite <-Hvx, <-Hvy. unfold F2Q. rewrite Pos2Z.inj_add, inject_Z_plus.
      ring. }
    cbn [to_Q] in *.
    destruct (binary_round_rel (mx' + my') (Z.min ex ey) ltac:(lia) Hfin)
      as [H1 H2].
    rewrite Hsum in H1, H2. done.
Qed.

(** Subtraction of a smaller value *)
Lemma sub_error a c :
  finite_nonneg a → finite_nonneg c → to_Q c <= to_Q a →
  finite_nonneg (sub a c) ∧
  to_Q (sub a c) - (to_Q a - to_Q c) <= u2 * (to_Q a - to_Q c) ∧
  (to_Q a - to_Q c) - to_Q (sub a c) <= u2 * (to_Q a - to_Q c).
Proof.
  intros Ha Hc Hv. pose proof u2_pos as Hu.
  pose proof (to_Q_nonneg c Hc) as Hc0.
  assert (Hux : 0 <= u2 * (to_Q a - to_Q c))
    by (apply Qmult_le_0_compat; lra).
  destruct a as [sa| | |[] ma ea], c as [sc| | |[] mc ec]; try done.
  - split; [by destruct sa, sc|].
    assert (to_Q (sub (S754_zero sa) (S754_zero sc)) == 0)
      by (by destruct sa, sc).
    cbn [to_Q] in *. lra.
  - exfalso. cbn [to_Q] in Hv.
    pose proof (F2Q_pos (Z.pos mc) ec ltac:(lia)). lra.
  - change (sub (S754_finite false ma ea) (S754_zero sc))
      with (S754_finite false ma ea). split; [done|]. cbn [to_Q] in *. lra.
  - pose proof Ha as Ha'.
    apply bounded_canonical in Ha as [Hca _], Hc as [Hcc _].
    pose proof (canonical_digits _ _ Hca) as (_ & _ & Hea).
    pose proof (canonical_digits _ _ Hcc) as (_ & _ & Hec).
    cbn [to_Q] in *. unfold sub, SFsub. cbn [cond_Zopp].
    destruct (shl_align_spec ma ea (Z.min ea ec))
      as (ma' & ea' & Haa & Hea' & Hma).
    destruct (shl_align_spec mc ec (Z.min ea ec))
      as (mc' & ec' & Hac & Hec' & Hmc).
    rewrite Haa, Hac. cbn [fst].
    assert (ea' = Z.min ea ec) as -> by lia.
    assert (ec' = Z.min ea ec) as -> by lia.
    assert (Hva : F2Q (Z.pos ma') (Z.min ea ec) == F2Q (Z.pos ma) ea)
      by (rewrite Hma; symmetry; apply F2Q_align; lia).
    assert (Hvc : F2Q (Z.pos mc') (Z.min ea ec) == F2Q (Z.pos mc) ec)
      by (rewrite Hmc; symmetry; apply F2Q_align; lia).
    assert (Hge : (Z.pos mc' ≤ Z.pos ma')%Z)
      by (apply F2Q_le_inv with (Z.min ea ec); lra).
    assert (Hdiff : F2Q (Z.pos ma' - Z.pos mc') (Z.min ea ec)
                    == F2Q (Z.pos ma) ea - F2Q (Z.pos mc) ec).
    { rewrite <-Hva, <-Hvc. unfold F2Q.
      unfold Z.sub. rewrite inject_Z_plus, inject_Z_opp. ring. }
    change (Z.pos ma' + Z.neg mc')%Z with (Z.pos ma' - Z.pos mc')%Z.
    destruct (Z.pos ma' - Z.pos mc')%Z as [|M|M] eqn:HM; [| |lia].
    + cbn [binary_normalize]. split; [done|]. cbn [to_Q].
      rewrite F2Q_0 in Hdiff. lra.
    + cbn [binary_normalize].
      destruct (binary_round_value M (Z.min ea ec)) as (_ & _ & Habove).
      destruct (Habove (S754_finite false ma ea) Ha') as [Hfin _];
        [cbn [to_Q]; lra|].
      split; [done|].
      destruct (binary_round_rel M (Z.min ea ec) ltac:(lia) Hfin) as [H1 H2].
      rewrite Hdiff in H1, H2. done.
Qed.

Lemma eta_spacing m e (x : Q) :
  (0 ≤ m)%Z → (e ≤ fexp prec emax (Zdigits2 m + e))%Z → F2Q m e <= x →
  2 ^ fexp prec emax (Zdigits2 m + e) <= u2 * x + eta.
Proof.
  intros Hm Hpre Hx. pose proof u2_pos. pose proof eta_pos.
  assert (0 <= x).
  { assert (0 <= F2Q m e) by (rewrite <-(F2Q_0 e); by apply F2Q_le). lra. }
  assert (0 <= u2 * x) by (apply Qmult_le_0_compat; lra).
  destruct (pow2_fexp_bound m e x Hm Hpre Hx) as [Hb| ->]; [lra|].
  fold eta. lra.
Qed.

(** Multiplication, of a product that is at most 1 *)
Lemma mul_error w n :
  finite_nonneg w → finite_nonneg n → to_Q w * to_Q n <= 1 →
  finite_nonneg (mul w n) ∧
  to_Q (mul w n) - to_Q w * to_Q n <= u2 * (to_Q w * to_Q n) + eta ∧
  to_Q w * to_Q n - to_Q (mul w n) <= u2 * (to_Q w * to_Q n) + eta.
Proof.
  intros Hw Hn Hle. destruct (mul_unit w n Hw Hn Hle) as (Hfin & _ & _).
  split; [done|]. pose proof u2_pos as Hu. pose proof eta_pos as He.
  destruct w as [sw| | |[] mw ew], n as [sn| | |[] mn en]; try done;
    try (cbn [to_Q mul SFmul]; lra).
  pose proof Hw as Hw'. pose proof Hn as Hn'.
  apply bounded_canonical in Hw' as [Hcw _], Hn' as [Hcn _].
  cbn [to_Q] in Hle |- *. unfold mul, SFmul in Hfin |- *. cbn [xorb] in *.
  pose proof (canonical_digits _ _ Hcw) as Hdw.
  pose proof (canonical_digits _ _ Hcn) as Hdn.
  pose proof (Zdigits2_mul (Z.pos mw) (Z.pos mn) ltac:(lia) ltac:(lia)) as Hd.
  pose proof (Zdigits2_pos (Z.pos mw) ltac:(lia)).
  pose proof (Zdigits2_pos (Z.pos mn) ltac:(lia)).
  assert (Hv : F2Q (Z.pos (mw * mn)) (ew + en)
               == F2Q (Z.pos mw) ew * F2Q (Z.pos mn) en).
  { unfold F2Q. rewrite Pos2Z.inj_mul, inject_Z_mult, pow2_add. ring. }
  assert (Hpre : (ew + en
                  ≤ fexp prec emax (Zdigits2 (Z.pos (mw * mn)) + (ew + en)))%Z)
    by (rewrite Pos2Z.inj_mul, fexp_eq; lia).
  destruct (binary_round_aux_error (Z.pos (mw * mn)) (ew + en) loc_Exact
              (F2Q (Z.pos (mw * mn)) (ew + en)))
    as (H1 & H2 & _); [lia|done|lra| |done|done|].
  { apply F2Q_lt. lia. }
  pose proof (eta_spacing (Z.pos (mw * mn)) (ew + en)
                (F2Q (Z.pos (mw * mn)) (ew + en)) ltac:(lia) Hpre ltac:(lra))
    as Hsp.
  rewrite Hv in H1, H2, Hsp. lra.
Qed.

(** Division by a positive value *)
Lemma div_error x my ey f :
  finite_nonneg x → bounded prec emax my ey = true → finite_nonneg f →
  to_Q x / F2Q (Z.pos my) ey <= to_Q f →
  finite_nonneg (div x (S754_finite false my ey)) ∧
  to_Q (div x (S754_finite false my ey)) - to_Q x / F2Q (Z.pos my) ey
    <= u2 * (to_Q x / F2Q (Z.pos my) ey) + eta ∧
  to_Q x / F2Q (Z.pos my) ey - to_Q (div x (S754_finite false my ey))
    <= u2 * (to_Q x / F2Q (Z.pos my) ey) + eta.
Proof.
  intros Hx Hy Hf Hle. pose proof u2_pos as Hu. pose proof eta_pos as He.
  pose proof (F2Q_pos (Z.pos my) ey ltac:(lia)) as Hypos.
  destruct x as [sx| | |[] mx ex]; try done.
  cbn [to_Q] in *.
  destruct (div_value mx ex my ey Hx Hy) as (_ & Habove).
  destruct (Habove f Hf Hle) as [Hfin _]. split; [done|].
  unfold div, SFdiv in Hfin |- *. cbn [xorb] in *.
  destruct (div_core_spec mx ex my ey)
    as (q & e' & l & Heq & Hq & Hpre & Hlo & Hhi & Hex).
  rewrite Heq in Hfin |- *.
  destruct (binary_round_aux_error q e' l _ Hq Hpre Hlo Hhi Hex Hfin)
    as (H1 & H2 & _).
  pose proof (eta_spacing q e' _ Hq Hpre Hlo) as Hsp. lra.
Qed.

(** [float64(n)] is exact below [2^53]. *)
Lemma of_nat_exact n :
  (Z.of_nat n < 2 ^ 53)%Z →
  finite_nonneg (of_nat n) ∧ to_Q (of_nat n) == inject_Z (Z.of_nat n).
Proof.
  intros Hlt. unfold of_nat.
  destruct (Z.of_nat n) as [|p|p] eqn:Hp; [done| |lia].
  cbn [binary_normalize].
  destruct (binary_round_value p 0) as (_ & _ & Habove).
  destruct (Habove (pow2 53)) as [Hfin _]; [by vm_compute| |].
  { assert (Hv : to_Q (pow2 53) == inject_Z (2 ^ 53)) by (by vm_compute).
    rewrite Hv. unfold F2Q. cbn [Qpower]. rewrite Qmult_1_r.
    rewrite <-Zle_Qle. lia. }
  split; [done|].
  destruct (binary_round_error p 0 Hfin) as (_ & _ & Hex).
  rewrite Hex; [unfold F2Q; cbn [Qpower]; ring|].
  rewrite fexp_eq.
  pose proof (Zdigits2_bounds (Z.pos p) ltac:(lia)) as [Hlo _].
  cbn [Zdigits2] in Hlo.
  assert (Z.pos (digits2_pos p) ≤ 53)%Z; [|lia].
  destruct (Z.le_gt_cases (Z.pos (digits2_pos p)) 53) as [|Hgt]; [done|].
  exfalso.
  assert (2 ^ 53 ≤ 2 ^ (Z.pos (digits2_pos p) - 1))%Z
    by (apply Z.pow_le_mono_r; lia).
  lia.
Qed.
End B64Error.

(** * The mass that the binary64 table routes to an outcome *)

Module B64Mass.
Import B64 B64Round B64Error ExactFacts.
Local Open Scope Qc_scope.


Lemma this_to_Qc x : (this (to_Qc x) == to_Q x)%Q.
Proof. apply Qred_correct. Qed.

(** Linear arithmetic over [Qc] with the values of binary64 terms as
    atoms. *)
Ltac fl_lra :=
  unfold U2 in *;
  unfold Qcminus, Qcdiv, Qcle, Qclt in *;
  repeat match goal with
  | H : @eq Qc _ _ |- _ => apply Qc_eq_Qeq in H
  | |- @eq Qc _ _ => apply Qc_eq_Qeq
  end;
  cbn [this Qcplus Qcmult Qcopp Q2Qc] in *;
  rewrite ?Qred_correct in *; lra.

Lemma U2_pos : 0 < U2.
Proof. done. Qed.

Lemma Eta_pos : 0 < Eta.
Proof.
  unfold Qclt, Eta. cbn [this Q2Qc]. rewrite Qred_correct. apply eta_pos.
Qed.

Lemma Eta_le_U2 : Eta ≤ U2.
Proof.
  unfold Qcle, Eta, U2. cbn [this Q2Qc]. rewrite !Qred_correct.
  change (1 # 4503599627370496)%Q with (2 ^ (-52))%Q. unfold eta.
  by apply pow2_le.
Qed.

Lemma v_nonneg x : finite_nonneg x → 0 ≤ to_Qc x.
Proof.
  intros Hx. unfold Qcle. rewrite this_to_Qc. by apply to_Q_nonneg.
Qed.

Lemma v_leb x y :
  finite_nonneg x → finite_nonneg y →
  SFleb x y = true ↔ to_Qc x ≤ to_Qc y.
Proof.
  intros Hx Hy. unfold Qcle. rewrite !this_to_Qc.
  by apply leb_finite_nonneg.
Qed.

Lemma v_one : to_Qc one = 1.
Proof. apply Qc_is_canon. rewrite this_to_Qc. apply to_Q_one. Qed.

Lemma v_zero s : to_Qc (S754_zero s) = 0.
Proof. by apply Qc_is_canon. Qed.

Lemma add_fin x y f :
  finite_nonneg x → finite_nonneg y → finite_nonneg f →
  to_Qc x + to_Qc y ≤ to_Qc f → finite_nonneg (add x y).
Proof.
  intros Hx Hy Hf Hle. apply (add_finite x y f Hx Hy Hf).
  revert Hle. unfold Qcle. cbn [this Qcplus Q2Qc].
  by rewrite !Qred_correct, !this_to_Qc.
Qed.

Lemma add_err x y :
  finite_nonneg x → finite_nonneg y → finite_nonneg (add x y) →
  to_Qc (add x y) - (to_Qc x + to_Qc y) ≤ U2 * (to_Qc x + to_Qc y) ∧
  (to_Qc x + to_Qc y) - to_Qc (add x y) ≤ U2 * (to_Qc x + to_Qc y).
Proof.
  intros Hx Hy Hfin.
  destruct (add_error x y Hx Hy Hfin) as (H1 & H2).
  unfold u2 in *.
  pose proof (this_to_Qc x). pose proof (this_to_Qc y).
  pose proof (this_to_Qc (add x y)). split; fl_lra.
Qed.

Lemma sub_err a c :
  finite_nonneg a → finite_nonneg c → to_Qc c ≤ to_Qc a →
  finite_nonneg (sub a c) ∧
  to_Qc (sub a c) - (to_Qc a - to_Qc c) ≤ U2 * (to_Qc a - to_Qc c) ∧
  (to_Qc a - to_Qc c) - to_Qc (sub a c) ≤ U2 * (to_Qc a - to_Qc c).
Proof.
  intros Ha Hc Hle.
  destruct (sub_error a c Ha Hc) as (Hfin & H1 & H2).
  { revert Hle. unfold Qcle. by rewrite !this_to_Qc. }
  split; [done|]. unfold u2 in *.
  pose proof (this_to_Qc a). pose proof (this_to_Qc c).
  pose proof (this_to_Qc (sub a c)). clear Hle. split; fl_lra.
Qed.

Lemma mul_err w n :
  finite_nonneg w → finite_nonneg n → to_Qc w * to_Qc n ≤ 1 →
  finite_nonneg (mul w n) ∧
  to_Qc (mul w n) - to_Qc w * to_Qc n ≤ U2 * (to_Qc w * to_Qc n) + Eta ∧
  to_Qc w * to_Qc n - to_Qc (mul w n) ≤ U2 * (to_Qc w * to_Qc n) + Eta.
Proof.
  intros Hw Hn Hle.
  pose proof (this_to_Qc w) as Ew. pose proof (this_to_Qc n) as En.
  pose proof (this_to_Qc (mul w n)) as Em.
  destruct (mul_error w n Hw Hn) as (Hfin & H1 & H2).
  { revert Hle. unfold Qcle. cbn [this Qcmult Q2Qc].
    by rewrite !Qred_correct, Ew, En. }
  split; [done|]. unfold u2 in *. unfold Eta. clear Hle.
  generalize dependent eta. intros eta H1 H2.
  rewrite <-Ew, <-En, <-Em in H1, H2. clear Ew En Em.
  split; fl_lra.
Qed.

Lemma div_err x y f :
  finite_nonneg x → finite_pos y → finite_nonneg f →
  to_Qc x ≤ to_Qc f * to_Qc y →
  finite_nonneg (div x y) ∧
  to_Qc (div x y) - to_Qc x / to_Qc y ≤ U2 * (to_Qc x / to_Qc y) + Eta ∧
  to_Qc x / to_Qc y - to_Qc (div x y) ≤ U2 * (to_Qc x / to_Qc y) + Eta.
Proof.
  intros Hx Hy Hf Hle.
  destruct y as [| | |[] my ey]; try done.
  pose proof (this_to_Qc x) as Ex.
  pose proof (this_to_Qc (S754_finite false my ey)) as Ey.
  pose proof (this_to_Qc (div x (S754_finite false my ey))) as Ed.
  pose proof (this_to_Qc f) as Ef.
  cbn [to_Q] in Ey.
  pose proof (F2Q_pos (Z.pos my) ey ltac:(lia)) as Hypos.
  destruct (div_error x my ey f Hx Hy Hf) as (Hfin & H1 & H2).
  { apply Qle_shift_div_r; [done|].
    revert Hle. unfold Qcle. cbn [this Qcmult Q2Qc].
    by rewrite !Qred_correct, Ex, Ef, Ey. }
  split; [done|]. clear Hle.
  unfold Qcle, Qcminus, Qcdiv, U2, Eta, u2 in *.
  cbn [this Qcplus Qcmult Qcopp Qcinv Q2Qc].
  rewrite !Qred_correct. rewrite Ex, Ey, Ed. unfold Qdiv in H1, H2.
  split; lra.
Qed.

Lemma of_nat_v n :
  (Z.of_nat n < 2 ^ 53)%Z →
  finite_nonneg (of_nat n) ∧ to_Qc (of_nat n) = Qc_of_Z (Z.of_nat n).
Proof.
  intros Hn. destruct (of_nat_exact n Hn) as [Hfin Hv]. split; [done|].
  apply Qc_is_canon. rewrite this_to_Qc, Hv. reflexivity.
Qed.

(** ** Some products *)

Lemma Qc_inv_le_1 (N : Qc) : 1 ≤ N → 0 < / N ∧ / N ≤ 1.
Proof.
  intros HN. assert (H0 : 0 < N) by (eapply Qclt_le_trans; [|exact HN]; done).
  pose proof (Qcinv_pos N H0) as Hi. split; [done|].
  assert (Hm : / N * 1 ≤ / N * N)
    by (apply Qcmult_le_mono_nonneg_l; [by apply Qclt_le_weak|done]).
  rewrite Qcmult_1_r in Hm. rewrite Qcmult_comm, Qcmult_inv_r in Hm; [done|].
  intros ->. done.
Qed.

Lemma Qc_mul_nonneg (a b : Qc) : 0 ≤ a → 0 ≤ b → 0 ≤ a * b.
Proof. apply Qcmult_nonneg_nonneg. Qed.

(** [T (1 - c) <= W <= T (1 + c)] bounds the ratio [W / T]. *)
Lemma ratio_bound (W T c : Qc) :
  0 < T → T - c * T ≤ W → W ≤ T + c * T →
  1 - c ≤ W / T ∧ W / T ≤ 1 + c.
Proof.
  intros HT H1 H2.
  pose proof (Qcinv_pos T HT) as Hi.
  assert (HTi : T * / T = 1) by (apply Qcmult_inv_r; intros ->; done).
  split.
  - assert (Hm : (T - c * T) * / T ≤ W * / T)
      by (apply Qcmult_le_compat_r; [done|by apply Qclt_le_weak]).
    replace ((T - c * T) * / T) with (T * / T - c * (T * / T)) in Hm by ring.
    rewrite HTi in Hm. unfold Qcdiv. clear -Hm. fl_lra.
  - assert (Hm : W * / T ≤ (T + c * T) * / T)
      by (apply Qcmult_le_compat_r; [done|by apply Qclt_le_weak]).
    replace ((T + c * T) * / T) with (T * / T + c * (T * / T)) in Hm by ring.
    rewrite HTi in Hm. unfold Qcdiv. clear -Hm. fl_lra.
Qed.

(** A part [z <= 1] scaled by a ratio close to 1 stays close. *)
Lemma scale_close (z r c : Qc) :
  0 ≤ z → z ≤ 1 → 0 ≤ c → 1 - c ≤ r → r ≤ 1 + c →
  z * r - z ≤ c ∧ z - z * r ≤ c.
Proof.
  intros Hz0 Hz1 Hc Hr1 Hr2.
  assert (H1 : 0 ≤ z * (1 + c - r))
    by (apply Qc_mul_nonneg; [done|]; clear -Hr2; fl_lra).
  assert (H2 : 0 ≤ z * (r - (1 - c)))
    by (apply Qc_mul_nonneg; [done|]; clear -Hr1; fl_lra).
  assert (H3 : 0 ≤ c * (1 - z))
    by (apply Qc_mul_nonneg; [done|]; clear -Hz1; fl_lra).
  replace (z * (1 + c - r)) with (z + c * z - z * r) in H1 by ring.
  replace (z * (r - (1 - c))) with (z * r - z + c * z) in H2 by ring.
  replace (c * (1 - z)) with (c - c * z) in H3 by ring.
  revert H1 H2 H3. generalize (z * r) (c * z). clear. intros zr cz H1 H2 H3.
  split; fl_lra.
Qed.

(** ** Sums *)

Lemma NQ_S (k : nat) : Qc_of_Z (Z.of_nat (S k)) = Qc_of_Z (Z.of_nat k) + 1.
Proof. exact (of_int_S k). Qed.

Lemma NQ_nonneg (k : nat) : 0 ≤ Qc_of_Z (Z.of_nat k).
Proof. rewrite <-Z2Qc_inj_0, <-Z2Qc_inj_le. lia. Qed.

Lemma sumQ_ge_elem (l : list Qc) (x : Qc) :
  Forall (λ y, 0 ≤ y) l → x ∈ l → x ≤ sumQ l.
Proof.
  induction 1 as [|y l Hy Hl IH]; [by intros ?%elem_of_nil|].
  rewrite sumQ_cons. pose proof (sumQ_nonneg l Hl).
  intros [->|Hx%IH]%elem_of_cons; fl_lra.
Qed.

Lemma entry_fmap_v (w : list float64) k :
  to_Qc (entry w k) = entry (to_Qc <$> w) k.
Proof.
  unfold entry. rewrite list_lookup_fmap. by destruct (w !! k).
Qed.

Lemma sumQ_v_entries (w : list float64) :
  sumQ ((λ k, to_Qc (entry w k)) <$> seq 0 (length w)) = sumQ (to_Qc <$> w).
Proof.
  rewrite <-(sumQ_entries (to_Qc <$> w)), length_fmap.
  apply sumQ_ext. intros k _. apply entry_fmap_v.
Qed.

(** ** The sum of the weights *)

Lemma fold_add_ge (l : list float64) (acc : float64) :
  nonneg acc → Forall finite_nonneg l →
  nonneg (fold_left add l acc) ∧ SFleb acc (fold_left add l acc) = true.
Proof.
  intros Hacc Hall. revert acc Hacc.
  induction Hall as [|x l Hx _ IH]; intros acc Hacc; cbn [fold_left].
  - split; [done|by apply leb_refl_nonneg].
  - destruct (add_nonneg acc x Hacc (finite_nonneg_nonneg x Hx))
      as (Hg & Ha & _).
    destruct (IH (add acc x) Hg) as (Hg' & Hle).
    split; [done|exact (leb_trans_nonneg _ _ _ Hacc Hg Hg' Ha Hle)].
Qed.

Lemma nonneg_below_finite x y :
  nonneg x → finite_nonneg y → SFleb x y = true → finite_nonneg x.
Proof.
  intros [Hx| ->] Hy Hle; [done|]. by rewrite leb_inf_l in Hle.
Qed.

(** The sum computed in binary64 is within [2 k 2^-52] of the sum of
    the values, relative to the computed sum. *)
Lemma fold_add_err (l : list float64) (acc : float64) :
  finite_nonneg acc → Forall finite_nonneg l →
  finite_nonneg (fold_left add l acc) →
  let R := to_Qc (fold_left add l acc) in
  let S := to_Qc acc + sumQ (to_Qc <$> l) in
  R - S ≤ Qc_of_Z (Z.of_nat (length l)) * (2 * U2 * R) ∧
  S - R ≤ Qc_of_Z (Z.of_nat (length l)) * (2 * U2 * R).
Proof.
  intros Hacc Hall. revert acc Hacc.
  induction Hall as [|x l Hx Hl IH]; intros acc Hacc Hfin R S;
    cbn [fold_left] in *.
  - unfold R, S. rewrite fmap_nil, sumQ_nil. cbn [length].
    change (Z.of_nat 0) with 0%Z. rewrite Z2Qc_inj_0. split; ring_simplify; fl_lra.
  - assert (Hga : nonneg (add acc x)) by (apply add_nonneg; by left).
    destruct (fold_add_ge l (add acc x) Hga Hl) as [_ Hle].
    pose proof (nonneg_below_finite (add acc x) _ Hga Hfin Hle) as Hfa.
    destruct (IH (add acc x) Hfa Hfin) as [IH1 IH2].
    apply v_leb in Hle; [|done..]. fold R in IH1, IH2, Hle.
    destruct (add_err acc x Hacc Hx Hfa) as (H1 & H2).
    pose proof (v_nonneg _ Hacc) as Ha0. pose proof (v_nonneg _ Hx) as Hx0.
    unfold R, S. fold R. rewrite fmap_cons, sumQ_cons. cbn [length].
    rewrite NQ_S.
    set (k := Qc_of_Z (Z.of_nat (length l))) in *.
    replace ((k + 1) * (2 * U2 * R)) with (k * (2 * U2 * R) + 2 * U2 * R)
      by ring.
    revert IH1 IH2 H1 H2 Hle Ha0 Hx0.
    generalize (k * (2 * U2 * R)) (to_Qc (add acc x)) (to_Qc acc) (to_Qc x)
      (sumQ (to_Qc <$> l)) R.
    clear. intros kr a' a x s R IH1 IH2 H1 H2 Hle Ha0 Hx0. split; fl_lra.
Qed.

Lemma Eta_times (k : Qc) : 0 ≤ k → k ≤ Qc_of_Z (2 ^ 46) → k * Eta ≤ U2.
Proof.
  intros Hk0 Hk. pose proof Eta_pos as He.
  assert (H1 : k * Eta ≤ Qc_of_Z (2 ^ 46) * Eta)
    by (apply Qcmult_le_mono_nonneg_r; [by apply Qclt_le_weak|done]).
  assert (H2 : Qc_of_Z (2 ^ 46) * Eta ≤ U2).
  { unfold Qcle, Eta, U2. cbn [this Qcmult Q2Qc Qc_of_Z].
    rewrite !Qred_correct.
    change (1 # 4503599627370496)%Q with (2 ^ (-52))%Q. unfold eta.
    rewrite pow2_Z by lia. rewrite <-pow2_add. by apply pow2_le. }
  by eapply Qcle_trans.
Qed.

(** The normalized weights, summed *)
Lemma div_sum_err (t : float64) (l : list float64) :
  finite_pos t →
  Forall (λ x, finite_nonneg x ∧ to_Qc x ≤ to_Qc t) l →
  let A := sumQ ((λ x, to_Qc (div x t)) <$> l) in
  let B := sumQ (to_Qc <$> l) / to_Qc t in
  A - B ≤ U2 * B + Qc_of_Z (Z.of_nat (length l)) * Eta ∧
  B - A ≤ U2 * B + Qc_of_Z (Z.of_nat (length l)) * Eta.
Proof.
  intros Ht Hall. induction Hall as [|x l [Hx Hxt] Hl IH]; intros A B.
  - unfold A, B. rewrite !fmap_nil, sumQ_nil. cbn [length].
    change (Z.of_nat 0) with 0%Z. rewrite Z2Qc_inj_0.
    unfold Qcdiv. split; ring_simplify; fl_lra.
  - destruct IH as [IH1 IH2].
    destruct (div_err x t one Hx Ht one_nonneg) as (_ & H1 & H2);
      [by rewrite v_one, Qcmult_1_l|].
    unfold A, B. rewrite !fmap_cons, !sumQ_cons. cbn [length].
    rewrite NQ_S. unfold Qcdiv in *.
    replace ((to_Qc x + sumQ (to_Qc <$> l)) * / to_Qc t)
      with (to_Qc x * / to_Qc t + sumQ (to_Qc <$> l) * / to_Qc t) by ring.
    replace ((Qc_of_Z (Z.of_nat (length l)) + 1) * Eta)
      with (Qc_of_Z (Z.of_nat (length l)) * Eta + Eta) by ring.
    revert IH1 IH2 H1 H2.
    generalize (Qc_of_Z (Z.of_nat (length l)) * Eta) Eta
      (to_Qc x * / to_Qc t) (sumQ (to_Qc <$> l) * / to_Qc t)
      (to_Qc (div x t)) (sumQ ((λ x, to_Qc (div x t)) <$> l)).
    clear. intros ke e xt st d sd IH1 IH2 H1 H2. split; fl_lra.
Qed.

Section Weights.
Context (probs : list float64).
Hypothesis probs_fin : Forall finite_nonneg probs.
Hypothesis probs_pos : Exists finite_pos probs.
Hypothesis tot_fin : finite_nonneg (total probs).
Hypothesis n_small : (Z.of_nat (length probs) < 2 ^ 46)%Z.

Local Notation "'N'" := (Qc_of_Z (Z.of_nat (length probs))).
Local Notation "'T'" := (to_Qc (total probs)).
Local Notation "'W'" := (sumQ (to_Qc <$> probs)).
Local Notation "'wh' k" := (what probs k) (at level 10, k at level 9).

Lemma n_pos : (0 < length probs)%nat.
Proof. destruct probs_pos; cbn; lia. Qed.

Lemma N_ge_1 : 1 ≤ N.
Proof. rewrite <-Z2Qc_inj_1, <-Z2Qc_inj_le. pose proof n_pos. lia. Qed.

Lemma N_le : N ≤ Qc_of_Z (2 ^ 46).
Proof. rewrite <-Z2Qc_inj_le. lia. Qed.

Lemma N_U2 : N * U2 ≤ Q2Qc (1 # 64).
Proof.
  pose proof N_le as H.
  assert (H2 : Qc_of_Z (2 ^ 46) * U2 = Q2Qc (1 # 64))
    by (apply Qc_is_canon; by vm_compute).
  rewrite <-H2. apply Qcmult_le_mono_nonneg_r; [done|exact H].
Qed.

Lemma N_Eta : N * Eta ≤ U2.
Proof. apply Eta_times; [apply NQ_nonneg|apply N_le]. Qed.

Lemma tot_pos : finite_pos (total probs) ∧ 0 < T.
Proof.
  pose proof (B64Run.total_nonzero probs probs_fin probs_pos) as Hnz.
  destruct (total probs) as [s| | |[] m e] eqn:Ht; try done.
  - by destruct (Hnz s).
  - split; [done|]. unfold Qclt. rewrite this_to_Qc. cbn [to_Q].
    apply F2Q_pos. lia.
Qed.

Lemma weights_nonneg : Forall (λ y, 0 ≤ y) (to_Qc <$> probs).
Proof.
  apply Forall_fmap. eapply Forall_impl; [exact probs_fin|].
  intros x Hx. by apply v_nonneg.
Qed.

Lemma W_pos : 0 < W.
Proof.
  apply sumQ_pos; [apply weights_nonneg|].
  apply Exists_fmap. eapply Exists_impl; [exact probs_pos|].
  intros x Hx. cbn. destruct x as [| | |[] m e]; try done.
  unfold Qclt. rewrite this_to_Qc. cbn [to_Q]. apply F2Q_pos. lia.
Qed.

Lemma weight_le_total x : x ∈ probs → finite_nonneg x ∧ to_Qc x ≤ T.
Proof.
  intros Hx. rewrite Forall_forall in probs_fin.
  split; [by apply probs_fin|].
  apply v_leb; [by apply probs_fin|done|].
  by apply (B64Run.total_nonneg probs ltac:(by apply Forall_forall)).
Qed.

(** The computed sum against the sum of the values *)
Lemma total_close :
  T - 2 * U2 * N * T ≤ W ∧ W ≤ T + 2 * U2 * N * T.
Proof.
  destruct (fold_add_err probs zero ltac:(done) probs_fin tot_fin)
    as [H1 H2].
  unfold total in *. cbn [fadd fzero binary64] in *.
  rewrite (v_zero false : to_Qc zero = 0) in H1, H2.
  replace (2 * U2 * N * T) with (N * (2 * U2 * T)) by ring.
  revert H1 H2. generalize (N * (2 * U2 * T)). intros kr H1 H2.
  clear -H1 H2. split; fl_lra.
Qed.

Lemma ratio_close :
  1 - 2 * U2 * N ≤ W / T ∧ W / T ≤ 1 + 2 * U2 * N.
Proof.
  destruct total_close as [H1 H2]. destruct tot_pos as [_ HT].
  by apply ratio_bound.
Qed.

Lemma normalize_at k :
  (k < length probs)%nat →
  ∃ x, x ∈ probs ∧ entry probs k = x ∧
       entry (normalize probs (total probs)) k = div x (total probs).
Proof.
  intros Hk. pose proof (lookup_lt_is_Some_2 _ _ Hk) as [x Hx].
  exists x. split; [by eapply list_elem_of_lookup_2|].
  split; [by apply entry_lookup|].
  unfold entry, normalize. by rewrite list_lookup_fmap, Hx.
Qed.

(** A normalized weight is finite and in [0, 1]. *)
Lemma what_unit k :
  (k < length probs)%nat →
  finite_nonneg (entry (normalize probs (total probs)) k) ∧
  0 ≤ wh k ∧ wh k ≤ 1.
Proof.
  intros Hk. unfold what.
  destruct (normalize_at k Hk) as (x & Hx & _ & ->).
  destruct (weight_le_total x Hx) as [Hfx Hle].
  destruct tot_pos as [Htp HT].
  destruct (div_err x (total probs) one Hfx Htp one_nonneg) as (Hfin & _);
    [by rewrite v_one, Qcmult_1_l|].
  split; [done|]. split; [by apply v_nonneg|].
  rewrite <-v_one. apply v_leb; [done|apply one_nonneg|].
  destruct (total probs) as [| | |[] mt et]; try done.
  destruct x as [sx| | |[] mx ex]; try done.
  apply div_value; [done|done|apply one_nonneg|].
  rewrite to_Q_one. apply Qle_shift_div_r; [apply F2Q_pos; lia|].
  revert Hle. unfold Qcle. rewrite !this_to_Qc. cbn [to_Q]. lra.
Qed.

(** A normalized weight against the exact quotient *)
Lemma what_close k :
  (k < length probs)%nat →
  wh k - normalized (to_Qc <$> probs) k ≤ 2 * U2 * N + 2 * U2 ∧
  normalized (to_Qc <$> probs) k - wh k ≤ 2 * U2 * N + 2 * U2.
Proof.
  intros Hk. unfold what.
  destruct (normalize_at k Hk) as (x & Hx & Hxk & Hw).
  rewrite Hw. unfold normalized. rewrite <-entry_fmap_v, Hxk.
  destruct (weight_le_total x Hx) as [Hfx Hle].
  destruct tot_pos as [Htp HT]. pose proof W_pos as HW.
  destruct (div_err x (total probs) one Hfx Htp one_nonneg) as (_ & H1 & H2);
    [by rewrite v_one, Qcmult_1_l|].
  pose proof (v_nonneg x Hfx) as Hx0.
  assert (HxW : to_Qc x ≤ W).
  { apply sumQ_ge_elem; [apply weights_nonneg|].
    apply list_elem_of_fmap. by exists x. }
  pose proof (Qcinv_pos _ HT) as HiT. pose proof (Qcinv_pos _ HW) as HiW.
  assert (HTi : T * / T = 1) by (apply Qcmult_inv_r; intros E; by rewrite E in HT).
  assert (HWi : W * / W = 1) by (apply Qcmult_inv_r; intros E; by rewrite E in HW).
  set (y := to_Qc x / T) in *. set (z := to_Qc x / W).
  assert (Hy1 : y ≤ 1).
  { unfold y, Qcdiv. rewrite <-HTi.
    apply Qcmult_le_mono_nonneg_r; [by apply Qclt_le_weak|done]. }
  assert (Hy0 : 0 ≤ y)
    by (unfold y, Qcdiv; apply Qc_mul_nonneg; [done|by apply Qclt_le_weak]).
  assert (Hz1 : z ≤ 1).
  { unfold z, Qcdiv. rewrite <-HWi.
    apply Qcmult_le_mono_nonneg_r; [by apply Qclt_le_weak|done]. }
  assert (Hz0 : 0 ≤ z)
    by (unfold z, Qcdiv; apply Qc_mul_nonneg; [done|by apply Qclt_le_weak]).
  assert (Hzy : z * (W / T) = y).
  { unfold z, y, Qcdiv.
    replace (to_Qc x * / W * (W * / T)) with (to_Qc x * / T * (W * / W))
      by ring. rewrite HWi. ring. }
  destruct ratio_close as [Hr1 Hr2].
  destruct (scale_close z (W / T) (2 * U2 * N) Hz0 Hz1) as [Hs1 Hs2];
    [|done|done|].
  { pose proof (NQ_nonneg (length probs)) as HN. clear -HN. fl_lra. }
  rewrite Hzy in Hs1, Hs2.
  pose proof Eta_le_U2 as He. pose proof Eta_pos as He0.
  revert H1 H2 Hs1 Hs2 Hy1 Hy0 He He0.
  generalize (to_Qc (div x (total probs))) y z Eta (2 * U2 * N).
  clear. intros d y z e cN H1 H2 Hs1 Hs2 Hy1 Hy0 He He0. split; fl_lra.
Qed.

(** The normalized weights sum to almost 1. *)
Lemma what_sum :
  let E0 := sumQ ((λ k, wh k) <$> seq 0 (length probs)) - 1 in
  E0 ≤ 2 * U2 * N + Q2Qc 3 * U2 ∧ - E0 ≤ 2 * U2 * N + Q2Qc 3 * U2.
Proof.
  intros E0. unfold E0. clear E0.
  assert (Hsum : sumQ ((λ k, wh k) <$> seq 0 (length probs))
                 = sumQ ((λ x, to_Qc (div x (total probs))) <$> probs)).
  { unfold what.
    replace (length probs) with (length (normalize probs (total probs)))
      by (unfold normalize; by rewrite length_fmap).
    rewrite sumQ_v_entries. unfold normalize.
    by rewrite <-list_fmap_compose. }
  rewrite Hsum. clear Hsum.
  destruct tot_pos as [Htp HT].
  destruct (div_sum_err (total probs) probs Htp) as [H1 H2].
  { apply Forall_forall. intros x Hx. by apply weight_le_total. }
  destruct ratio_close as [Hr1 Hr2]. pose proof N_Eta as HNE.
  pose proof N_U2 as HNU.
  revert H1 H2 Hr1 Hr2 HNE HNU.
  generalize (sumQ ((λ x, to_Qc (div x (total probs))) <$> probs)).
  generalize (W / T). generalize (N * Eta). generalize N.
  clear. intros n ne r A H1 H2 Hr1 Hr2 HNE HNU. split; fl_lra.
Qed.

(** ** One iteration of the pairing loop *)

Lemma Nf_v :
  finite_nonneg (of_nat (length probs)) ∧ to_Qc (of_nat (length probs)) = N.
Proof. apply of_nat_v. lia. Qed.

Lemma N_inv : 0 < / N ∧ / N ≤ 1 ∧ N * / N = 1.
Proof.
  pose proof N_ge_1 as HN. destruct (Qc_inv_le_1 N HN) as [H1 H2].
  split_and!; [done..|]. apply Qcmult_inv_r. intros E. by rewrite E in HN.
Qed.

Lemma avg_close :
  finite_nonneg (div one (of_nat (length probs))) ∧
  to_Qc (div one (of_nat (length probs))) - / N ≤ 2 * U2 ∧
  / N - to_Qc (div one (of_nat (length probs))) ≤ 2 * U2.
Proof.
  destruct (B64Edge.of_nat_finite (length probs) n_pos ltac:(lia))
    as (mN & eN & HNf & Hb & _).
  destruct Nf_v as [_ HvN]. destruct N_inv as (Hi0 & Hi1 & _).
  pose proof N_ge_1 as HN1.
  destruct (div_err one (of_nat (length probs)) one one_nonneg)
    as (Hfin & H1 & H2); [by rewrite HNf|apply one_nonneg| |].
  { rewrite v_one, HvN, Qcmult_1_l. done. }
  split; [done|]. rewrite v_one, HvN in H1, H2. unfold Qcdiv in H1, H2.
  rewrite Qcmult_1_l in H1, H2.
  pose proof Eta_le_U2 as He.
  revert H1 H2 Hi0 Hi1 He.
  generalize (to_Qc (div one (of_nat (length probs)))) (/ N) Eta.
  clear. intros a iN e H1 H2 Hi0 Hi1 He. split; fl_lra.
Qed.

Lemma div_N_small (x iN B : Qc) :
  0 ≤ iN → iN ≤ 1 → x ≤ B → - B ≤ x → x * iN ≤ B ∧ - B ≤ x * iN.
Proof.
  intros Hi0 Hi1 H1 H2.
  assert (HB : 0 ≤ B) by (clear -H1 H2; fl_lra).
  assert (P1 : 0 ≤ (B - x) * iN)
    by (apply Qc_mul_nonneg; [|done]; clear -H1; fl_lra).
  assert (P2 : 0 ≤ (B + x) * iN)
    by (apply Qc_mul_nonneg; [|done]; clear -H2; fl_lra).
  assert (P3 : 0 ≤ B * (1 - iN))
    by (apply Qc_mul_nonneg; [done|]; clear -Hi1; fl_lra).
  replace ((B - x) * iN) with (B * iN - x * iN) in P1 by ring.
  replace ((B + x) * iN) with (B * iN + x * iN) in P2 by ring.
  replace (B * (1 - iN)) with (B - B * iN) in P3 by ring.
  revert P1 P2 P3. generalize (x * iN) (B * iN). clear.
  intros xi bi P1 P2 P3. split; fl_lra.
Qed.

Lemma v_pow2_2 : finite_nonneg (pow2 2) ∧ to_Qc (pow2 2) = 2 + 2.
Proof. split; [by vm_compute|]. apply Qc_is_canon. by vm_compute. Qed.

(** The arithmetic of one iteration: what is written for [less] and
    what becomes of the weight of [more]. *)
Lemma iteration_err (ql qm : float64) :
  finite_nonneg ql → finite_nonneg qm →
  SFleb (div one (of_nat (length probs))) ql = false →
  SFleb (div one (of_nat (length probs))) qm = true →
  to_Qc qm ≤ 2 →
  let p' := mul ql (of_nat (length probs)) in
  let q' := sub (add qm ql) (div one (of_nat (length probs))) in
  finite_nonneg p' ∧ to_Qc p' ≤ 1 ∧ finite_nonneg q' ∧
  (to_Qc p' / N - to_Qc ql ≤ 2 * U2 ∧ to_Qc ql - to_Qc p' / N ≤ 2 * U2) ∧
  (to_Qc q' - to_Qc qm + (1 - to_Qc p') / N ≤ step_err ∧
   - (to_Qc q' - to_Qc qm + (1 - to_Qc p') / N) ≤ step_err) ∧
  (to_Qc q' - to_Qc qm - to_Qc ql + 1 / N ≤ step_err ∧
   - (to_Qc q' - to_Qc qm - to_Qc ql + 1 / N) ≤ step_err).
Proof.
  intros Hql Hqm Hsm Hlg Hqm2 p' q'.
  destruct avg_close as (Havg & Ha1 & Ha2).
  destruct (average_spec _ n_pos) as [_ Hbelow].
  destruct (Hbelow ql (finite_nonneg_nonneg _ Hql) Hsm) as (HNf & _ & Hprod).
  destruct Nf_v as [_ HvN]. destruct N_inv as (Hi0 & Hi1 & HNi).
  pose proof N_ge_1 as HN1.
  pose proof (v_nonneg _ Hql) as Hql0. pose proof (v_nonneg _ Hqm) as Hqm0.
  pose proof (v_nonneg _ Havg) as Ha0.
  assert (HprodQ : to_Qc ql * N < 1).
  { rewrite <-HvN. unfold Qclt. cbn [this Qcmult Q2Qc].
    by rewrite Qred_correct, !this_to_Qc. }
  assert (Hql1 : to_Qc ql ≤ to_Qc ql * N).
  { rewrite <-(Qcmult_1_r (to_Qc ql)) at 1.
    by apply Qcmult_le_mono_nonneg_l. }
  (* the entry written for [less] *)
  destruct (mul_err ql (of_nat (length probs)) Hql HNf) as (Hp' & Hm1 & Hm2);
    [rewrite HvN; by apply Qclt_le_weak|].
  fold p' in Hp', Hm1, Hm2. rewrite HvN in Hm1, Hm2.
  assert (Hp1 : to_Qc p' ≤ 1).
  { rewrite <-v_one. apply v_leb; [done|apply one_nonneg|].
    apply mul_unit; [done..|]. apply Qlt_le_weak, Hprod. }
  pose proof Eta_le_U2 as He. pose proof Eta_pos as He0.
  destruct (div_N_small (to_Qc p' - to_Qc ql * N) (/ N) (2 * U2))
    as [Hd1 Hd2]; [by apply Qclt_le_weak|done|..].
  { revert Hm1 HprodQ Hql1 Hql0 He. generalize (to_Qc ql * N) (to_Qc p') Eta.
    clear. intros. fl_lra. }
  { revert Hm2 HprodQ Hql1 Hql0 He. generalize (to_Qc ql * N) (to_Qc p') Eta.
    clear. intros. fl_lra. }
  replace ((to_Qc p' - to_Qc ql * N) * / N)
    with (to_Qc p' * / N - to_Qc ql * (N * / N)) in Hd1, Hd2 by ring.
  rewrite HNi, Qcmult_1_r in Hd1, Hd2.
  (* the new weight of [more] *)
  destruct v_pow2_2 as [Hf4 Hv4].
  assert (Hsum_fin : finite_nonneg (add qm ql)).
  { apply (add_fin qm ql (pow2 2)); [done..|]. rewrite Hv4.
    revert HprodQ Hql1 Hqm2. generalize (to_Qc ql * N) (to_Qc ql) (to_Qc qm).
    clear. intros. fl_lra. }
  destruct (add_err qm ql Hqm Hql Hsum_fin) as [Hs1 Hs2].
  destruct (add_nonneg qm ql (finite_nonneg_nonneg _ Hqm)
              (finite_nonneg_nonneg _ Hql)) as (_ & Hle & _).
  apply v_leb in Hle; [|done..]. apply v_leb in Hlg; [|done..].
  destruct (sub_err (add qm ql) (div one (of_nat (length probs)))
              Hsum_fin Havg) as (Hq' & Hb1 & Hb2);
    [by eapply Qcle_trans|].
  fold q' in Hq', Hb1, Hb2.
  split; [done|]. split; [done|]. split; [done|].
  unfold step_err, Qcdiv.
  replace ((1 - to_Qc p') * / N) with (/ N - to_Qc p' * / N) by ring.
  rewrite Qcmult_1_l.
  revert Hd1 Hd2 Hs1 Hs2 Hb1 Hb2 Ha1 Ha2 Hle Hlg Hqm2 Hql0 Hqm0 Ha0
         HprodQ Hql1.
  generalize (to_Qc p' * / N) (/ N) (to_Qc q') (to_Qc (add qm ql))
    (to_Qc (div one (of_nat (length probs)))) (to_Qc ql * N)
    (to_Qc ql) (to_Qc qm).
  clear. intros pN iN vq' vs va vqlN vql vqm. intros. split_and!; fl_lra.
Qed.

(** ** The invariant *)

Lemma flow_term_nonneg (b : builder float64) (k i : nat) :
  (∀ i, (i < length probs)%nat → i ∉ small b ++ large b →
        finite_nonneg (entry (b_probability b) i)
        ∧ to_Qc (entry (b_probability b) i) ≤ 1) →
  (i < length probs)%nat →
  0 ≤ (if decide ((i ∉ small b ++ large b) ∧ b_alias b !! i = Some k)
       then (1 - to_Qc (entry (b_probability b) i)) / N else 0).
Proof.
  intros Hprob Hi. destruct (decide _) as [[Hni _]|]; [|done].
  destruct (Hprob i Hi Hni) as [_ Hle]. destruct N_inv as (Hi0 & _).
  unfold Qcdiv. apply Qc_mul_nonneg; [|by apply Qclt_le_weak].
  clear -Hle. fl_lra.
Qed.

Lemma fmass_ge (b : builder float64) (k : nat) :
  (∀ i, (i < length probs)%nat → i ∉ small b ++ large b →
        finite_nonneg (entry (b_probability b) i)
        ∧ to_Qc (entry (b_probability b) i) ≤ 1) →
  k ∈ small b ++ large b →
  to_Qc (entry (probs2 b) k) ≤ fmass (length probs) b k.
Proof.
  intros Hprob Hk. unfold fmass. rewrite decide_True by done.
  match goal with |- _ ≤ _ + sumQ ?l => assert (Hnn : 0 ≤ sumQ l) end.
  { apply sumQ_nonneg, Forall_fmap, Forall_forall.
    intros i [_ Hi]%elem_of_seq. by apply flow_term_nonneg. }
  revert Hnn. generalize (to_Qc (entry (probs2 b) k)).
  match goal with |- ∀ _, 0 ≤ sumQ ?l → _ => generalize (sumQ l) end.
  clear. intros fl q H. fl_lra.
Qed.

Lemma steps_small (j : nat) :
  (j ≤ length probs)%nat →
  Qc_of_Z (Z.of_nat j) * step_err ≤ Q2Qc (11 # 64).
Proof.
  intros Hj. pose proof N_U2 as HNU.
  assert (Hjn : Qc_of_Z (Z.of_nat j) ≤ N).
  { rewrite <-Z2Qc_inj_le. lia. }
  assert (Hs0 : 0 ≤ step_err) by done.
  pose proof (Qcmult_le_mono_nonneg_r _ _ step_err Hs0 Hjn) as Hm.
  unfold step_err in *. revert Hm HNU.
  generalize (Qc_of_Z (Z.of_nat j) * (Q2Qc 11 * U2)).
  replace (N * (Q2Qc 11 * U2)) with (Q2Qc 11 * (N * U2)) by ring.
  generalize (N * U2). clear. intros nu js Hm HNU. fl_lra.
Qed.

Lemma paired_with_float j b less s1 more l1 :
  wf (length probs) b → b64_inv probs b → float_inv probs j b →
  (j < length probs)%nat →
  small b = less :: s1 → large b = more :: l1 →
  float_inv probs (S j)
    (paired_with probs (fdiv fone (of_int (length probs))) b less s1 more l1).
Proof.
  intros Hwf Hb64 [Hfin Hprob Hmass Hexc] Hj Hs Hl.
  pose proof (wf_probs2 _ _ Hwf) as Hlen.
  pose proof (wf_probability _ _ Hwf) as Hlenp.
  pose proof (wf_alias _ _ Hwf) as Hlena.
  pose proof (wf_nodup _ _ Hwf) as Hnd.
  pose proof (wf_range _ _ Hwf) as Hr. clear Hwf.
  pose proof (b64_small _ _ Hb64 less ltac:(rewrite Hs; by left)) as Hsm.
  pose proof (b64_large _ _ Hb64 more ltac:(rewrite Hl; by left)) as Hlg.
  clear Hb64.
  assert (Hwl : ∀ i, i ∈ small b ++ large b
                     ↔ i = less ∨ i ∈ s1 ++ more :: l1).
  { intros i. rewrite Hs, Hl. cbn [app]. apply elem_of_cons. }
  rewrite Hs, Hl in Hnd.
  assert (Hmore_in : more ∈ s1 ++ more :: l1)
    by (apply elem_of_app; right; by left).
  assert (Hless : less ∉ s1 ++ more :: l1) by by apply NoDup_cons_1_1 in Hnd.
  assert (Hlm : less ≠ more) by (by intros ->).
  assert (Hmore : more ∉ s1 ++ l1).
  { apply NoDup_cons_1_2, NoDup_app in Hnd as (_ & Hd & Hn2).
    apply NoDup_cons_1_1 in Hn2.
    intros [Hm|Hm]%elem_of_app; [|done]. apply (Hd more Hm). by left. }
  assert (Hlessn : (less < length probs)%nat) by (apply Hr, Hwl; by left).
  assert (Hmoren : (more < length probs)%nat) by (apply Hr, Hwl; by right).
  assert (Hless_in : less ∈ small b ++ large b) by (apply Hwl; by left).
  assert (Hmore_in' : more ∈ small b ++ large b) by (apply Hwl; by right).
  clear Hnd Hr.
  set (avg := fdiv fone (of_int (length probs))) in *.
  set (ql := entry (probs2 b) less) in *.
  set (qm := entry (probs2 b) more) in *.
  set (b' := paired_with probs avg b less s1 more l1).
  set (wm' := sub (add qm ql) (div one (of_nat (length probs)))).
  set (p' := mul ql (of_nat (length probs))).
  assert (Hw' : probs2 b' = <[more := wm']> (probs2 b)) by done.
  assert (Hprob' : b_probability b' = <[less := p']> (b_probability b))
    by done.
  assert (Halias' : b_alias b' = <[less := more]> (b_alias b)) by done.
  assert (Hsmall' : small b' = if fge wm' avg then s1 else more :: s1)
    by (unfold b', paired_with; cbn [small]; rewrite length_insert, Hlen;
        reflexivity).
  assert (Hlarge' : large b' = if fge wm' avg then more :: l1 else l1)
    by (unfold b', paired_with; cbn [large]; rewrite length_insert, Hlen;
        reflexivity).
  assert (Hperm' : small b' ++ large b' ≡ₚ more :: (s1 ++ l1)).
  { rewrite Hsmall', Hlarge'. destruct (fge wm' avg); [|done].
    by rewrite <-Permutation_middle. }
  assert (Hwl' : ∀ i, i ∈ small b' ++ large b' ↔ i ∈ s1 ++ more :: l1).
  { intros i. by rewrite Hperm', (Permutation_middle s1 l1 more). }
  assert (Hmore' : entry (probs2 b') more = wm')
    by (rewrite Hw'; apply entry_insert_eq; lia).
  assert (Hother' : ∀ i, i ≠ more → entry (probs2 b') i = entry (probs2 b) i)
    by (intros i Hi; rewrite Hw'; by apply entry_insert_ne).
  assert (Hpless' : entry (b_probability b') less = p')
    by (rewrite Hprob'; apply entry_insert_eq; lia).
  assert (Hpother' : ∀ i, i ≠ less →
            entry (b_probability b') i = entry (b_probability b) i)
    by (intros i Hi; rewrite Hprob'; by apply entry_insert_ne).
  assert (Hlen' : length (probs2 b') = length probs)
    by (rewrite Hw', length_insert; done).
  assert (Hin_other : ∀ i, i ≠ less →
            (i ∈ small b' ++ large b' ↔ i ∈ small b ++ large b)).
  { intros i Hi. rewrite Hwl', Hwl. clear -Hi. tauto. }
  assert (Hless_out : less ∉ small b' ++ large b') by (by rewrite Hwl').
  assert (Hmore_in2 : more ∈ small b' ++ large b') by (by rewrite Hwl').
  clearbody b'.
  (* the arithmetic *)
  pose proof (Hfin less Hless_in) as Hql. pose proof (Hfin more Hmore_in') as Hqm.
  fold ql in Hql. fold qm in Hqm.
  assert (Hqm2 : to_Qc qm ≤ 2).
  { pose proof (fmass_ge b more Hprob Hmore_in') as Hge. fold qm in Hge.
    destruct (Hmass more Hmoren) as [Hm1 _].
    destruct (what_unit more Hmoren) as (_ & _ & Hw1).
    pose proof (steps_small j ltac:(lia)) as Hst.
    revert Hge Hm1 Hw1 Hst.
    generalize (fmass (length probs) b more) (wh more)
      (Qc_of_Z (Z.of_nat j) * step_err) (to_Qc qm).
    clear. intros fm w js q Hge Hm1 Hw1 Hst. fl_lra. }
  destruct (iteration_err ql qm Hql Hqm Hsm Hlg Hqm2)
    as (Hp' & Hp1 & Hq' & [D1 D2] & [M1 M2] & [X1 X2]).
  fold p' wm' in Hp', Hp1, Hq', D1, D2, M1, M2, X1, X2.
  split.
  - (* working weights on the worklists are finite *)
    intros k Hk. destruct (decide (k = more)) as [->|Hkm].
    + by rewrite Hmore'.
    + rewrite Hother' by done. apply Hfin, Hwl. right. by apply Hwl'.
  - (* written entries are in [0, 1] *)
    intros k Hk Hni. destruct (decide (k = less)) as [->|Hkl].
    + by rewrite Hpless'.
    + rewrite Hpother' by done. apply Hprob; [done|].
      by rewrite <-(Hin_other k Hkl).
  - (* the mass routed to [k] *)
    intros k Hk. destruct (Hmass k Hk) as [IH1 IH2].
    assert (Hflow :
      sumQ ((λ i, if decide ((i ∉ small b' ++ large b')
                             ∧ b_alias b' !! i = Some k)
                  then (1 - to_Qc (entry (b_probability b') i)) / N else 0)
            <$> seq 0 (length probs))
      = sumQ ((λ i, if decide ((i ∉ small b ++ large b)
                               ∧ b_alias b !! i = Some k)
                    then (1 - to_Qc (entry (b_probability b) i)) / N else 0)
              <$> seq 0 (length probs))
        + (if decide (k = more) then (1 - to_Qc p') / N else 0)).
    { apply (sumQ_update _ _ _ less).
      - apply NoDup_seq.
      - apply elem_of_seq. lia.
      - intros i _ Hil. rewrite (Hpother' i Hil), Halias'.
        rewrite list_lookup_insert_ne by done.
        apply decide_ext. rewrite (Hin_other i Hil). done.
      - rewrite Hpless', Halias', list_lookup_insert_eq by lia.
        rewrite (decide_False (P := _ ∧ b_alias b !! less = _))
          by (by intros [Hni _]).
        destruct (decide (k = more)) as [->|Hkm].
        + rewrite decide_True by done. ring.
        + rewrite decide_False; [ring|]. intros [_ [=]]. done. }
    unfold fmass in *. rewrite Hflow. clear Hflow.
    rewrite NQ_S.
    replace ((Qc_of_Z (Z.of_nat j) + 1) * step_err)
      with (Qc_of_Z (Z.of_nat j) * step_err + step_err) by ring.
    assert (Hs0 : 0 ≤ step_err) by done.
    destruct (decide (k = more)) as [->|Hkm];
      [|destruct (decide (k = less)) as [->|Hkl]].
    + rewrite (decide_True (P := more ∈ small b ++ large b)) in IH1, IH2
        by done.
      rewrite (decide_True (P := more ∈ small b' ++ large b')) by done.
      rewrite Hmore'. fold qm in IH1, IH2.
      revert IH1 IH2 M1 M2.
      match goal with |- context [sumQ ?l] => generalize (sumQ l) end.
      generalize (Qc_of_Z (Z.of_nat j) * step_err) step_err (wh more)
        ((1 - to_Qc p') / N) (to_Qc wm') (to_Qc qm).
      clear. intros. split; fl_lra.
    + rewrite (decide_True (P := less ∈ small b ++ large b)) in IH1, IH2
        by done.
      rewrite (decide_False (P := less ∈ small b' ++ large b')) by done.
      rewrite Hpless'. fold ql in IH1, IH2.
      revert IH1 IH2 D1 D2 Hs0. unfold step_err.
      match goal with |- context [sumQ ?l] => generalize (sumQ l) end.
      generalize (Qc_of_Z (Z.of_nat j) * (Q2Qc 11 * U2)) (wh less)
        (to_Qc p' / N) (to_Qc ql).
      clear. intros. split; fl_lra.
    + rewrite (decide_ext _ _ _ _ (Hin_other k Hkl)).
      rewrite (Hother' k Hkm), (Hpother' k Hkl).
      revert IH1 IH2 Hs0.
      match goal with |- context [sumQ ?l] => generalize (sumQ l) end.
      generalize (Qc_of_Z (Z.of_nat j) * step_err) step_err (wh k).
      match goal with |- context [if ?c then ?x else ?y] =>
        generalize (if c then x else y) end.
      clear. intros. split; fl_lra.
  - (* the excess *)
    intros E0. destruct Hexc as [IH1 IH2]. fold E0 in IH1, IH2.
    unfold fexcess in *.
    rewrite (sumQ_perm _ _ (fmap_Permutation _ _ _ Hperm')).
    assert (Hold : small b ++ large b ≡ₚ less :: more :: (s1 ++ l1)).
    { rewrite Hs, Hl. cbn [app]. apply Permutation_skip.
      by rewrite <-Permutation_middle. }
    rewrite (sumQ_perm _ _ (fmap_Permutation _ _ _ Hold)) in IH1, IH2.
    rewrite !fmap_cons, !sumQ_cons in IH1, IH2.
    rewrite fmap_cons, sumQ_cons, Hmore'.
    rewrite (sumQ_ext (λ k, to_Qc (entry (probs2 b') k) - 1 / N)
                      (λ k, to_Qc (entry (probs2 b) k) - 1 / N));
      [|intros i Hi; rewrite Hother'; [done|intros ->; by apply Hmore]].
    fold ql qm in IH1, IH2. rewrite NQ_S.
    replace ((Qc_of_Z (Z.of_nat j) + 1) * step_err)
      with (Qc_of_Z (Z.of_nat j) * step_err + step_err) by ring.
    revert IH1 IH2 X1 X2.
    match goal with |- context [sumQ ?l] => generalize (sumQ l) end.
    generalize (Qc_of_Z (Z.of_nat j) * step_err) step_err E0 (1 / N)
      (to_Qc wm') (to_Qc ql) (to_Qc qm).
    clear. intros. split; fl_lra.
Qed.

Lemma populated_perm b0 :
  populated probs = Ret b0 → small b0 ++ large b0 ≡ₚ seq 0 (length probs).
Proof.
  intros Hb0.
  assert (Hne : probs ≠ []) by (intros E; pose proof n_pos as H;
    rewrite E in H; cbn in H; lia).
  pose proof (populated_wf probs b0 Hne Hb0) as Hwf.
  apply NoDup_Permutation; [apply Hwf|apply NoDup_seq|].
  intros i. rewrite elem_of_seq. split.
  - intros Hi%(wf_range _ _ Hwf). lia.
  - intros [_ Hi]. by apply (populated_all_listed probs b0 i Hb0).
Qed.

Lemma populated_float b0 :
  populated probs = Ret b0 → float_inv probs 0 b0.
Proof.
  intros Hb0.
  assert (Hne : probs ≠ []) by (intros E; pose proof n_pos as H;
    rewrite E in H; cbn in H; lia).
  pose proof (populated_wf probs b0 Hne Hb0) as Hwf.
  assert (Hw : probs2 b0 = normalize probs (total probs)).
  { pose proof Hb0 as Hb0'. rewrite populated_spec in Hb0'.
    by injection Hb0' as <-. }
  assert (Hall : ∀ i, (i < length probs)%nat → i ∈ small b0 ++ large b0)
    by (intros i; apply (populated_all_listed probs b0 i Hb0)).
  split.
  - intros k Hk. rewrite Hw. apply what_unit.
    apply (wf_range _ _ Hwf), Hk.
  - intros k Hk Hni. by destruct (Hni (Hall k Hk)).
  - intros k Hk. unfold fmass. rewrite decide_True by by apply Hall.
    rewrite (sumQ_ext _ (λ _, 0)).
    + rewrite Hw. fold (wh k).
      assert (Hz : sumQ ((λ _ : nat, 0) <$> seq 0 (length probs)) = 0).
      { generalize (seq 0 (length probs)). intros l.
        induction l as [|? l IH]; [done|].
        rewrite fmap_cons, sumQ_cons, IH. ring. }
      rewrite Hz. change (Z.of_nat 0) with 0%Z. rewrite Z2Qc_inj_0.
      split; ring_simplify; done.
    + intros i [_ Hi]%elem_of_seq. rewrite decide_False; [done|].
      intros [Hni _]. apply Hni, Hall. lia.
  - intros E0. unfold E0, fexcess. clear E0.
    rewrite (sumQ_perm _ _ (fmap_Permutation _ _ _ (populated_perm b0 Hb0))).
    rewrite (sumQ_minus_const (λ k, to_Qc (entry (probs2 b0) k))).
    rewrite length_seq, Hw. cbn [of_int exact].
    destruct N_inv as (_ & _ & HNi). unfold Qcdiv. rewrite Qcmult_1_l, HNi.
    fold (what probs).
    change (Z.of_nat 0) with 0%Z. rewrite Z2Qc_inj_0.
    change (sumQ (what probs <$> seq 0 (length probs)))
      with (sumQ ((λ k, wh k) <$> seq 0 (length probs))).
    split; ring_simplify; done.
Qed.

Lemma pair_run_float i k b b' :
  pair_run probs (fdiv fone (of_int (length probs))) k b b' →
  wf (length probs) b → b64_inv probs b → float_inv probs i b →
  (i + k ≤ length probs)%nat →
  float_inv probs (i + k) b'.
Proof.
  intros Hrun. revert i.
  induction Hrun as [b|k b b' b'' Hb Hbody _ IH]; intros i Hwf Hb64 Hfi Hik.
  - by rewrite Nat.add_0_r.
  - apply pair_body_Ret_inv in Hbody
      as (less & s1 & more & l1 & Hs & Hl & _ & _ & _ & _ & ->).
    replace (i + S k)%nat with (S i + k)%nat by lia.
    apply IH; [by apply paired_with_wf| | |lia].
    + by apply (B64Run.paired_with_b64 probs n_pos).
    + apply paired_with_float; [done..|lia|done|done].
Qed.

(** ** What remains on the worklists weighs almost [1/n] *)

Lemma sum_ge_all (f : nat → Qc) (l : list nat) (β : Qc) :
  (∀ j, j ∈ l → - β ≤ f j) →
  - (Qc_of_Z (Z.of_nat (length l)) * β) ≤ sumQ (f <$> l).
Proof.
  induction l as [|x l IH]; intros Hf.
  - cbn [length]. change (Z.of_nat 0) with 0%Z. rewrite Z2Qc_inj_0.
    rewrite fmap_nil, sumQ_nil. ring_simplify. done.
  - rewrite fmap_cons, sumQ_cons. cbn [length]. rewrite NQ_S.
    pose proof (Hf x ltac:(left)) as Hx.
    pose proof (IH ltac:(intros j Hj; apply Hf; by right)) as IH'.
    replace ((Qc_of_Z (Z.of_nat (length l)) + 1) * β)
      with (Qc_of_Z (Z.of_nat (length l)) * β + β) by ring.
    revert Hx IH'.
    generalize (Qc_of_Z (Z.of_nat (length l)) * β) (f x) (sumQ (f <$> l)).
    clear. intros. fl_lra.
Qed.

Lemma sum_elem_upper (f : nat → Qc) (l : list nat) (β : Qc) (k : nat) :
  0 ≤ β → (∀ j, j ∈ l → - β ≤ f j) → k ∈ l →
  f k ≤ sumQ (f <$> l) + Qc_of_Z (Z.of_nat (length l)) * β.
Proof.
  intros Hβ Hf (l1 & l2 & ->)%list_elem_of_split.
  rewrite fmap_app, fmap_cons, sumQ_app, sumQ_cons.
  pose proof (sum_ge_all f l1 β ltac:(intros j Hj; apply Hf, elem_of_app;
    by left)) as H1.
  pose proof (sum_ge_all f l2 β ltac:(intros j Hj; apply Hf, elem_of_app;
    right; by right)) as H2.
  rewrite length_app. cbn [length].
  rewrite Nat2Z.inj_add, Z2Qc_inj_add, NQ_S.
  replace ((Qc_of_Z (Z.of_nat (length l1))
            + (Qc_of_Z (Z.of_nat (length l2)) + 1)) * β)
    with (Qc_of_Z (Z.of_nat (length l1)) * β
          + Qc_of_Z (Z.of_nat (length l2)) * β + β) by ring.
  revert H1 H2 Hβ.
  generalize (Qc_of_Z (Z.of_nat (length l1)) * β)
    (Qc_of_Z (Z.of_nat (length l2)) * β) (f k) (sumQ (f <$> l1))
    (sumQ (f <$> l2)).
  clear. intros. fl_lra.
Qed.

Lemma sum_elem_lower (f : nat → Qc) (l : list nat) (β : Qc) (k : nat) :
  0 ≤ β → (∀ j, j ∈ l → f j ≤ β) → k ∈ l →
  sumQ (f <$> l) - Qc_of_Z (Z.of_nat (length l)) * β ≤ f k.
Proof.
  intros Hβ Hf Hk.
  pose proof (sum_elem_upper (λ j, - f j) l β k Hβ) as H.
  assert (Hneg : sumQ ((λ j, - f j) <$> l) = - sumQ (f <$> l)).
  { clear. induction l as [|x l IH]; [done|].
    rewrite !fmap_cons, !sumQ_cons, IH. ring. }
  rewrite Hneg in H.
  assert (Hf' : ∀ j, j ∈ l → - β ≤ - f j).
  { intros j Hj. specialize (Hf j Hj). clear -Hf. fl_lra. }
  specialize (H Hf' Hk). revert H.
  generalize (Qc_of_Z (Z.of_nat (length l)) * β) (f k) (sumQ (f <$> l)).
  clear. intros. fl_lra.
Qed.

Lemma remaining_close j b k :
  wf (length probs) b → b64_inv probs b → float_inv probs j b →
  pairing b = false → (j ≤ length probs)%nat →
  k ∈ small b ++ large b →
  let t := to_Qc (entry (probs2 b) k) - 1 / N in
  t ≤ Qc_of_Z (Z.of_nat j) * step_err + Q2Qc 7 * U2 * N ∧
  - t ≤ Qc_of_Z (Z.of_nat j) * step_err + Q2Qc 7 * U2 * N.
Proof.
  intros Hwf Hb64 Hfi Hexit Hj Hk t.
  destruct (fi_excess _ _ _ Hfi) as [X1 X2].
  destruct what_sum as [E1 E2].
  destruct avg_close as (Havg & A1 & A2).
  pose proof N_ge_1 as HN1. pose proof N_U2 as HNU.
  assert (HU : Qc_of_Z (Z.of_nat (length (small b ++ large b))) ≤ N).
  { rewrite <-Z2Qc_inj_le. apply inj_le.
    pose proof (wf_nodup _ _ Hwf) as Hnd.
    pose proof (wf_range _ _ Hwf) as Hr.
    assert (Hsub : (length (small b ++ large b)
                    ≤ length (seq 0 (length probs)))%nat).
    { apply submseteq_length, NoDup_submseteq; [done|].
      intros i Hi%Hr. apply elem_of_seq. lia. }
    by rewrite length_seq in Hsub. }
  assert (HUβ : Qc_of_Z (Z.of_nat (length (small b ++ large b))) * (2 * U2)
                ≤ N * (2 * U2))
    by (apply Qcmult_le_mono_nonneg_r; [done|exact HU]).
  assert (Hβ : 0 ≤ 2 * U2) by done.
  set (f := λ k, to_Qc (entry (probs2 b) k) - 1 / N).
  assert (Hs0 : 0 ≤ Qc_of_Z (Z.of_nat j) * step_err)
    by (apply Qc_mul_nonneg; [apply NQ_nonneg|done]).
  apply pairing_false in Hexit as [Hs|Hl].
  - (* everything left is on [large] *)
    assert (Hlow : ∀ i, i ∈ small b ++ large b → - (2 * U2) ≤ f i).
    { intros i Hi. pose proof (fi_finite _ _ _ Hfi i Hi) as Hqi.
      rewrite Hs in Hi. cbn [app] in Hi.
      pose proof (b64_large _ _ Hb64 i Hi) as Hge.
      cbn [fge fdiv fone of_int binary64] in Hge. unfold ge in Hge.
      apply v_leb in Hge; [|done..]. unfold f, Qcdiv. rewrite Qcmult_1_l.
      revert Hge A1 A2.
      generalize (to_Qc (entry (probs2 b) i)) (/ N)
        (to_Qc (div one (of_nat (length probs)))).
      clear. intros. fl_lra. }
    pose proof (sum_elem_upper f _ (2 * U2) k Hβ Hlow Hk) as Hup.
    pose proof (Hlow k Hk) as Hlo.
    change t with (f k). unfold fexcess in X1, X2. fold f in X1, X2.
    revert Hup Hlo X1 X2 E1 E2 HUβ HNU HN1 Hs0.
    generalize (sumQ (f <$> small b ++ large b))
      (Qc_of_Z (Z.of_nat (length (small b ++ large b))) * (2 * U2)).
    generalize (Qc_of_Z (Z.of_nat j) * step_err).
    generalize (sumQ ((λ k, wh k) <$> seq 0 (length probs))) (f k) N.
    clear. intros. split; fl_lra.
  - (* everything left is on [small] *)
    assert (Hhigh : ∀ i, i ∈ small b ++ large b → f i ≤ 2 * U2).
    { intros i Hi. pose proof (fi_finite _ _ _ Hfi i Hi) as Hqi.
      rewrite Hl, app_nil_r in Hi.
      pose proof (b64_small _ _ Hb64 i Hi) as Hlt.
      assert (Hlt' : to_Qc (entry (probs2 b) i)
                     < to_Qc (div one (of_nat (length probs)))).
      { cbn [fge fdiv fone of_int binary64] in Hlt. unfold ge in Hlt.
        apply Qclt_nge. intros Hge. apply v_leb in Hge; [|done..].
        congruence. }
      unfold f, Qcdiv. rewrite Qcmult_1_l.
      revert Hlt' A1 A2.
      generalize (to_Qc (entry (probs2 b) i)) (/ N)
        (to_Qc (div one (of_nat (length probs)))).
      clear. intros. fl_lra. }
    pose proof (sum_elem_lower f _ (2 * U2) k Hβ Hhigh Hk) as Hlo.
    pose proof (Hhigh k Hk) as Hup.
    change t with (f k). unfold fexcess in X1, X2. fold f in X1, X2.
    revert Hup Hlo X1 X2 E1 E2 HUβ HNU HN1 Hs0.
    generalize (sumQ (f <$> small b ++ large b))
      (Qc_of_Z (Z.of_nat (length (small b ++ large b))) * (2 * U2)).
    generalize (Qc_of_Z (Z.of_nat j) * step_err).
    generalize (sumQ ((λ k, wh k) <$> seq 0 (length probs))) (f k) N.
    clear. intros. split; fl_lra.
Qed.

(** ** The table that [InitWithSeed] returns *)

Lemma final_mass (b : builder float64) (p : list float64) (k : nat) :
  length p = length probs →
  (∀ i, i ∈ small b ++ large b → p !! i = Some one) →
  (∀ i, i ∉ small b ++ large b → p !! i = b_probability b !! i) →
  mass (to_Qc <$> p) (b_alias b) k
  = fmass (length probs) b k
    + (if decide (k ∈ small b ++ large b)
       then 1 / N - to_Qc (entry (probs2 b) k) else 0).
Proof.
  intros Hlen Hin Hout. unfold mass, fmass.
  rewrite length_fmap, Hlen.
  assert (Hentry : ∀ i, entry (to_Qc <$> p) i
    = if decide (i ∈ small b ++ large b) then 1
      else to_Qc (entry (b_probability b) i)).
  { intros i. rewrite <-entry_fmap_v. destruct (decide _) as [Hi|Hi].
    - by rewrite (entry_lookup _ _ _ (Hin i Hi)), v_one.
    - unfold entry. by rewrite (Hout i Hi). }
  rewrite (sumQ_ext _ (λ i, if decide ((i ∉ small b ++ large b)
                                       ∧ b_alias b !! i = Some k)
                            then (1 - to_Qc (entry (b_probability b) i)) / N
                            else 0)).
  - rewrite Hentry. destruct (decide (k ∈ small b ++ large b)); ring.
  - intros i _. rewrite Hentry.
    destruct (decide (i ∈ small b ++ large b)) as [Hi|Hi].
    + rewrite (decide_False (P := _ ∧ _)) by (by intros [? _]).
      destruct (decide _); [|done]. unfold Qcdiv. ring.
    + apply decide_ext. clear -Hi. tauto.
Qed.

Lemma InitWithSeed_mass_close {FG : RandGen float64} (sd : Z) :
  ∃ s, InitWithSeed probs sd = Ret (Some s, None) ∧
       ∀ k, (k < length probs)%nat →
         mass (to_Qc <$> probability s) (alias s) k
         - normalized (to_Qc <$> probs) k ≤ tolerance (length probs) ∧
         normalized (to_Qc <$> probs) k
         - mass (to_Qc <$> probability s) (alias s) k
           ≤ tolerance (length probs).
Proof.
  assert (Hne : probs ≠ []) by (intros E; pose proof n_pos as H;
    rewrite E in H; cbn in H; lia).
  destruct (InitWithSeed_run probs sd Hne)
    as (b0 & j & b & p & Hb0 & Hrun & Hj & _ & Hwf & _ & Hlen & Hin
        & Hout & Hinit).
  pose proof (populated_wf probs b0 Hne Hb0) as Hwf0.
  pose proof (B64Run.populated_b64 probs n_pos probs_fin probs_pos b0 Hb0)
    as Hb640.
  pose proof (B64Run.pair_run_b64 probs n_pos j b0 b Hrun Hwf0 Hb640) as Hb64.
  pose proof (pair_run_float 0 j b0 b Hrun Hwf0 Hb640 (populated_float b0 Hb0)
                ltac:(lia)) as Hfi.
  cbn [Nat.add] in Hfi.
  pose proof (pair_run_exits _ _ _ _ _ Hrun) as Hexit.
  eexists. split; [exact Hinit|]. cbn [probability alias]. intros k Hk.
  rewrite (final_mass b p k Hlen Hin Hout).
  destruct (fi_mass _ _ _ Hfi k Hk) as [M1 M2].
  destruct (what_close k Hk) as [W1 W2].
  pose proof (steps_small j ltac:(lia)) as Hst.
  assert (Hjs : Qc_of_Z (Z.of_nat j) * step_err ≤ Q2Qc 11 * (N * U2)).
  { replace (Q2Qc 11 * (N * U2)) with (N * step_err)
      by (unfold step_err; ring).
    apply Qcmult_le_mono_nonneg_r; [done|]. rewrite <-Z2Qc_inj_le. lia. }
  pose proof N_ge_1 as HN1.
  assert (HNU1 : U2 ≤ N * U2).
  { rewrite <-(Qcmult_1_l U2) at 1.
    apply Qcmult_le_mono_nonneg_r; [done|exact HN1]. }
  assert (Hs0 : 0 ≤ Qc_of_Z (Z.of_nat j) * step_err)
    by (apply Qc_mul_nonneg; [apply NQ_nonneg|done]).
  unfold tolerance.
  replace (N * Q2Qc (1 # 70368744177664)) with (Q2Qc 64 * (N * U2))
    by (apply Qc_is_canon; unfold U2; cbn [this Qcmult Q2Qc];
        rewrite !Qred_correct; ring).
  destruct (decide (k ∈ small b ++ large b)) as [Hin_k|Hout_k].
  - destruct (remaining_close j b k Hwf Hb64 Hfi Hexit ltac:(lia) Hin_k)
      as [R1 R2].
    replace (Q2Qc 7 * U2 * N) with (Q2Qc 7 * (N * U2)) in R1, R2 by ring.
    replace (2 * U2 * N) with (2 * (N * U2)) in W1, W2 by ring.
    revert M1 M2 W1 W2 R1 R2 Hjs HNU1 Hs0.
    generalize (fmass (length probs) b k) (wh k)
      (normalized (to_Qc <$> probs) k) (Qc_of_Z (Z.of_nat j) * step_err)
      (to_Qc (entry (probs2 b) k)) (1 / N) (N * U2).
    clear. intros. split; fl_lra.
  - replace (2 * U2 * N) with (2 * (N * U2)) in W1, W2 by ring.
    revert M1 M2 W1 W2 Hjs HNU1 Hs0.
    generalize (fmass (length probs) b k) (wh k)
      (normalized (to_Qc <$> probs) k) (Qc_of_Z (Z.of_nat j) * step_err)
      (N * U2).
    clear. intros. split; fl_lra.
Qed.
End Weights.
End B64Mass.

(** * The tables depend on the weights through their normalized values *)

Section NormalizedOnly.
Context {F : Type} {FA : Arith F} {FG : RandGen F}.

Lemma pair_body_length_only (probs probs' : list F) avg (b : builder F) :
  length probs = length probs' →
  pair_body probs avg b = pair_body probs' avg b.
Proof. intros Hlen. unfold pair_body. by rewrite Hlen. Qed.

Lemma pair_loop_length_only fuel (probs probs' : list F) avg (b : builder F) :
  length probs = length probs' →
  pair_loop fuel probs avg b = pair_loop fuel probs' avg b.
Proof.
  intros Hlen. revert b. induction fuel as [|fuel IH]; intros b; [done|].
  cbn [pair_loop]. rewrite (pair_body_length_only probs probs' avg b Hlen).
  destruct (pairing b); [|done].
  destruct (pair_body probs' avg b) as [b'| |]; [|done..].
  rewrite !res_bind_Ret. apply IH.
Qed.

Lemma InitWithSeed_normalized_only (probs probs' : list F) (sd : Z) :
  length probs = length probs' →
  normalize probs (total probs) = normalize probs' (total probs') →
  InitWithSeed probs sd = InitWithSeed probs' sd.
Proof.
  intros Hlen Hnorm. unfold InitWithSeed, paired, populated.
  rewrite Hnorm, Hlen.
  destruct (length probs' =? 0); [done|].
  destruct (populate _ _ _ _ _) as [[s l]| |]; [|done..].
  rewrite !res_bind_Ret.
  by rewrite (pair_loop_length_only _ probs probs' _ _ Hlen).
Qed.
End NormalizedOnly.


Module B64Close.
Import B64 B64Round B64Error B64Mass ExactFacts.
Local Open Scope Qc_scope.

Lemma paired_remaining_close (probs : list float64) :
  Forall finite_nonneg probs → Exists finite_pos probs →
  finite_nonneg (total probs) →
  (Z.of_nat (length probs) < 2 ^ 46)%Z →
  ∃ b, paired probs = Ret b ∧ pairing b = false ∧
       ∀ k, k ∈ small b ++ large b →
         finite_nonneg (entry (probs2 b) k) ∧
         to_Qc (entry (probs2 b) k) - 1 / Qc_of_Z (Z.of_nat (length probs))
           ≤ Q2Qc 18 * U2 * Qc_of_Z (Z.of_nat (length probs)) ∧
         1 / Qc_of_Z (Z.of_nat (length probs)) - to_Qc (entry (probs2 b) k)
           ≤ Q2Qc 18 * U2 * Qc_of_Z (Z.of_nat (length probs)).
Proof.
  intros Hfin Hpos Htot Hn.
  pose proof (n_pos probs Hfin Hpos Htot Hn) as Hnpos.
  assert (Hne : probs ≠ []) by (intros E; rewrite E in Hnpos; cbn in Hnpos; lia).
  destruct (InitWithSeed_run (FG := lcg_gen) probs 0 Hne)
    as (b0 & j & b & p & Hb0 & Hrun & Hj & Hpaired & Hwf & _).
  pose proof (populated_wf probs b0 Hne Hb0) as Hwf0.
  pose proof (B64Run.populated_b64 probs Hnpos Hfin Hpos b0 Hb0) as Hb640.
  pose proof (B64Run.pair_run_b64 probs Hnpos j b0 b Hrun Hwf0 Hb640) as Hb64.
  pose proof (pair_run_float probs Hfin Hpos Htot Hn 0 j b0 b Hrun Hwf0 Hb640
                (populated_float probs Hfin Hpos Htot Hn b0 Hb0) ltac:(lia))
    as Hfi.
  cbn [Nat.add] in Hfi.
  pose proof (pair_run_exits _ _ _ _ _ Hrun) as Hexit.
  exists b. split; [done|]. split; [done|]. intros k Hk.
  split; [by apply (fi_finite _ _ _ Hfi)|].
  destruct (remaining_close probs Hfin Hpos Htot Hn j b k Hwf Hb64 Hfi Hexit
              ltac:(lia) Hk) as [R1 R2].
  assert (Hjs : Qc_of_Z (Z.of_nat j) * step_err
                ≤ Q2Qc 11 * (Qc_of_Z (Z.of_nat (length probs)) * U2)).
  { replace (Q2Qc 11 * (Qc_of_Z (Z.of_nat (length probs)) * U2))
      with (Qc_of_Z (Z.of_nat (length probs)) * step_err)
      by (unfold step_err; ring).
    apply Qcmult_le_mono_nonneg_r; [done|]. rewrite <-Z2Qc_inj_le. lia. }
  replace (Q2Qc 7 * U2 * Qc_of_Z (Z.of_nat (length probs)))
    with (Q2Qc 7 * (Qc_of_Z (Z.of_nat (length probs)) * U2)) in R1, R2 by ring.
  replace (Q2Qc 18 * U2 * Qc_of_Z (Z.of_nat (length probs)))
    with (Q2Qc 18 * (Qc_of_Z (Z.of_nat (length probs)) * U2)) by ring.
  revert R1 R2 Hjs.
  generalize (to_Qc (entry (probs2 b) k))
    (1 / Qc_of_Z (Z.of_nat (length probs)))
    (Qc_of_Z (Z.of_nat j) * step_err)
    (Qc_of_Z (Z.of_nat (length probs)) * U2).
  clear. intros. split; fl_lra.
Qed.
End B64Close.

(** * An index classified small at the start is never an alias *)

Section KeptSmall.
Context {F : Type} {FA : Arith F}.
Implicit Types (b : builder F) (probs : list F).

Lemma populated_kept_small probs k b0 :
  populated probs = Ret b0 → k < length probs →
  fge (entry (normalize probs (total probs)) k)
      (fdiv fone (of_int (length probs))) = false →
  kept_small probs k b0.
Proof.
  intros Hb0 Hk Hge.
  pose proof (populated_classifies probs b0 k Hb0 Hk) as [_ Hcl].
  pose proof (populated_all_listed probs b0) as Hall.
  specialize (λ i, Hall i Hb0).
  pose proof Hb0 as Hb0'. rewrite populated_spec in Hb0'.
  injection Hb0' as Hb0'.
  assert (Hp2 : probs2 b0 = normalize probs (total probs))
    by (by rewrite <-Hb0').
  assert (Hal : b_alias b0 = replicate (length probs) 0)
    by (by rewrite <-Hb0').
  split.
  - apply Hcl. by rewrite Hp2.
  - by rewrite Hp2.
  - intros i Hi. rewrite Hal.
    destruct (decide (i < length probs)) as [Hlt|Hge'].
    + by destruct Hi; apply Hall.
    + rewrite lookup_ge_None_2; [done|]. rewrite length_replicate. lia.
Qed.

Lemma paired_with_kept_small probs avg k b less s1 more l1 :
  small b = less :: s1 → large b = more :: l1 →
  kept_small probs k b →
  kept_small probs k (paired_with probs avg b less s1 more l1).
Proof.
  intros Hs Hl [Hlarge Hw Hal].
  assert (Hmk : more ≠ k).
  { intros ->. apply Hlarge. rewrite Hl. apply elem_of_cons. by left. }
  assert (Hkl : k ∉ l1).
  { intros Hin. apply Hlarge. rewrite Hl. apply elem_of_cons. by right. }
  unfold paired_with. cbn zeta.
  set (tl := fge _ _). split; cbn [large probs2 b_alias small].
  - destruct tl; [|done].
    intros [->|Hin]%elem_of_cons; [done|by apply Hkl].
  - rewrite <-Hw. unfold entry. by rewrite list_lookup_insert_ne.
  - intros i Hi.
    assert (Hi' : i ≠ less → i ∉ small b ++ large b).
    { intros Hne Hin. apply Hi. rewrite Hs, Hl in Hin.
      clear -Hin Hne.
      rewrite elem_of_app, !elem_of_cons in Hin.
      destruct tl; rewrite elem_of_app, !elem_of_cons; tauto. }
    destruct (decide (i = less)) as [->|Hne].
    + destruct (decide (less < length (b_alias b))) as [Hlt|Hge].
      * rewrite list_lookup_insert_eq by done. by intros [=].
      * rewrite lookup_ge_None_2; [done|]. rewrite length_insert. lia.
    + rewrite list_lookup_insert_ne by done. by apply Hal, Hi'.
Qed.

Lemma pair_run_kept_small probs avg k j b b' :
  pair_run probs avg j b b' → kept_small probs k b → kept_small probs k b'.
Proof.
  induction 1 as [|j b b' b'' Hb Hbody _ IH]; [done|]. intros Hks.
  apply pair_body_Ret_inv in Hbody
    as (less & s1 & more & l1 & Hs & Hl & _ & _ & _ & _ & ->).
  by apply IH, paired_with_kept_small.
Qed.
End KeptSmall.

Module B64Zero.
Import B64 B64Round B64Error B64Mass ExactFacts.

Lemma lt_zero_sign (u : float64) (s : bool) :
  lt u (S754_zero s) = lt u zero.
Proof. by destruct u as [| | |[]]. Qed.

Section ZeroWeight.
Context (probs : list float64) (k : nat).
Hypothesis probs_fin : Forall finite_nonneg probs.
Hypothesis probs_pos : Exists finite_pos probs.
Hypothesis tot_fin : finite_nonneg (total probs).
Hypothesis n_small : (Z.of_nat (length probs) ≤ 2 ^ 23)%Z.
Hypothesis k_lt : k < length probs.
Hypothesis k_zero : is_zero (entry probs k).

Lemma n_small' : (Z.of_nat (length probs) < 2 ^ 46)%Z.
Proof using All. lia. Qed.

Lemma normalized_zero : is_zero (entry (normalize probs (total probs)) k).
Proof using All.
  destruct (normalize_at probs k k_lt) as (x & _ & Hx & ->).
  rewrite Hx in k_zero.
  destruct (tot_pos probs probs_fin probs_pos tot_fin) as [Ht _].
  destruct (total probs) as [| | |[] m e]; try done.
  destruct k_zero as [->| ->]; [by left|by right].
Qed.

Lemma zero_is_small :
  fge (entry (normalize probs (total probs)) k)
      (fdiv fone (of_int (length probs))) = false.
Proof using All.
  destruct (B64Edge.average_positive (length probs) ltac:(lia) ltac:(lia))
    as (m & e & Havg).
  cbn [fge fdiv fone of_int binary64]. rewrite Havg.
  by destruct normalized_zero as [->| ->].
Qed.

Lemma times_n_zero (z : float64) :
  is_zero z → is_zero (mul z (of_nat (length probs))).
Proof using All.
  destruct (B64Edge.of_nat_finite (length probs) ltac:(lia) ltac:(lia))
    as (m & e & -> & _).
  intros [->| ->]; [by left|by right].
Qed.

Lemma zero_weight_table {FG : RandGen float64} (sd : Z) :
  ∃ s, InitWithSeed probs sd = Ret (Some s, None) ∧
       length (probability s) = length probs ∧
       length (alias s) = length probs ∧
       is_zero (entry (probability s) k) ∧
       ∀ i, i < length probs →
         alias s !! i ≠ Some k ∨ probability s !! i = Some one.
Proof using All.
  pose proof n_small' as Hn.
  assert (Hne : probs ≠ []) by (intros E; rewrite E in k_lt; cbn in k_lt; lia).
  destruct (InitWithSeed_run probs sd Hne)
    as (b0 & j & b & p & Hb0 & Hrun & Hj & Hbb & Hwf & Has & Hlen & Hin
        & Hout & Hinit).
  pose proof (populated_kept_small probs k b0 Hb0 k_lt zero_is_small) as Hks0.
  pose proof (pair_run_kept_small _ _ k _ _ _ Hrun Hks0) as [Hlarge Hw Hal].
  destruct (B64Close.paired_remaining_close probs probs_fin probs_pos tot_fin Hn)
    as (b' & Hb' & Hexit & Hrem).
  rewrite Hbb in Hb'. injection Hb' as <-.
  assert (Hk : k ∉ small b ++ large b).
  { intros Hk. destruct (Hrem k Hk) as (_ & _ & R).
    rewrite Hw in R.
    assert (H0 : to_Qc (entry (normalize probs (total probs)) k) = Q2Qc 0)
      by (destruct normalized_zero as [->| ->]; apply v_zero).
    rewrite H0 in R.
    destruct (N_inv probs probs_fin probs_pos tot_fin Hn) as (I1 & _ & I3).
    pose proof (N_ge_1 probs probs_fin probs_pos tot_fin Hn) as HN1.
    assert (HN : (Qc_of_Z (Z.of_nat (length probs)) ≤ Qc_of_Z (2 ^ 23))%Qc)
      by (rewrite <-Z2Qc_inj_le; lia).
    assert (HM : (Qc_of_Z (Z.of_nat (length probs))
                    * / Qc_of_Z (Z.of_nat (length probs))
                  ≤ Qc_of_Z (2 ^ 23) * / Qc_of_Z (Z.of_nat (length probs)))%Qc).
    { apply Qcmult_le_mono_nonneg_r; [|done]. by apply Qclt_le_weak. }
    rewrite I3 in HM.
    assert (H23 : Qc_of_Z (2 ^ 23) = Q2Qc 8388608) by (apply Qc_is_canon; by vm_compute).
    rewrite H23 in HM, HN.
    unfold Qcdiv in R. rewrite Qcmult_1_l in R.
    revert R HM HN HN1 I1.
    generalize (/ Qc_of_Z (Z.of_nat (length probs)))%Qc
      (Qc_of_Z (Z.of_nat (length probs))).
    clear. intros iN N R HM HN HN1 I1. fl_lra. }
  eexists. split; [exact Hinit|]. cbn [probability alias].
  split; [done|]. split; [apply Hwf|]. split.
  - unfold entry. rewrite (Hout k Hk).
    rewrite (assigned_probability _ _ Has k k_lt Hk). cbn [default].
    rewrite Hw. cbn [fmul of_int binary64].
    apply times_n_zero, normalized_zero.
  - intros i Hi.
    destruct (decide (i ∈ small b ++ large b)) as [Hi'|Hi'].
    + right. by apply Hin.
    + left. by apply Hal.
Qed.
End ZeroWeight.
End B64Zero.

(** * Binary64: the operations commute with scaling by a power of two *)

Module B64Scale.
Import B64 B64Round.
Local Open Scope Z_scope.

Lemma div_scale c x t : div (scale2 c x) (scale2 c t) = div x t.
Proof.
  destruct x as [sx|sx| |sx mx ex], t as [st|st| |st mt et]; try reflexivity.
  unfold div, SFdiv, SFdiv_core_binary, scale2. cbv zeta.
  replace (Zdigits2 (Z.pos mx) + (ex + c) - (Zdigits2 (Z.pos mt) + (et + c)))
    with (Zdigits2 (Z.pos mx) + ex - (Zdigits2 (Z.pos mt) + et)) by lia.
  by replace (ex + c - (et + c)) with (ex - et) by lia.
Qed.

Lemma shl_align_scale mx ex ex' c :
  shl_align mx (ex + c) (ex' + c)
  = ((shl_align mx ex ex').1, (shl_align mx ex ex').2 + c).
Proof.
  unfold shl_align. replace (ex' + c - (ex + c)) with (ex' - ex) by lia.
  by destruct (ex' - ex).
Qed.

Lemma shr_fexp_scale m e c l :
  -1021 ≤ Zdigits2 m + e → -1021 ≤ Zdigits2 m + e + c →
  shr_fexp prec emax m (e + c) l
  = ((shr_fexp prec emax m e l).1, (shr_fexp prec emax m e l).2 + c).
Proof.
  intros H1 H2. unfold shr_fexp, shr.
  replace (fexp prec emax (Zdigits2 m + (e + c)) - (e + c))
    with (fexp prec emax (Zdigits2 m + e) - e) by (rewrite !fexp_eq; lia).
  destruct (fexp prec emax (Zdigits2 m + e) - e) as [|p|p] eqn:Hk;
    cbn [fst snd]; f_equal; lia.
Qed.

(** A shift keeps the position of the leading bit of a normal value. *)
Lemma shr_fexp_digits m e l :
  0 < m → -1021 ≤ Zdigits2 m + e →
  0 < shr_m (shr_fexp prec emax m e l).1 ∧
  Zdigits2 (shr_m (shr_fexp prec emax m e l).1) + (shr_fexp prec emax m e l).2
  = Zdigits2 m + e.
Proof.
  intros Hm Hn.
  assert (Hrec : shr_m (shr_record_of_loc m l) = m) by by destruct l as [|[]].
  destruct (Z.le_gt_cases e (fexp prec emax (Zdigits2 m + e))) as [Hle|Hgt].
  - destruct (shr_fexp_spec m e l ltac:(lia) Hle) as (mrs' & -> & Hmrs & _).
    cbn [fst snd]. rewrite Hmrs. rewrite fexp_eq in Hle |- *.
    replace (Z.max (Zdigits2 m + e - 53) (-1074)) with (Zdigits2 m + e - 53)
      in * by lia.
    replace (Zdigits2 m + e - 53 - e) with (Zdigits2 m - 53) by lia.
    pose proof (Zdigits2_div_pow2 m (Zdigits2 m - 53) Hm ltac:(lia)) as Hd.
    split; [|lia].
    destruct (Z.lt_trichotomy 0 (m / 2 ^ (Zdigits2 m - 53)))
      as [?|[E|Hneg]]; [done| |].
    + rewrite <-E in Hd. cbn [Zdigits2] in Hd. lia.
    + pose proof (Z.div_pos m (2 ^ (Zdigits2 m - 53)) ltac:(lia)
                    ltac:(apply Z.pow_pos_nonneg; lia)). lia.
  - unfold shr_fexp, shr.
    destruct (fexp prec emax (Zdigits2 m + e) - e) as [|p|p] eqn:Hk; [lia..|].
    cbn [fst snd]. rewrite Hrec. done.
Qed.

Lemma round_nearest_even_digits m l :
  0 < m →
  0 < round_nearest_even m l ∧ Zdigits2 m ≤ Zdigits2 (round_nearest_even m l).
Proof.
  intros Hm. destruct (round_nearest_even_spec m l) as [[->| ->] _].
  - done.
  - split; [lia|]. apply Zdigits2_le; lia.
Qed.

(** Rounding a normal value and rounding it scaled: the same mantissa,
    the exponents [c] apart. *)
Lemma binary_round_aux_scale s m e c l :
  0 < m → -1021 ≤ Zdigits2 m + e → -1021 ≤ Zdigits2 m + e + c →
  ∃ m2 e2,
    binary_round_aux prec emax s m e l
    = (if e2 <=? 971 then S754_finite s m2 e2 else S754_infinity s) ∧
    binary_round_aux prec emax s m (e + c) l
    = (if e2 + c <=? 971 then S754_finite s m2 (e2 + c) else S754_infinity s).
Proof.
  intros Hm H1 H2. unfold binary_round_aux.
  rewrite (shr_fexp_scale m e c l H1 H2).
  destruct (shr_fexp_digits m e l Hm H1) as [Hm1 Hd1].
  destruct (shr_fexp prec emax m e l) as [mrs' e'] eqn:Hs1.
  cbn [fst snd] in *.
  set (m2 := round_nearest_even (shr_m mrs') (loc_of_shr_record mrs')).
  destruct (round_nearest_even_digits (shr_m mrs') (loc_of_shr_record mrs') Hm1)
    as [Hm2 Hd2].
  fold m2 in Hm2, Hd2.
  rewrite (shr_fexp_scale m2 e' c loc_Exact ltac:(lia) ltac:(lia)).
  destruct (shr_fexp_digits m2 e' loc_Exact Hm2 ltac:(lia)) as [Hm3 _].
  destruct (shr_fexp prec emax m2 e' loc_Exact) as [mrs'' e''] eqn:Hs2.
  cbn [fst snd] in *.
  destruct (shr_m mrs'') as [|p|p]; [lia| |lia].
  exists p, e''. change (emax - prec) with 971. done.
Qed.

Lemma binary_round_scale s p e c :
  -1021 ≤ Zdigits2 (Z.pos p) + e → -1021 ≤ Zdigits2 (Z.pos p) + e + c →
  ∃ m2 e2,
    binary_round prec emax s p e
    = (if e2 <=? 971 then S754_finite s m2 e2 else S754_infinity s) ∧
    binary_round prec emax s p (e + c)
    = (if e2 + c <=? 971 then S754_finite s m2 (e2 + c) else S754_infinity s).
Proof.
  intros H1 H2. unfold binary_round.
  change (Z.pos (digits2_pos p)) with (Zdigits2 (Z.pos p)).
  replace (fexp prec emax (Zdigits2 (Z.pos p) + (e + c)))
    with (fexp prec emax (Zdigits2 (Z.pos p) + e) + c)
    by (rewrite !fexp_eq; lia).
  rewrite shl_align_scale.
  destruct (shl_align_spec p e (fexp prec emax (Zdigits2 (Z.pos p) + e)))
    as (m' & e1 & -> & He1 & Hm').
  cbn [fst snd].
  assert (Hd : Zdigits2 (Z.pos m') + e1 = Zdigits2 (Z.pos p) + e).
  { rewrite Hm', Zdigits2_mul_pow2 by lia. lia. }
  apply binary_round_aux_scale; lia.
Qed.

Lemma add_scale mx ex my ey c :
  -1021 ≤ Zdigits2 (Z.pos mx) + ex → -1021 ≤ Zdigits2 (Z.pos mx) + ex + c →
  ∃ m2 e2,
    add (S754_finite false mx ex) (S754_finite false my ey)
    = (if e2 <=? 971 then S754_finite false m2 e2 else S754_infinity false) ∧
    add (S754_finite false mx (ex + c)) (S754_finite false my (ey + c))
    = (if e2 + c <=? 971 then S754_finite false m2 (e2 + c)
       else S754_infinity false).
Proof.
  intros H1 H2. unfold add, SFadd. cbv zeta. cbn [cond_Zopp].
  replace (Z.min (ex + c) (ey + c)) with (Z.min ex ey + c) by lia.
  rewrite !shl_align_scale.
  destruct (shl_align_spec mx ex (Z.min ex ey)) as (mx' & ex' & -> & Hex & Hmx).
  destruct (shl_align_spec my ey (Z.min ex ey)) as (my' & ey' & -> & Hey & Hmy).
  cbn [fst snd Z.add binary_normalize].
  assert (Hd : Zdigits2 (Z.pos mx) + ex
               ≤ Zdigits2 (Z.pos (mx' + my')) + Z.min ex ey).
  { assert (Hdx : Zdigits2 (Z.pos mx') = Zdigits2 (Z.pos mx) + (ex - ex'))
      by (rewrite Hmx, Zdigits2_mul_pow2 by lia; lia).
    pose proof (Zdigits2_le (Z.pos mx') (Z.pos (mx' + my')) ltac:(lia)
                  ltac:(lia)).
    lia. }
  apply binary_round_scale; lia.
Qed.

(** Above a normal value there are only normal values. *)
Lemma normal_above x r :
  normal_or_zero x → (∀ s, x ≠ S754_zero s) → finite_nonneg r →
  SFleb x r = true → normal_or_zero r ∧ ∀ s, r ≠ S754_zero s.
Proof.
  destruct x as [sx| | |[] mx ex]; try done.
  { intros _ H. by destruct (H sx). }
  intros [Hbx Hdx] _.
  destruct r as [sr| | |[] mr er]; try done. intros Hbr Hle.
  split; [|done]. split; [done|].
  apply bounded_canonical in Hbx as [Hcx _], Hbr as [Hcr _].
  destruct (canonical_digits _ _ Hcx) as (_ & _ & Hex).
  destruct (canonical_digits _ _ Hcr) as (Hd & [Hd53|He] & _); [done|].
  unfold SFleb, SFcompare in Hle.
  destruct (Z.compare_spec ex er) as [Heq|Hlt|Hgt]; [|lia|done].
  assert (Hm : Z.pos mx ≤ Z.pos mr).
  { change (Pos.compare_cont Eq mx mr) with (Pos.compare mx mr) in Hle.
    destruct (Pos.compare_spec mx mr) as [->|Hlt|Hgt];
      [done|by apply Pos2Z.pos_le_pos, Pos.lt_le_incl|done]. }
  pose proof (Zdigits2_le (Z.pos mx) (Z.pos mr) ltac:(lia) Hm). lia.
Qed.

Lemma fold_add_inf (l : list float64) :
  Forall finite_nonneg l →
  fold_left add l (S754_infinity false) = S754_infinity false.
Proof.
  induction 1 as [|x l Hx _ IH]; [done|]. cbn [fold_left].
  by destruct x as [| | |[] m e].
Qed.

Lemma normal_or_zero_finite x : normal_or_zero x → finite_nonneg x.
Proof. destruct x as [| | |[] m e]; try done. by intros [? _]. Qed.

Lemma normal_digits m e :
  normal_or_zero (S754_finite false m e) → -1021 ≤ Zdigits2 (Z.pos m) + e.
Proof.
  intros [Hb Hd]. apply bounded_canonical in Hb as [Hc _].
  destruct (canonical_digits _ _ Hc) as (_ & _ & He). lia.
Qed.

(** One addition of the sum and the same addition scaled. *)
Lemma add_scale_normal c acc x :
  normal_or_zero acc → normal_or_zero (scale2 c acc) →
  normal_or_zero x → normal_or_zero (scale2 c x) →
  ∀ r r', r = add acc x → r' = add (scale2 c acc) (scale2 c x) →
  finite_nonneg r → finite_nonneg r' →
  r' = scale2 c r ∧ normal_or_zero r ∧ normal_or_zero r'.
Proof.
  intros Ha Ha' Hx Hx' r r' Hr Hr' Hfr Hfr'.
  destruct acc as [sa| | |[] ma ea], x as [sx| | |[] mx ex]; try done.
  - subst r r'. split; [|split]; by destruct sa, sx.
  - subst r r'. by split.
  - subst r r'. by split.
  - destruct (add_scale ma ea mx ex c (normal_digits _ _ Ha)
                ltac:(pose proof (normal_digits _ _ Ha'); lia))
      as (m2 & e2 & E1 & E2).
    cbn [scale2] in Hr'. rewrite E1 in Hr. rewrite E2 in Hr'.
    destruct (e2 <=? 971); [|by subst r].
    destruct (e2 + c <=? 971); [|by subst r'].
    assert (Hrs : r' = scale2 c r) by (by subst r r').
    split; [done|].
    destruct (add_nonneg (S754_finite false ma ea) (S754_finite false mx ex)
                ltac:(left; by apply normal_or_zero_finite)
                ltac:(left; by apply normal_or_zero_finite))
      as (_ & Hle & _).
    destruct (add_nonneg (S754_finite false ma (ea + c))
                (S754_finite false mx (ex + c))
                ltac:(left; by apply normal_or_zero_finite)
                ltac:(left; by apply normal_or_zero_finite))
      as (_ & Hle' & _).
    rewrite E1 in Hle. rewrite E2 in Hle'.
    rewrite <-Hr in Hle. rewrite <-Hr' in Hle'.
    split.
    + by apply (normal_above _ r Ha).
    + by apply (normal_above _ r' Ha').
Qed.

Lemma add_finite_or_inf acc x :
  finite_nonneg acc → finite_nonneg x →
  finite_nonneg (add acc x) ∨ add acc x = S754_infinity false.
Proof.
  intros Ha Hx.
  destruct (add_nonneg acc x ltac:(by left) ltac:(by left)) as ([?| ->] & _);
    [by left|by right].
Qed.

Lemma fold_add_scale c (l : list float64) :
  Forall normal_or_zero l → Forall normal_or_zero (scale2 c <$> l) →
  ∀ acc, normal_or_zero acc → normal_or_zero (scale2 c acc) →
    finite_nonneg (fold_left add l acc) →
    finite_nonneg (fold_left add (scale2 c <$> l) (scale2 c acc)) →
    fold_left add (scale2 c <$> l) (scale2 c acc)
    = scale2 c (fold_left add l acc).
Proof.
  induction l as [|x l IH]; intros Hl Hl' acc Ha Ha' Hf Hf'; [done|].
  apply Forall_cons in Hl as [Hx Hl].
  rewrite fmap_cons in Hl', Hf' |- *. apply Forall_cons in Hl' as [Hx' Hl'].
  cbn [fold_left] in *.
  assert (Hr : finite_nonneg (add acc x)).
  { destruct (add_finite_or_inf acc x) as [?|E];
      [by apply normal_or_zero_finite..|done|].
    rewrite E, fold_add_inf in Hf; [done|].
    eapply Forall_impl; [exact Hl|]. apply normal_or_zero_finite. }
  assert (Hr' : finite_nonneg (add (scale2 c acc) (scale2 c x))).
  { destruct (add_finite_or_inf (scale2 c acc) (scale2 c x)) as [?|E];
      [by apply normal_or_zero_finite..|done|].
    rewrite E, fold_add_inf in Hf'; [done|].
    eapply Forall_impl; [exact Hl'|]. apply normal_or_zero_finite. }
  destruct (add_scale_normal c acc x Ha Ha' Hx Hx' _ _ eq_refl eq_refl Hr Hr')
    as (E & Hn & Hn').
  rewrite E in Hf', Hn' |- *. by apply IH.
Qed.

Lemma normalize_scale c (probs : list float64) :
  Forall normal_or_zero probs → Forall normal_or_zero (scale2 c <$> probs) →
  finite_nonneg (total probs) → finite_nonneg (total (scale2 c <$> probs)) →
  normalize (scale2 c <$> probs) (total (scale2 c <$> probs))
  = normalize probs (total probs).
Proof.
  intros Hl Hl' Hf Hf'.
  assert (Ht : total (scale2 c <$> probs) = scale2 c (total probs))
    by (by apply (fold_add_scale c probs Hl Hl' zero)).
  rewrite Ht. unfold normalize. rewrite <-list_fmap_compose.
  apply list_fmap_ext. intros _ x _. apply div_scale.
Qed.
End B64Scale.

(** * Binary64: the table entries are finite, and the mass of a table
      with entries in [0, 1] is in [0, 1] *)

Module B64Table.
Import B64 B64Round B64Error B64Mass ExactFacts.

Section Entries.
Context (probs : list float64).
Hypothesis n_pos : 0 < length probs.
Hypothesis probs_nonneg : Forall finite_nonneg probs.
Hypothesis probs_pos : Exists finite_pos probs.

Let avg : float64 := fdiv fone (of_int (length probs)).

Lemma populated_assigned_finite b0 :
  populated probs = Ret b0 → assigned_finite probs b0.
Proof using All.
  intros Hb0 k Hk Hni.
  by destruct Hni; apply (populated_all_listed probs b0 k Hb0 Hk).
Qed.

Lemma paired_with_assigned_finite b less s1 more l1 :
  wf (length probs) b → b64_inv probs b →
  small b = less :: s1 → large b = more :: l1 →
  assigned_finite probs b →
  assigned_finite probs (paired_with probs avg b less s1 more l1).
Proof using All.
  intros Hwf Hinv Hs Hl Hfin k Hk Hni.
  assert (Hless : less < length (b_probability b)).
  { rewrite (wf_probability _ _ Hwf). apply (wf_range _ _ Hwf).
    rewrite Hs. by left. }
  unfold paired_with in Hni |- *. cbn [small large b_probability] in Hni |- *.
  destruct (decide (k = less)) as [->|Hkl].
  - rewrite entry_insert_eq by done.
    destruct (average_spec _ n_pos) as [_ Hbelow].
    destruct (Hbelow _ (b64_nonneg _ _ Hinv less)
                (b64_small _ _ Hinv less ltac:(rewrite Hs; by left)))
      as (HN & Hw & Hprod).
    by destruct (mul_unit _ _ Hw HN (Qlt_le_weak _ _ Hprod)) as (? & _).
  - rewrite entry_insert_ne by done. apply Hfin; [done|].
    intros Hin. apply Hni. rewrite Hs, Hl in Hin. clear -Hin Hkl.
    rewrite elem_of_app, !elem_of_cons in Hin.
    destruct (fge _ _); rewrite elem_of_app, !elem_of_cons; tauto.
Qed.

Lemma pair_run_assigned_finite k b b' :
  pair_run probs avg k b b' → wf (length probs) b → b64_inv probs b →
  assigned_finite probs b → assigned_finite probs b'.
Proof using All.
  induction 1 as [|k b b' b'' Hb Hbody _ IH]; [done|]. intros Hwf Hinv Hfin.
  apply pair_body_Ret_inv in Hbody
    as (less & s1 & more & l1 & Hs & Hl & _ & _ & _ & _ & ->).
  apply IH; [by apply paired_with_wf|by apply B64Run.paired_with_b64|].
  by apply paired_with_assigned_finite.
Qed.

(** Every probability entry of the table is a finite value in [0, 1]. *)
Lemma InitWithSeed_entries {FG : RandGen float64} (sd : Z) :
  ∃ s, InitWithSeed probs sd = Ret (Some s, None) ∧
       length (probability s) = length probs ∧
       Forall finite_nonneg (probability s) ∧
       ∀ i, (0 ≤ entry (to_Qc <$> probability s) i)%Qc
            ∧ (entry (to_Qc <$> probability s) i ≤ 1)%Qc.
Proof using All.
  assert (Hne : probs ≠ []) by (intros E; rewrite E in n_pos; cbn in n_pos; lia).
  destruct (InitWithSeed_run probs sd Hne)
    as (b0 & j & b & p & Hb0 & Hrun & _ & _ & Hwf & _ & Hlen & Hin
        & Hout & Hinit).
  pose proof (populated_wf probs b0 Hne Hb0) as Hwf0.
  pose proof (B64Run.populated_b64 probs n_pos probs_nonneg probs_pos b0 Hb0)
    as Hinv0.
  pose proof (B64Run.pair_run_b64 probs n_pos j b0 b Hrun Hwf0 Hinv0) as Hinv.
  pose proof (pair_run_assigned_finite j b0 b Hrun Hwf0 Hinv0
                (populated_assigned_finite b0 Hb0)) as Hfin.
  assert (Hall : ∀ i x, p !! i = Some x → finite_nonneg x ∧ in_unit x).
  { intros i x Hx.
    assert (Hi : i < length probs) by (rewrite <-Hlen; by eapply lookup_lt_Some).
    destruct (decide (i ∈ small b ++ large b)) as [Hi'|Hi'].
    - rewrite (Hin i Hi') in Hx. injection Hx as <-. by split.
    - pose proof (b64_unit _ _ Hinv i Hi Hi') as Hu.
      pose proof (Hfin i Hi Hi') as Hf.
      rewrite (Hout i Hi') in Hx.
      by rewrite (entry_lookup _ _ _ Hx) in Hu, Hf. }
  eexists. split; [exact Hinit|]. cbn [probability].
  split; [done|]. split.
  - apply Forall_lookup. intros i x Hx. by apply (Hall i x).
  - intros i. rewrite <-entry_fmap_v. unfold entry.
    destruct (p !! i) as [x|] eqn:Hx; cbn [default from_option id].
    + destruct (Hall i x Hx) as [Hf [_ H1]].
      split; [by apply v_nonneg|].
      rewrite <-v_one. by apply (v_leb x one Hf).
    + assert (Hz : to_Qc (fzero : float64) = Q2Qc 0) by apply (v_zero false).
      rewrite Hz. by split.
Qed.
End Entries.

Local Open Scope Qc_scope.

Lemma sumQ_le {A} (f g : A → Qc) (l : list A) :
  (∀ i, i ∈ l → f i ≤ g i) → sumQ (f <$> l) ≤ sumQ (g <$> l).
Proof.
  induction l as [|x l IH]; intros H; [by rewrite !fmap_nil, sumQ_nil|].
  rewrite !fmap_cons, !sumQ_cons. apply Qcplus_le_compat.
  - apply H. by left.
  - apply IH. intros i Hi. apply H. by right.
Qed.

Lemma sumQ_const {A} (c : Qc) (l : list A) :
  sumQ ((λ _, c) <$> l) = Qc_of_Z (Z.of_nat (length l)) * c.
Proof.
  induction l as [|x l IH].
  - rewrite fmap_nil, sumQ_nil. cbn [length]. change (Z.of_nat 0) with 0%Z.
    rewrite Z2Qc_inj_0. ring.
  - rewrite fmap_cons, sumQ_cons, IH. cbn [length]. rewrite NQ_S. ring.
Qed.

(** The mass that a table with entries in [0, 1] routes to an outcome is
    in [0, 1]. *)
Lemma mass_unit (p : list Qc) (al : list nat) (k : nat) :
  (∀ i, 0 ≤ entry p i ∧ entry p i ≤ 1) → (k < length p)%nat →
  0 ≤ mass p al k ∧ mass p al k ≤ 1.
Proof.
  intros Hp Hk. unfold mass. cbv zeta.
  set (N := Qc_of_Z (Z.of_nat (length p))).
  assert (HN1 : 1 ≤ N).
  { unfold N. rewrite <-Z2Qc_inj_1, <-Z2Qc_inj_le. lia. }
  destruct (Qc_inv_le_1 N HN1) as [Hi0 Hi1].
  assert (HNi : N * / N = 1).
  { apply Qcmult_inv_r. intros E. rewrite E in HN1. by apply HN1. }
  unfold Qcdiv.
  set (t := λ i, if decide (al !! i = Some k)
                 then (1 - entry p i) * / N else 0).
  set (g := λ i : nat, if decide (i = k)
                       then / N + - (entry p k * / N) else / N).
  assert (Ht0 : ∀ i, 0 ≤ t i).
  { intros i. unfold t. destruct (decide _); [|done].
    apply Qc_mul_nonneg; [|by apply Qclt_le_weak].
    destruct (Hp i) as [_ H1]. revert H1. generalize (entry p i).
    clear. intros x H. fl_lra. }
  assert (Htg : ∀ i, t i ≤ g i).
  { intros i. unfold t, g. destruct (Hp i) as [Hi0' Hi1'].
    assert (Hx : 0 ≤ entry p i * / N)
      by (apply Qc_mul_nonneg; [done|by apply Qclt_le_weak]).
    destruct (decide (al !! i = Some k)), (decide (i = k)) as [->|].
    - apply Qcle_minus_iff. ring_simplify. done.
    - revert Hx. generalize (entry p i * / N) (/ N). clear.
      intros x y Hx. ring_simplify. fl_lra.
    - destruct (Hp k) as [_ Hk1].
      assert (H1 : 0 ≤ (1 - entry p k) * / N).
      { apply Qc_mul_nonneg; [|by apply Qclt_le_weak].
        revert Hk1. generalize (entry p k). clear. intros x H. fl_lra. }
      revert H1. ring_simplify ((1 - entry p k) * / N).
      generalize (entry p k * / N) (/ N). clear. intros x y H. fl_lra.
    - by apply Qclt_le_weak. }
  assert (Hsum : sumQ (g <$> seq 0 (length p)) = 1 + - (entry p k * / N)).
  { rewrite (sumQ_update (λ _, / N) g (seq 0 (length p)) k
               (- (entry p k * / N))).
    - rewrite sumQ_const, length_seq. fold N. by rewrite HNi.
    - apply NoDup_seq.
    - apply elem_of_seq. lia.
    - intros i _ Hi. unfold g. by destruct (decide (i = k)).
    - unfold g. by destruct (decide (k = k)). }
  pose proof (sumQ_le t g (seq 0 (length p)) (λ i _, Htg i)) as Hle.
  rewrite Hsum in Hle.
  assert (Hge : 0 ≤ sumQ (t <$> seq 0 (length p))).
  { apply sumQ_nonneg, Forall_fmap, Forall_forall. intros i _. apply Ht0. }
  assert (Hk0 : 0 ≤ entry p k * / N)
    by (apply Qc_mul_nonneg; [apply Hp|by apply Qclt_le_weak]).
  revert Hle Hge Hk0.
  generalize (sumQ (t <$> seq 0 (length p))) (entry p k * / N).
  clear. intros S x Hle Hge Hk0. split; fl_lra.
Qed.

(** The normalized weight of an outcome is in [0, 1]. *)
Lemma normalized_unit (probs : list float64) (k : nat) :
  Forall finite_nonneg probs → Exists finite_pos probs →
  (k < length probs)%nat →
  0 ≤ normalized (to_Qc <$> probs) k ∧ normalized (to_Qc <$> probs) k ≤ 1.
Proof.
  intros Hfin Hpos Hk. unfold normalized.
  pose proof (weights_nonneg probs Hfin) as Hnn.
  pose proof (W_pos probs Hfin Hpos) as HW.
  destruct (lookup_lt_is_Some_2 (to_Qc <$> probs) k
              ltac:(by rewrite length_fmap)) as [x Hx].
  rewrite (entry_lookup _ _ _ Hx).
  pose proof (sumQ_ge_elem _ x Hnn (list_elem_of_lookup_2 _ _ _ Hx)) as Hle.
  assert (H0 : 0 ≤ x).
  { rewrite Forall_forall in Hnn. apply Hnn.
    by eapply list_elem_of_lookup_2. }
  revert HW Hle H0. generalize (sumQ (to_Qc <$> probs)). clear.
  intros W HW Hle H0. unfold Qcdiv.
  pose proof (Qcinv_pos W HW) as Hi.
  assert (HWi : W * / W = 1).
  { apply Qcmult_inv_r. intros E. rewrite E in HW. by apply Qclt_not_eq in HW. }
  split.
  - apply Qc_mul_nonneg; [done|by apply Qclt_le_weak].
  - rewrite <-HWi. apply Qcmult_le_mono_nonneg_r; [by apply Qclt_le_weak|done].
Qed.

Lemma tolerance_large (n : nat) :
  (2 ^ 46 ≤ Z.of_nat n)%Z → 1 ≤ tolerance n.
Proof.
  intros Hn. unfold tolerance.
  assert (H : Qc_of_Z (2 ^ 46) ≤ Qc_of_Z (Z.of_nat n))
    by (by rewrite <-Z2Qc_inj_le).
  assert (H46 : Qc_of_Z (2 ^ 46) = Q2Qc 70368744177664)
    by (apply Qc_is_canon; by vm_compute).
  rewrite H46 in H. revert H. generalize (Qc_of_Z (Z.of_nat n)). clear.
  intros N H. fl_lra.
Qed.

Lemma InitWithSeed_mass_tolerance {FG : RandGen float64}
    (probs : list float64) (sd : Z) :
  Forall finite_nonneg probs → Exists finite_pos probs →
  finite_nonneg (total probs) →
  ∃ s, InitWithSeed probs sd = Ret (Some s, None) ∧
       Forall finite_nonneg (probability s) ∧
       ∀ k, (k < length probs)%nat →
         mass (to_Qc <$> probability s) (alias s) k
         - normalized (to_Qc <$> probs) k ≤ tolerance (length probs) ∧
         normalized (to_Qc <$> probs) k
         - mass (to_Qc <$> probability s) (alias s) k
           ≤ tolerance (length probs).
Proof.
  intros Hfin Hpos Htot.
  assert (Hn : (0 < length probs)%nat) by (destruct Hpos; cbn; lia).
  destruct (InitWithSeed_entries probs Hn Hfin Hpos sd)
    as (s & Hs & Hlen & Hvalid & Hunit).
  exists s. split; [done|]. split; [done|].
  destruct (decide (Z.of_nat (length probs) < 2 ^ 46)%Z) as [Hsmall|Hlarge].
  - destruct (InitWithSeed_mass_close probs Hfin Hpos Htot Hsmall sd)
      as (s' & Hs' & Hclose).
    rewrite Hs in Hs'. by injection Hs' as <-.
  - intros k Hk.
    destruct (mass_unit (to_Qc <$> probability s) (alias s) k Hunit
                ltac:(by rewrite length_fmap, Hlen)) as [M0 M1].
    destruct (normalized_unit probs k Hfin Hpos Hk) as [W0 W1].
    pose proof (tolerance_large (length probs) ltac:(lia)) as HT.
    revert M0 M1 W0 W1 HT.
    generalize (mass (to_Qc <$> probability s) (alias s) k)
      (normalized (to_Qc <$> probs) k) (tolerance (length probs)).
    clear. intros m w t M0 M1 W0 W1 HT. split; fl_lra.
Qed.
End B64Table.

Lemma lcg_gen_not_negative :
  Float64_not_negative B64.float64 (H0 := lcg_gen).
Proof.
  intros r. cbn [Float64 lcg_gen fst].
  pose proof (N.mod_upper_bound r 4 ltac:(done)) as Hr.
  destruct (r mod 4)%N as [|[[|[]|]|[|[]|]|]]; try lia; by vm_compute.
Qed.

(** The small generator keeps the promises of [math/rand]. *)
Global Instance lcg_gen_spec {F} {FA : Arith F} :
  RandGenSpec F (H := lcg_gen).
Proof.
  split. intros r n Hn. cbn.
  pose proof (N.mod_upper_bound (r / 4) (N.of_nat n)). lia.
Qed.

Lemma lcg_gen_below_one : Float64_below_one B64.float64 (H0 := lcg_gen).
Proof.
  intros r. cbn [Float64 lcg_gen fst].
  pose proof (N.mod_upper_bound r 4 ltac:(done)) as Hr.
  destruct (r mod 4)%N as [|[[|[]|]|[|[]|]|]]; try lia; by vm_compute.
Qed.

(** * The claims *)

(** C2. Each call to [Next] on a sampler over [n >= 1] outcomes makes
    exactly two calls on its generator, in this order: [Intn(n)], which
    gives [column] in [0, n), then [Float64()], which gives [u]; it
    returns [column] when [u < probability[column]] and [alias[column]]
    otherwise, and leaves the generator in the state after these two
    calls, whichever way the coin toss goes. *)
Theorem Next_two_draws {F} {FA : Arith F} {FG : RandGen F}
    `{!RandGenSpec F} (s : AliasSampler F) :
  0 < length (probability s) →
  length (alias s) = length (probability s) →
  ∃ column r1 u r2 a,
    Intn (rand s) (length (probability s)) = (column, r1) ∧
    column < length (probability s) ∧
    Float64 r1 = (u, r2) ∧
    alias s !! column = Some a ∧
    Next s = Ret (if flt u (entry (probability s) column) then column else a,
                  advanced s r2,
                  [DrawIntn (length (probability s)); DrawFloat64]).
Proof. intros Hn Ha. by apply Next_spec. Qed.

Lemma Next_two_draws_witness :
  let s : AliasSampler B64.float64 :=
    @Build_AliasSampler B64.float64 lcg_gen 7 5%N
      [B64.one; B64.zero; B64.one] [0; 2; 0] in
  RandGenSpec B64.float64 ∧
  0 < length (probability s) ∧
  length (alias s) = length (probability s) ∧
  ∃ column r1 u r2 a,
    Intn (rand s) (length (probability s)) = (column, r1) ∧
    column < length (probability s) ∧
    Float64 r1 = (u, r2) ∧
    alias s !! column = Some a ∧
    Next s = Ret (if flt u (entry (probability s) column) then column else a,
                  advanced s r2,
                  [DrawIntn (length (probability s)); DrawFloat64]).
Proof.
  intros s. split; [exact lcg_gen_spec|].
  split; [cbn; lia|]. split; [reflexivity|].
  apply (Next_two_draws s); [cbn; lia|reflexivity].
Defined.

(** C3. A sampler built from a non-empty weight sequence of length [n],
    whatever the weights, has every alias entry in [0, n), and every
    call to [Next] on it returns an index in [0, n). *)
Theorem Next_in_range {F} {FA : Arith F} {FG : RandGen F}
    `{!RandGenSpec F} (probs : list F) (sd : Z) :
  probs ≠ [] →
  ∃ s, InitWithSeed probs sd = Ret (Some s, None) ∧
       length (probability s) = length probs ∧
       length (alias s) = length probs ∧
       Forall (λ a, a < length probs) (alias s) ∧
       ∀ k, ∃ os s', Next_n k s = Ret (os, s') ∧ length os = k ∧
                     Forall (λ o, o < length probs) os.
Proof.
  intros Hne.
  destruct (InitWithSeed_table_ok probs sd Hne) as (s & Hs & Hok & _).
  assert (0 < length probs) by (destruct probs; [done|cbn; lia]).
  exists s. split_and!; [done|apply Hok..| |].
  - apply Forall_lookup. intros i a. apply Hok.
  - intros k. destruct (Next_n_in_range _ k s ltac:(done) Hok)
      as (os & s' & Hn & Hlen & Hos & _).
    by exists os, s'.
Qed.

Lemma Next_in_range_witness :
  let probs := [B64.nan; B64.zero; SFopp B64.one] in
  RandGenSpec B64.float64 ∧ probs ≠ [] ∧
  ∃ s, InitWithSeed probs 7 = Ret (Some s, None) ∧
       length (probability s) = length probs ∧
       length (alias s) = length probs ∧
       Forall (λ a, a < length probs) (alias s) ∧
       ∀ k, ∃ os s', Next_n k s = Ret (os, s') ∧ length os = k ∧
                     Forall (λ o, o < length probs) os.
Proof.
  intros probs. split; [exact lcg_gen_spec|]. split; [discriminate|].
  apply (Next_in_range probs 7). discriminate.
Defined.

(** C4. [InitWithSeed] (and [Init], which calls it with a drawn seed)
    returns an error exactly when the weight sequence has length 0; with
    the error it returns a nil sampler, and for every non-empty sequence,
    whatever its values (negative, NaN, infinite, all zero), it returns a
    sampler and a nil error.  It never panics and never runs out of fuel. *)
Theorem construction_fails_iff_empty {F} {FA : Arith F} {FG : RandGen F}
    (probs : list F) (sd : Z) (g : Rand) :
  ∃ ptr err,
    InitWithSeed probs sd = Ret (ptr, err) ∧
    (err ≠ None ↔ length probs = 0) ∧
    (err ≠ None → ptr = None) ∧
    (err = None → ptr ≠ None) ∧
    Init probs g = (InitWithSeed probs (Int63 g).1, (Int63 g).2).
Proof.
  assert (HInit : Init probs g = (InitWithSeed probs (Int63 g).1, (Int63 g).2))
    by (unfold Init; by destruct (Int63 g)).
  destruct probs as [|p probs].
  - eexists None, (Some _). by split_and!.
  - destruct (InitWithSeed_table_ok (p :: probs) sd ltac:(done))
      as (s & Hs & _).
    exists (Some s), None. by split_and!.
Qed.

(** C5. Both when the stacks are populated and when [more] is classified
    again in the pairing loop, an index whose current weight [x] satisfies
    [x >= average] (with [average = 1.0 / float64(n)]) goes to [large] and
    any other goes to [small]; the comparison is the exact binary64 one,
    so a weight strictly below the average goes to [small] and a weight
    equal to the average goes to [large]. *)
Theorem classification_at_average (probs : list B64.float64) :
  let n := length probs in
  let average := B64.div B64.one (B64.of_nat n) in
  (∀ b0 i, populated probs = Ret b0 → i < n →
     (B64.ge (entry (probs2 b0) i) average = true →
        i ∈ large b0 ∧ i ∉ small b0) ∧
     (B64.ge (entry (probs2 b0) i) average = false →
        i ∈ small b0 ∧ i ∉ large b0)) ∧
  (∀ b b', length (probs2 b) = n → pair_body probs average b = Ret b' →
     ∃ less s1 more l1,
       small b = less :: s1 ∧ large b = more :: l1 ∧
       (B64.ge (entry (probs2 b') more) average = true →
          small b' = s1 ∧ large b' = more :: l1) ∧
       (B64.ge (entry (probs2 b') more) average = false →
          small b' = more :: s1 ∧ large b' = l1)) ∧
  (∀ x, B64.lt x average = true → B64.ge x average = false) ∧
  (∀ x, x = average → B64.ge x average = true).
Proof.
  intros n average. split_and!.
  - intros b0 i Hb0 Hi. exact (populated_classifies probs b0 i Hb0 Hi).
  - intros b b' Hlen Hb. exact (pair_body_reclassifies probs b b' Hlen Hb).
  - intros x. apply B64Facts.lt_not_ge.
  - intros x ->. apply B64Facts.average_ge_itself.
Qed.

(** C6. When the pairing loop has ended, the drain step sets the
    probability entry of every index still on either worklist to exactly
    1.0 and leaves its alias entry at the initial 0; every other index
    has the probability entry the pairing loop assigned to it, so no
    index is left without an assigned probability entry. *)
Theorem drain_assigns_one {F} {FA : Arith F} {FG : RandGen F}
    (probs : list F) (sd : Z) :
  probs ≠ [] →
  ∃ b s,
    paired probs = Ret b ∧ pairing b = false ∧
    InitWithSeed probs sd = Ret (Some s, None) ∧
    (∀ i, i ∈ small b ++ large b →
       probability s !! i = Some fone ∧ alias s !! i = Some 0) ∧
    (∀ i, i < length probs → i ∉ small b ++ large b →
       probability s !! i = b_probability b !! i ∧
       probability s !! i
       = Some (fmul (entry (probs2 b) i) (of_int (length probs)))) ∧
    (∀ i, i < length probs → is_Some (probability s !! i)).
Proof.
  intros Hne.
  destruct (InitWithSeed_run probs sd Hne)
    as (b0 & k & b & p & _ & Hrun & _ & Hpaired & Hwf & Has & Hlen & Hin
        & Hout & Hinit).
  eexists b, _. split_and!; [done|by eapply pair_run_exits|exact Hinit|..].
  - intros i Hi. cbn. split; [by apply Hin|by apply Has].
  - intros i Hi Hni. cbn. rewrite Hout by done. split; [done|].
    by apply Has.
  - intros i Hi. cbn. apply lookup_lt_is_Some_2. lia.
Qed.

Lemma drain_assigns_one_witness :
  let probs := [B64.one; B64.of_nat 3; B64.zero] in
  probs ≠ [] ∧
  ∃ (b : builder B64.float64) (s : AliasSampler B64.float64),
    paired probs = Ret b ∧ pairing b = false ∧
    InitWithSeed probs 7 = Ret (Some s, None) ∧
    (∀ i, i ∈ small b ++ large b →
       probability s !! i = Some fone ∧ alias s !! i = Some 0) ∧
    (∀ i, i < length probs → i ∉ small b ++ large b →
       probability s !! i = b_probability b !! i ∧
       probability s !! i
       = Some (fmul (entry (probs2 b) i) (of_int (length probs)))) ∧
    (∀ i, i < length probs → is_Some (probability s !! i)).
Proof.
  intros probs. split; [discriminate|].
  apply (drain_assigns_one (FG := lcg_gen) probs 7). discriminate.
Defined.

(** C10. The pairing loop terminates on every non-empty weight vector:
    an iteration pops one index from each worklist and pushes one back,
    so the combined size of the worklists drops by exactly one; entered
    with all [n] indices on the worklists, the loop makes [k <= n - 1]
    iterations and is left with one worklist empty. *)
Theorem pairing_loop_terminates {F} {FA : Arith F} (probs : list F) :
  probs ≠ [] →
  let average := fdiv fone (of_int (length probs)) in
  (∀ b1 b2, pair_body probs average b1 = Ret b2 →
     ∃ less s1 more l1,
       small b1 = less :: s1 ∧ large b1 = more :: l1 ∧
       (small b2 = s1 ∧ large b2 = more :: l1 ∨
        small b2 = more :: s1 ∧ large b2 = l1) ∧
       worklist_size b2 + 1 = worklist_size b1) ∧
  ∃ b0 k b,
    populated probs = Ret b0 ∧ worklist_size b0 = length probs ∧
    pair_run probs average k b0 b ∧
    k ≤ length probs - 1 ∧
    worklist_size b + k = length probs ∧
    (small b = [] ∨ large b = []) ∧
    (∀ fuel, k ≤ fuel → pair_loop fuel probs average b0 = Ret b) ∧
    paired probs = Ret b.
Proof.
  intros Hne average. split.
  - intros b1 b2
      (less & s1 & more & l1 & Hs & Hl & _ & _ & _ & _ & ->)%pair_body_Ret_inv.
    exists less, s1, more, l1. split_and!; [done..| |].
    + cbn. destruct (fge _ _); auto.
    + by apply paired_with_size.
  - destruct (InitWithSeed_run (FG := lcg_gen) probs 0 Hne)
      as (b0 & k & b & p & Hb0 & Hrun & Hk & Hpaired & _).
    pose proof (populated_worklist_size probs b0 Hb0) as Hsz.
    exists b0, k, b. split_and!; try done.
    + rewrite <-Hsz. by eapply pair_run_size.
    + by eapply pairing_false, pair_run_exits.
    + intros fuel Hfuel. by eapply pair_run_loop.
Qed.

Lemma pairing_loop_terminates_witness :
  let probs := [B64.one; B64.of_nat 3; B64.zero; B64.of_nat 9] in
  probs ≠ [] ∧
  let average := fdiv fone (of_int (length probs)) in
  (∀ b1 b2, pair_body probs average b1 = Ret b2 →
     ∃ less s1 more l1,
       small b1 = less :: s1 ∧ large b1 = more :: l1 ∧
       (small b2 = s1 ∧ large b2 = more :: l1 ∨
        small b2 = more :: s1 ∧ large b2 = l1) ∧
       worklist_size b2 + 1 = worklist_size b1) ∧
  ∃ b0 k b,
    populated probs = Ret b0 ∧ worklist_size b0 = length probs ∧
    pair_run probs average k b0 b ∧
    k ≤ length probs - 1 ∧
    worklist_size b + k = length probs ∧
    (small b = [] ∨ large b = []) ∧
    (∀ fuel, k ≤ fuel → pair_loop fuel probs average b0 = Ret b) ∧
    paired probs = Ret b.
Proof.
  intros probs. split; [discriminate|].
  apply (pairing_loop_terminates probs). discriminate.
Defined.

(** A table over a single outcome gives outcome 0 at every draw. *)
Lemma single_column_draws {F} {FA : Arith F} {FG : RandGen F}
    `{!RandGenSpec F} (k : nat) (s : AliasSampler F) :
  length (probability s) = 1 → alias s = [0] →
  ∃ s', Next_n k s = Ret (replicate k 0, s').
Proof.
  revert s. induction k as [|k IH]; intros s Hp Ha; [by exists s|].
  destruct (Next_spec 1 s ltac:(lia) Hp ltac:(by rewrite Ha))
    as (column & r1 & u & r2 & a & _ & Hcol & _ & Hal & Hnext).
  assert (column = 0) as -> by lia. rewrite Ha in Hal. injection Hal as <-.
  destruct (IH (advanced s r2) Hp Ha) as (s' & Hs').
  exists s'. cbn [Next_n replicate].
  rewrite Hnext, res_bind_Ret. destruct (flt _ _); by rewrite Hs'.
Qed.

(** C7. For the weight vector [1.0], construction succeeds with
    [probability = [1.0]] (and [alias = [0]]), and every later call to
    [Next] returns index 0. *)
Theorem single_outcome {FG : RandGen B64.float64}
    `{!RandGenSpec B64.float64} (sd : Z) :
  ∃ s, InitWithSeed [B64.one] sd = Ret (Some s, None) ∧
       probability s = [B64.one] ∧ alias s = [0] ∧
       ∀ k, ∃ s', Next_n k s = Ret (replicate k 0, s').
Proof.
  exists (@Build_AliasSampler _ FG sd (NewSource sd) [B64.one] [0]).
  split; [vm_compute; reflexivity|]. cbn [probability alias].
  split_and!; [done..|]. intros k. by apply single_column_draws.
Qed.

Lemma single_outcome_witness :
  RandGenSpec B64.float64 ∧
  ∃ s, InitWithSeed (FG := lcg_gen) [B64.one] 7 = Ret (Some s, None) ∧
       probability s = [B64.one] ∧ alias s = [0] ∧
       ∀ k, ∃ s', Next_n k s = Ret (replicate k 0, s').
Proof. split; [exact lcg_gen_spec|]. apply (single_outcome 7). Defined.

(** ** Weights that are all zero *)






(** C1, as the code has it: for [n >= 1] finite non-negative binary64
    weights, not all zero, whose binary64 sum is finite, construction
    returns tables whose probability entries are finite and that route to
    every outcome [k] its normalized weight within [n * 2^-46]: the mass
    [probability[k]/n] plus [(1 - probability[i])/n] over the columns
    [i] with [alias[i] = k], computed exactly from the binary64 entries,
    differs from [weights[k] / Σ weights], computed exactly from the
    binary64 weights, by at most that. *)
Theorem float_mass_is_normalized_weight {FG : RandGen B64.float64}
    (probs : list B64.float64) (sd : Z) :
  Forall finite_nonneg probs → Exists finite_pos probs →
  finite_nonneg (total probs) →
  ∃ s, InitWithSeed probs sd = Ret (Some s, None) ∧
       Forall finite_nonneg (probability s) ∧
       ∀ k, k < length probs →
         (mass (to_Qc <$> probability s) (alias s) k
          - normalized (to_Qc <$> probs) k
          ≤ tolerance (length probs))%Qc ∧
         (normalized (to_Qc <$> probs) k
          - mass (to_Qc <$> probability s) (alias s) k
          ≤ tolerance (length probs))%Qc.
Proof.
  intros Hfin Hpos Htot.
  exact (B64Table.InitWithSeed_mass_tolerance probs sd Hfin Hpos Htot).
Qed.

Lemma float_mass_is_normalized_weight_witness :
  let probs := [B64.one; B64.of_nat 2; B64.zero; B64.of_nat 7] in
  Forall finite_nonneg probs ∧ Exists finite_pos probs ∧
  finite_nonneg (total probs) ∧
  ∃ s, InitWithSeed (FG := lcg_gen) probs 7 = Ret (Some s, None) ∧
       Forall finite_nonneg (probability s) ∧
       ∀ k, k < length probs →
         (mass (to_Qc <$> probability s) (alias s) k
          - normalized (to_Qc <$> probs) k
          ≤ tolerance (length probs))%Qc ∧
         (normalized (to_Qc <$> probs) k
          - mass (to_Qc <$> probability s) (alias s) k
          ≤ tolerance (length probs))%Qc.
Proof.
  intros probs.
  assert (Hnn : Forall finite_nonneg probs)
    by (repeat apply Forall_cons_2; (reflexivity || exact I || apply Forall_nil_2)).
  assert (Hpos : Exists finite_pos probs)
    by (apply Exists_cons_hd; reflexivity).
  assert (Htot : finite_nonneg (total probs)) by (by vm_compute).
  split; [exact Hnn|]. split; [exact Hpos|]. split; [exact Htot|].
  apply (float_mass_is_normalized_weight probs 7);
    [exact Hnn|exact Hpos|exact Htot].
Defined.

(** C1, as the specification states it, fails in binary64 when the sum of
    the weights overflows.  The weights [2^1023, 2^1023, 1.0] are finite
    and positive; their sum is +Inf, every normalized weight is 0, and
    the table is the uniform one.  It routes 1/3 to outcome 2, whose
    normalized weight is below 10^-300, and 1/3 to outcome 0, whose
    normalized weight is above 0.49. *)
Lemma overflowing_sum_loses_the_weights :
  let weights := [B64.pow2 1023; B64.pow2 1023; B64.one] in
  Forall (λ x, valid_binary B64.prec B64.emax x = true
               ∧ B64.lt B64.zero x = true) weights ∧
  total weights = S754_infinity false ∧
  ∃ s, InitWithSeed (FG := lcg_gen) weights 7 = Ret (Some s, None) ∧
       probability s = [B64.one; B64.one; B64.one] ∧
       alias s = [0; 0; 0] ∧
       (mass (to_Qc <$> probability s) (alias s) 2
        - normalized (to_Qc <$> weights) 2 > Q2Qc (33 # 100))%Qc ∧
       (normalized (to_Qc <$> weights) 0
        - mass (to_Qc <$> probability s) (alias s) 0 > Q2Qc (16 # 100))%Qc.
Proof.
  intros weights. split; [|split].
  - repeat apply Forall_cons_2; (by vm_compute) || apply Forall_nil_2.
  - by vm_compute.
  - exists (@Build_AliasSampler _ lcg_gen 7 7%N
              [B64.one; B64.one; B64.one] [0; 0; 0]).
    split; [vm_compute; reflexivity|]. cbn [probability alias].
    split_and!; [done|done|by vm_compute..].
Qed.

(** C8. For [n >= 1] finite non-negative binary64 weights that are not
    all zero, the table has two arrays of length [n], every probability
    entry [p] satisfies [0.0 <= p] and [p <= 1.0], and every alias entry
    lies in [0, n-1]. *)
Theorem table_entries_in_range {FG : RandGen B64.float64}
    (probs : list B64.float64) (sd : Z) :
  probs ≠ [] → Forall finite_nonneg probs → Exists finite_pos probs →
  ∃ s, InitWithSeed probs sd = Ret (Some s, None) ∧
       length (probability s) = length probs ∧
       length (alias s) = length probs ∧
       Forall in_unit (probability s) ∧
       Forall (λ a, a < length probs) (alias s).
Proof.
  intros Hne Hnn Hpos.
  assert (Hn : 0 < length probs) by (destruct probs; [done|cbn; lia]).
  destruct (B64Run.InitWithSeed_in_unit probs Hn Hnn Hpos sd) as (s & Hs & Hp).
  destruct (InitWithSeed_table_ok probs sd Hne) as (s' & Hs' & Hok & _).
  assert (s' = s) as -> by congruence.
  exists s. split_and!; [done|apply Hok..|done|].
  apply Forall_lookup. intros i a. apply Hok.
Qed.

Lemma table_entries_in_range_witness :
  let probs := [B64.one; B64.of_nat 2; B64.zero; B64.pow2 (-3)] in
  probs ≠ [] ∧ Forall finite_nonneg probs ∧ Exists finite_pos probs ∧
  ∃ s, InitWithSeed (FG := lcg_gen) probs 7 = Ret (Some s, None) ∧
       length (probability s) = length probs ∧
       length (alias s) = length probs ∧
       Forall in_unit (probability s) ∧
       Forall (λ a, a < length probs) (alias s).
Proof.
  intros probs.
  assert (Hnn : Forall finite_nonneg probs)
    by (repeat apply Forall_cons_2; (reflexivity || exact I || apply Forall_nil_2)).
  assert (Hpos : Exists finite_pos probs)
    by (apply Exists_cons_hd; reflexivity).
  split; [discriminate|]. split; [exact Hnn|]. split; [exact Hpos|].
  apply (table_entries_in_range probs 7);
    [discriminate|exact Hnn|exact Hpos].
Defined.

(** * Further properties of the code *)

(** X4. [InitWithSeed] draws nothing from the generator it creates: the
    sampler holds the seed it was given and the generator freshly made
    from it, and the two tables are the same for every seed. *)
Theorem seed_only_seeds {F} {FA : Arith F} {FG : RandGen F}
    (probs : list F) (sd sd' : Z) :
  probs ≠ [] →
  ∃ s s', InitWithSeed probs sd = Ret (Some s, None) ∧
          InitWithSeed probs sd' = Ret (Some s', None) ∧
          seed s = sd ∧ rand s = NewSource sd ∧
          probability s' = probability s ∧ alias s' = alias s.
Proof.
  intros Hne.
  destruct (InitWithSeed_table_ok probs sd Hne) as (s & Hs & _ & Hseed & Hr).
  destruct (InitWithSeed_table_ok probs sd' Hne) as (s' & Hs' & _).
  exists s, s'. destruct (InitWithSeed_tables probs sd sd' s s' Hs Hs').
  by split_and!.
Qed.

Lemma seed_only_seeds_witness :
  let probs := [B64.one; B64.of_nat 3; B64.zero] in
  probs ≠ [] ∧
  ∃ s s', InitWithSeed (FG := lcg_gen) probs 7 = Ret (Some s, None) ∧
          InitWithSeed (FG := lcg_gen) probs 11 = Ret (Some s', None) ∧
          seed s = 7%Z ∧ rand s = NewSource 7 ∧
          probability s' = probability s ∧ alias s' = alias s.
Proof.
  intros probs. split; [discriminate|].
  apply (seed_only_seeds (FG := lcg_gen) probs 7 11). discriminate.
Defined.

(** X5. [Init] takes exactly one [Int63] from the process-wide source
    and builds the sampler from it; the sampler keeps that seed, and
    [InitWithSeed] called with the kept seed builds the same sampler. *)
Theorem Init_seed_rebuilds {F} {FA : Arith F} {FG : RandGen F}
    (probs : list F) (g : Rand) :
  probs ≠ [] →
  ∃ s, Init probs g = (Ret (Some s, None), (Int63 g).2) ∧
       seed s = (Int63 g).1 ∧
       InitWithSeed probs (seed s) = Ret (Some s, None).
Proof.
  intros Hne.
  destruct (InitWithSeed_table_ok probs (Int63 g).1 Hne)
    as (s & Hs & _ & Hseed & _).
  exists s. unfold Init. destruct (Int63 g) as [sd g'] eqn:Hg.
  cbn [fst snd] in *. split_and!; [by rewrite Hs|done|by rewrite Hseed].
Qed.

Lemma Init_seed_rebuilds_witness :
  let probs := [B64.one; B64.of_nat 3; B64.zero] in
  probs ≠ [] ∧
  ∃ s, Init (FG := lcg_gen) probs 5%N
       = (Ret (Some s, None), (Int63 (RandGen := lcg_gen) 5%N).2) ∧
       seed s = (Int63 (RandGen := lcg_gen) 5%N).1 ∧
       InitWithSeed probs (seed s) = Ret (Some s, None).
Proof.
  intros probs. split; [discriminate|].
  apply (Init_seed_rebuilds (FG := lcg_gen) probs 5%N). discriminate.
Defined.

(** X6. Drawing never writes to the sampler's tables: after any number
    of calls of [Next] that return, the seed, [probability] and [alias]
    are what they were; only the generator has advanced. *)
Theorem Next_keeps_tables {F} {FA : Arith F} {FG : RandGen F}
    (k : nat) (s s' : AliasSampler F) (os : list nat) :
  Next_n k s = Ret (os, s') →
  length os = k ∧
  seed s' = seed s ∧ probability s' = probability s ∧ alias s' = alias s.
Proof. apply Next_n_Ret_inv. Qed.

Lemma Next_keeps_tables_witness :
  let s : AliasSampler B64.float64 :=
    @Build_AliasSampler B64.float64 lcg_gen 7 5%N
      [B64.one; B64.zero; B64.one] [0; 2; 0] in
  ∃ os s', Next_n 4 s = Ret (os, s') ∧
           length os = 4 ∧
           seed s' = seed s ∧ probability s' = probability s ∧
           alias s' = alias s.
Proof.
  intros s.
  destruct (Next_n 4 s) as [[os s']| |] eqn:Hn;
    [|by vm_compute in Hn..].
  exists os, s'. split; [reflexivity|].
  exact (Next_keeps_tables 4 s s' os Hn).
Defined.

(** X7. Whatever the weights, the pairing loop leaves at least one index
    on a worklist: the table always has a column whose probability entry
    is exactly 1.0 and whose alias entry is the initial 0. *)
Theorem some_column_is_drained {F} {FA : Arith F} {FG : RandGen F}
    (probs : list F) (sd : Z) :
  probs ≠ [] →
  ∃ s i, InitWithSeed probs sd = Ret (Some s, None) ∧
         i < length probs ∧
         probability s !! i = Some fone ∧ alias s !! i = Some 0.
Proof.
  intros Hne.
  destruct (InitWithSeed_run probs sd Hne)
    as (b0 & k & b & p & Hb0 & Hrun & Hk & _ & Hwf & Has & Hlen & Hin
        & _ & Hinit).
  pose proof (pair_run_size _ _ _ _ _ Hrun) as Hsz.
  rewrite (populated_worklist_size probs b0 Hb0) in Hsz.
  assert (0 < length probs) by (destruct probs; [done|cbn; lia]).
  assert (∃ i, i ∈ small b ++ large b) as [i Hi].
  { unfold worklist_size, Deque.Len in Hsz. rewrite <-length_app in Hsz.
    destruct (small b ++ large b) as [|i l]; [cbn in Hsz; lia|].
    exists i. by left. }
  eexists _, i. split; [exact Hinit|]. cbn [probability alias].
  split_and!; [by apply (wf_range _ _ Hwf)|by apply Hin|].
  by apply (assigned_alias _ _ Has).
Qed.

Lemma some_column_is_drained_witness :
  let probs := [B64.one; B64.of_nat 3; B64.zero] in
  probs ≠ [] ∧
  ∃ s i, InitWithSeed (FG := lcg_gen) probs 7 = Ret (Some s, None) ∧
         i < length probs ∧
         probability s !! i = Some fone ∧ alias s !! i = Some 0.
Proof.
  intros probs. split; [discriminate|].
  apply (some_column_is_drained (FG := lcg_gen) probs 7). discriminate.
Defined.

(** X8. The pairing loop gives a column [less] the alias [more], which
    is another index: in the table a column that is its own alias is a
    drained one, with probability entry exactly 1.0. *)
Theorem self_alias_is_drained {F} {FA : Arith F} {FG : RandGen F}
    (probs : list F) (sd : Z) :
  probs ≠ [] →
  ∃ s, InitWithSeed probs sd = Ret (Some s, None) ∧
       ∀ i, alias s !! i = Some i → probability s !! i = Some fone.
Proof.
  intros Hne.
  destruct (InitWithSeed_run probs sd Hne)
    as (b0 & k & b & p & Hb0 & Hrun & Hk & _ & Hwf & Has & Hlen & Hin
        & _ & Hinit).
  pose proof (populated_wf probs b0 Hne Hb0) as Hwf0.
  eexists. split; [exact Hinit|]. cbn [probability alias]. intros i Hal.
  destruct (decide (i ∈ small b ++ large b)) as [Hi|Hi]; [by apply Hin|].
  exfalso. revert Hal. apply (pair_run_alias_ne _ _ _ _ _ _ Hrun Hwf0); [|done].
  intros j Hj Hal. apply Hj, (populated_all_listed probs b0 j Hb0).
  rewrite <-(wf_alias _ _ Hwf0). by eapply lookup_lt_Some.
Qed.

Lemma self_alias_is_drained_witness :
  let probs := [B64.one; B64.of_nat 3; B64.zero] in
  probs ≠ [] ∧
  ∃ s, InitWithSeed (FG := lcg_gen) probs 7 = Ret (Some s, None) ∧
       ∀ i, alias s !! i = Some i → probability s !! i = Some fone.
Proof.
  intros probs. split; [discriminate|].
  apply (self_alias_is_drained (FG := lcg_gen) probs 7). discriminate.
Defined.

(** X9. The only error of construction is the one for the empty slice,
    and its [Error()] is the text ["no probabilities provided"]. *)
Theorem empty_input_error_text {F} {FA : Arith F} {FG : RandGen F}
    (probs : list F) (sd : Z) (ptr : option (AliasSampler F))
    (e : SampleError) :
  InitWithSeed probs sd = Ret (ptr, Some e) →
  probs = [] ∧ ptr = None ∧ Error e = "no probabilities provided"%string.
Proof.
  destruct probs as [|p probs].
  - by intros [= <- <-].
  - destruct (InitWithSeed_table_ok (p :: probs) sd ltac:(done))
      as (s & -> & _). done.
Qed.

Lemma empty_input_error_text_witness :
  InitWithSeed (F := B64.float64) (FG := lcg_gen) [] 7
  = Ret (None, Some {| message := "no probabilities provided" |}) ∧
  @nil B64.float64 = [] ∧ @None (AliasSampler B64.float64) = None ∧
  Error {| message := "no probabilities provided" |}
  = "no probabilities provided"%string.
Proof.
  split; [reflexivity|].
  exact (empty_input_error_text (F := B64.float64) (FG := lcg_gen)
           [] 7 None _ eq_refl).
Defined.

(** X10. The counting loop of [TestInit], run on the sampler that [Init]
    returns for a non-empty slice, never indexes [res] out of range, and
    when it ends the counts add up to the number of draws. *)
Theorem test_counts_add_up {F} {FA : Arith F} {FG : RandGen F}
    `{!RandGenSpec F} (probs : list F) (g : Rand) (sz : nat) :
  probs ≠ [] →
  ∃ s g' counts s',
    Init probs g = (Ret (Some s, None), g') ∧
    count_draws sz s (replicate (length probs) 0) = Ret (counts, s') ∧
    length counts = length probs ∧ sum_list counts = sz.
Proof.
  intros Hne.
  destruct (InitWithSeed_table_ok probs (Int63 g).1 Hne)
    as (s & Hs & Hok & _).
  assert (0 < length probs) by (destruct probs; [done|cbn; lia]).
  destruct (count_draws_spec (length probs) sz s
              (replicate (length probs) 0) ltac:(done) Hok
              ltac:(by rewrite length_replicate))
    as (counts & s' & Hrun & Hlen & Hsum & _).
  exists s, (Int63 g).2, counts, s'. split_and!; [|done|done|].
  - unfold Init. destruct (Int63 g). by rewrite <-Hs.
  - rewrite Hsum. clear. induction (length probs); [done|]. cbn. lia.
Qed.

Lemma test_counts_add_up_witness :
  let probs := [B64.one; B64.of_nat 3; B64.zero] in
  RandGenSpec B64.float64 ∧ probs ≠ [] ∧
  ∃ s g' counts s',
    Init (FG := lcg_gen) probs 5%N = (Ret (Some s, None), g') ∧
    count_draws 10 s (replicate (length probs) 0) = Ret (counts, s') ∧
    length counts = length probs ∧ sum_list counts = 10.
Proof.
  intros probs. split; [exact lcg_gen_spec|]. split; [discriminate|].
  apply (test_counts_add_up (FG := lcg_gen) probs 5%N 10). discriminate.
Defined.

(** X2. A NaN among the weights is not rejected and does not reach the
    table: the sum is NaN, so is every normalized weight, every
    comparison with the average is false, the pairing loop does not
    run, and the table is that of the uniform distribution (every
    probability entry 1.0, every alias entry 0); a draw returns the
    column that [Intn] drew. *)
Theorem nan_weight_gives_uniform_table {FG : RandGen B64.float64}
    `{!RandGenSpec B64.float64} (probs : list B64.float64) (sd : Z) :
  Exists (λ x, x = B64.nan) probs → Float64_below_one B64.float64 →
  total probs = B64.nan ∧
  ∃ s, InitWithSeed probs sd = Ret (Some s, None) ∧
       probability s = replicate (length probs) B64.one ∧
       alias s = replicate (length probs) 0 ∧
       ∀ r, ∃ s' log,
         Next (advanced s r) = Ret ((Intn r (length probs)).1, s', log).
Proof.
  intros Hnan Hu. pose proof (B64Edge.total_nan probs Hnan) as Htot.
  split; [done|].
  assert (Hne : probs ≠ []) by (intros ->; by apply Exists_nil in Hnan).
  assert (Hn : 0 < length probs) by (destruct probs; [done|cbn; lia]).
  eexists. split.
  - apply all_small_table; [done|]. intros i Hi. rewrite Htot.
    destruct (B64Edge.normalize_entry probs B64.nan i Hi) as (x & _ & ->).
    rewrite B64Edge.div_nan_r. apply B64Facts.ge_nan_l.
  - cbn [probability alias]. split_and!; [done..|]. intros r.
    apply (unit_table_draw (length probs)); [done|done|done|].
    cbn. by rewrite length_replicate.
Qed.

Lemma nan_weight_gives_uniform_table_witness :
  let probs := [B64.one; B64.nan; B64.of_nat 3] in
  RandGenSpec B64.float64 ∧
  Exists (λ x, x = B64.nan) probs ∧ Float64_below_one B64.float64 ∧
  total probs = B64.nan ∧
  ∃ s, InitWithSeed (FG := lcg_gen) probs 7 = Ret (Some s, None) ∧
       probability s = replicate (length probs) B64.one ∧
       alias s = replicate (length probs) 0 ∧
       ∀ r, ∃ s' log,
         Next (advanced s r) = Ret ((Intn r (length probs)).1, s', log).
Proof.
  intros probs.
  assert (Hnan : Exists (λ x, x = B64.nan) probs)
    by (apply Exists_cons_tl, Exists_cons_hd; reflexivity).
  split; [exact lcg_gen_spec|]. split; [exact Hnan|].
  split; [exact lcg_gen_below_one|].
  apply (nan_weight_gives_uniform_table probs 7);
    [exact Hnan|exact lcg_gen_below_one].
Defined.

(** X3. When the weights are not negative and their binary64 sum is
    +Inf (a weight is +Inf, or the sum overflows), every normalized
    weight is a zero or NaN and fails the comparison with the average:
    the table is that of the uniform distribution, whatever the
    weights were. *)
Theorem infinite_sum_gives_uniform_table {FG : RandGen B64.float64}
    `{!RandGenSpec B64.float64} (probs : list B64.float64) (sd : Z) :
  Forall nonneg probs → total probs = S754_infinity false →
  (Z.of_nat (length probs) < 2 ^ 63)%Z → Float64_below_one B64.float64 →
  ∃ s, InitWithSeed probs sd = Ret (Some s, None) ∧
       probability s = replicate (length probs) B64.one ∧
       alias s = replicate (length probs) 0 ∧
       ∀ r, ∃ s' log,
         Next (advanced s r) = Ret ((Intn r (length probs)).1, s', log).
Proof.
  intros Hnn Htot Hlen Hu.
  assert (Hne : probs ≠ []) by (by intros ->).
  assert (Hn : 0 < length probs) by (destruct probs; [done|cbn; lia]).
  destruct (B64Edge.average_positive _ Hn Hlen) as (ma & ea & Havg).
  eexists. split.
  - apply all_small_table; [done|]. intros i Hi. rewrite Htot.
    destruct (B64Edge.normalize_entry probs (S754_infinity false) i Hi)
      as (x & Hx & ->).
    rewrite Forall_forall in Hnn.
    cbn [fge fdiv fone of_int binary64]. rewrite Havg.
    by destruct (B64Edge.div_inf_r x (Hnn x Hx)) as [->|[s ->]].
  - cbn [probability alias]. split_and!; [done..|]. intros r.
    apply (unit_table_draw (length probs)); [done|done|done|].
    cbn. by rewrite length_replicate.
Qed.

Lemma infinite_sum_gives_uniform_table_witness :
  let probs := [B64.pow2 1023; B64.one; B64.pow2 1023] in
  RandGenSpec B64.float64 ∧
  Forall nonneg probs ∧ total probs = S754_infinity false ∧
  (Z.of_nat (length probs) < 2 ^ 63)%Z ∧ Float64_below_one B64.float64 ∧
  ∃ s, InitWithSeed (FG := lcg_gen) probs 7 = Ret (Some s, None) ∧
       probability s = replicate (length probs) B64.one ∧
       alias s = replicate (length probs) 0 ∧
       ∀ r, ∃ s' log,
         Next (advanced s r) = Ret ((Intn r (length probs)).1, s', log).
Proof.
  intros probs.
  assert (Hnn : Forall nonneg probs)
    by (repeat apply Forall_cons_2; (by left; vm_compute) || apply Forall_nil_2).
  assert (Htot : total probs = S754_infinity false) by (by vm_compute).
  assert (Hlen : (Z.of_nat (length probs) < 2 ^ 63)%Z) by (by vm_compute).
  split; [exact lcg_gen_spec|]. split; [exact Hnn|]. split; [exact Htot|].
  split; [exact Hlen|]. split; [exact lcg_gen_below_one|].
  apply (infinite_sum_gives_uniform_table probs 7);
    [exact Hnn|exact Htot|exact Hlen|exact lcg_gen_below_one].
Defined.

(** X11. The loop that populates the stacks visits the indices
    [0 .. n-1] in order and pushes each on exactly one stack: read from
    the bottom, [small] lists in increasing order the indices whose
    normalized weight fails [>= average] and [large] those that pass;
    the loop never indexes out of range, and the pairing loop is entered
    with [probability] all zero and [alias] all 0. *)
Theorem populate_keeps_index_order {F} {FA : Arith F} (probs : list F) :
  let w := normalize probs (total probs) in
  let average := fdiv fone (of_int (length probs)) in
  ∃ b0, populated probs = Ret b0 ∧
        probs2 b0 = w ∧
        reverse (small b0)
        = filter (λ i, fge (entry w i) average = false) (seq 0 (length probs)) ∧
        reverse (large b0)
        = filter (λ i, fge (entry w i) average = true) (seq 0 (length probs)) ∧
        b_probability b0 = replicate (length probs) fzero ∧
        b_alias b0 = replicate (length probs) 0.
Proof.
  intros w average. eexists. split; [apply populated_spec|].
  cbn [probs2 small large b_probability b_alias].
  by rewrite !reverse_involutive.
Qed.

(** X1. For fewer than [2^46] finite non-negative binary64 weights, not
    all zero, whose binary64 sum is finite, the table that [InitWithSeed]
    builds routes to every outcome [k] its normalized weight up to
    [n * 2^-46]: the mass [probability[k]/n] plus [(1 - probability[i])/n]
    over the columns [i] with [alias[i] = k], computed exactly from the
    binary64 entries, differs from [weights[k] / Σ weights], computed
    exactly from the binary64 weights, by at most that. *)
Theorem float_mass_within_tolerance {FG : RandGen B64.float64}
    (probs : list B64.float64) (sd : Z) :
  Forall finite_nonneg probs → Exists finite_pos probs →
  finite_nonneg (total probs) →
  (Z.of_nat (length probs) < 2 ^ 46)%Z →
  ∃ s, InitWithSeed probs sd = Ret (Some s, None) ∧
       ∀ k, k < length probs →
         (mass (to_Qc <$> probability s) (alias s) k
          - normalized (to_Qc <$> probs) k
          ≤ tolerance (length probs))%Qc ∧
         (normalized (to_Qc <$> probs) k
          - mass (to_Qc <$> probability s) (alias s) k
          ≤ tolerance (length probs))%Qc.
Proof.
  intros Hfin Hpos Htot Hn.
  exact (B64Mass.InitWithSeed_mass_close probs Hfin Hpos Htot Hn sd).
Qed.

Lemma float_mass_within_tolerance_witness :
  let probs := [B64.one; B64.of_nat 2; B64.zero; B64.pow2 (-3)] in
  Forall finite_nonneg probs ∧ Exists finite_pos probs ∧
  finite_nonneg (total probs) ∧
  (Z.of_nat (length probs) < 2 ^ 46)%Z ∧
  ∃ s, InitWithSeed (FG := lcg_gen) probs 7 = Ret (Some s, None) ∧
       ∀ k, k < length probs →
         (mass (to_Qc <$> probability s) (alias s) k
          - normalized (to_Qc <$> probs) k
          ≤ tolerance (length probs))%Qc ∧
         (normalized (to_Qc <$> probs) k
          - mass (to_Qc <$> probability s) (alias s) k
          ≤ tolerance (length probs))%Qc.
Proof.
  intros probs.
  assert (Hnn : Forall finite_nonneg probs)
    by (repeat apply Forall_cons_2; (reflexivity || exact I || apply Forall_nil_2)).
  assert (Hpos : Exists finite_pos probs)
    by (apply Exists_cons_hd; reflexivity).
  assert (Htot : finite_nonneg (total probs)) by (by vm_compute).
  assert (Hn : (Z.of_nat (length probs) < 2 ^ 46)%Z) by (by vm_compute).
  split; [exact Hnn|]. split; [exact Hpos|]. split; [exact Htot|].
  split; [exact Hn|].
  apply (float_mass_within_tolerance probs 7);
    [exact Hnn|exact Hpos|exact Htot|exact Hn].
Defined.

(** X13. The normalization [probs2[i] /= tot] in binary64, on fewer than
    [2^46] finite non-negative weights, not all zero, with a finite
    sum: every normalized weight is a finite value in [0, 1] within
    [(2n + 2) 2^-52] of the exact quotient [weights[k] / Σ weights], and
    the normalized weights add up to 1 within [(2n + 3) 2^-52]. *)
Theorem normalized_weights_are_close (probs : list B64.float64) :
  Forall finite_nonneg probs → Exists finite_pos probs →
  finite_nonneg (total probs) →
  (Z.of_nat (length probs) < 2 ^ 46)%Z →
  let N := Qc_of_Z (Z.of_nat (length probs)) in
  let w := normalize probs (total probs) in
  (∀ k, k < length probs →
     finite_nonneg (entry w k) ∧
     (0 ≤ to_Qc (entry w k))%Qc ∧ (to_Qc (entry w k) ≤ 1)%Qc ∧
     (to_Qc (entry w k) - normalized (to_Qc <$> probs) k
      ≤ 2 * U2 * N + 2 * U2)%Qc ∧
     (normalized (to_Qc <$> probs) k - to_Qc (entry w k)
      ≤ 2 * U2 * N + 2 * U2)%Qc) ∧
  (sumQ ((λ k, to_Qc (entry w k)) <$> seq 0 (length probs)) - 1
   ≤ 2 * U2 * N + Q2Qc 3 * U2)%Qc ∧
  (1 - sumQ ((λ k, to_Qc (entry w k)) <$> seq 0 (length probs))
   ≤ 2 * U2 * N + Q2Qc 3 * U2)%Qc.
Proof.
  intros Hfin Hpos Htot Hn N w. split; [|split].
  - intros k Hk.
    destruct (B64Mass.what_unit probs Hfin Hpos Htot k Hk) as (H1 & H2 & H3).
    destruct (B64Mass.what_close probs Hfin Hpos Htot k Hk) as [H4 H5].
    by split_and!.
  - exact (proj1 (B64Mass.what_sum probs Hfin Hpos Htot Hn)).
  - pose proof (proj2 (B64Mass.what_sum probs Hfin Hpos Htot Hn)) as H.
    cbv zeta in H. unfold what in H. fold w N in H.
    replace (1 - sumQ ((λ k, to_Qc (entry w k)) <$> seq 0 (length probs)))%Qc
      with (- (sumQ ((λ k, to_Qc (entry w k)) <$> seq 0 (length probs)) - 1))%Qc
      by ring.
    exact H.
Qed.

Lemma normalized_weights_are_close_witness :
  let probs := [B64.one; B64.of_nat 2; B64.zero; B64.pow2 (-3)] in
  Forall finite_nonneg probs ∧ Exists finite_pos probs ∧
  finite_nonneg (total probs) ∧
  (Z.of_nat (length probs) < 2 ^ 46)%Z ∧
  let N := Qc_of_Z (Z.of_nat (length probs)) in
  let w := normalize probs (total probs) in
  (∀ k, k < length probs →
     finite_nonneg (entry w k) ∧
     (0 ≤ to_Qc (entry w k))%Qc ∧ (to_Qc (entry w k) ≤ 1)%Qc ∧
     (to_Qc (entry w k) - normalized (to_Qc <$> probs) k
      ≤ 2 * U2 * N + 2 * U2)%Qc ∧
     (normalized (to_Qc <$> probs) k - to_Qc (entry w k)
      ≤ 2 * U2 * N + 2 * U2)%Qc) ∧
  (sumQ ((λ k, to_Qc (entry w k)) <$> seq 0 (length probs)) - 1
   ≤ 2 * U2 * N + Q2Qc 3 * U2)%Qc ∧
  (1 - sumQ ((λ k, to_Qc (entry w k)) <$> seq 0 (length probs))
   ≤ 2 * U2 * N + Q2Qc 3 * U2)%Qc.
Proof.
  intros probs.
  assert (Hnn : Forall finite_nonneg probs)
    by (repeat apply Forall_cons_2; (reflexivity || exact I || apply Forall_nil_2)).
  assert (Hpos : Exists finite_pos probs)
    by (apply Exists_cons_hd; reflexivity).
  assert (Htot : finite_nonneg (total probs)) by (by vm_compute).
  assert (Hn : (Z.of_nat (length probs) < 2 ^ 46)%Z) by (by vm_compute).
  split; [exact Hnn|]. split; [exact Hpos|]. split; [exact Htot|].
  split; [exact Hn|].
  apply (normalized_weights_are_close probs);
    [exact Hnn|exact Hpos|exact Htot|exact Hn].
Defined.

(** X14. The comment before the drain says that the remaining
    probabilities should all be [1/n].  At binary64, on fewer than
    [2^46] finite non-negative weights, not all zero, with a finite sum,
    they are so up to [18 n 2^-52]: when the pairing loop is left, every
    index still on a worklist has a finite working weight within that
    distance of [1/n]. *)
Theorem remaining_weights_near_average (probs : list B64.float64) :
  Forall finite_nonneg probs → Exists finite_pos probs →
  finite_nonneg (total probs) →
  (Z.of_nat (length probs) < 2 ^ 46)%Z →
  let N := Qc_of_Z (Z.of_nat (length probs)) in
  ∃ b, paired probs = Ret b ∧ pairing b = false ∧
       ∀ k, k ∈ small b ++ large b →
         finite_nonneg (entry (probs2 b) k) ∧
         (to_Qc (entry (probs2 b) k) - 1 / N ≤ Q2Qc 18 * U2 * N)%Qc ∧
         (1 / N - to_Qc (entry (probs2 b) k) ≤ Q2Qc 18 * U2 * N)%Qc.
Proof.
  intros Hfin Hpos Htot Hn N.
  exact (B64Close.paired_remaining_close probs Hfin Hpos Htot Hn).
Qed.

Lemma remaining_weights_near_average_witness :
  let probs := [B64.one; B64.of_nat 2; B64.zero; B64.pow2 (-3)] in
  Forall finite_nonneg probs ∧ Exists finite_pos probs ∧
  finite_nonneg (total probs) ∧
  (Z.of_nat (length probs) < 2 ^ 46)%Z ∧
  let N := Qc_of_Z (Z.of_nat (length probs)) in
  ∃ b, paired probs = Ret b ∧ pairing b = false ∧
       ∀ k, k ∈ small b ++ large b →
         finite_nonneg (entry (probs2 b) k) ∧
         (to_Qc (entry (probs2 b) k) - 1 / N ≤ Q2Qc 18 * U2 * N)%Qc ∧
         (1 / N - to_Qc (entry (probs2 b) k) ≤ Q2Qc 18 * U2 * N)%Qc.
Proof.
  intros probs.
  assert (Hnn : Forall finite_nonneg probs)
    by (repeat apply Forall_cons_2; (reflexivity || exact I || apply Forall_nil_2)).
  assert (Hpos : Exists finite_pos probs)
    by (apply Exists_cons_hd; reflexivity).
  assert (Htot : finite_nonneg (total probs)) by (by vm_compute).
  assert (Hn : (Z.of_nat (length probs) < 2 ^ 46)%Z) by (by vm_compute).
  split; [exact Hnn|]. split; [exact Hpos|]. split; [exact Htot|].
  split; [exact Hn|].
  apply (remaining_weights_near_average probs);
    [exact Hnn|exact Hpos|exact Htot|exact Hn].
Defined.

(** X15. At binary64 the construction is invariant to scaling by a power
    of two, as long as the scaling is exact: when every weight is a zero
    or a normal value, before and after all weights are multiplied by
    [2^c], and neither sum overflows, [InitWithSeed] returns the same
    sampler for the scaled weights as for the weights. *)
Theorem pow2_scale_invariance {FG : RandGen B64.float64}
    (probs : list B64.float64) (c : Z) (sd : Z) :
  Forall normal_or_zero probs → Forall normal_or_zero (scale2 c <$> probs) →
  finite_nonneg (total probs) → finite_nonneg (total (scale2 c <$> probs)) →
  InitWithSeed (scale2 c <$> probs) sd = InitWithSeed probs sd.
Proof.
  intros Hl Hl' Hf Hf'. apply InitWithSeed_normalized_only.
  - by rewrite length_fmap.
  - by apply B64Scale.normalize_scale.
Qed.

Lemma pow2_scale_invariance_witness :
  let probs := [B64.one; B64.of_nat 3; B64.zero; B64.pow2 (-3)] in
  Forall normal_or_zero probs ∧
  Forall normal_or_zero (scale2 (-7) <$> probs) ∧
  finite_nonneg (total probs) ∧
  finite_nonneg (total (scale2 (-7) <$> probs)) ∧
  InitWithSeed (FG := lcg_gen) (scale2 (-7) <$> probs) 7
  = InitWithSeed (FG := lcg_gen) probs 7.
Proof.
  intros probs.
  assert (Hl : Forall normal_or_zero probs)
    by (repeat apply Forall_cons_2; (by vm_compute) || apply Forall_nil_2).
  assert (Hl' : Forall normal_or_zero (scale2 (-7) <$> probs))
    by (repeat apply Forall_cons_2; (by vm_compute) || apply Forall_nil_2).
  assert (Hf : finite_nonneg (total probs)) by (by vm_compute).
  assert (Hf' : finite_nonneg (total (scale2 (-7) <$> probs)))
    by (by vm_compute).
  split; [exact Hl|]. split; [exact Hl'|]. split; [exact Hf|].
  split; [exact Hf'|].
  exact (pow2_scale_invariance (FG := lcg_gen) probs (-7) 7 Hl Hl' Hf Hf').
Defined.

(** X16. An outcome of weight zero is never drawn.  At binary64, on at
    most [2^23] finite non-negative weights with a finite sum, one of
    them positive and the one of outcome [k] zero, [InitWithSeed] builds
    a sampler whose [Next], in whatever state its generator is, returns
    an outcome other than [k], provided [Intn(n)] keeps to [0, n) and
    [Float64()] to [0, 1). *)
Theorem zero_weight_is_never_drawn {FG : RandGen B64.float64}
    `{!RandGenSpec B64.float64} (probs : list B64.float64) (k : nat) (sd : Z) :
  Forall finite_nonneg probs → Exists finite_pos probs →
  finite_nonneg (total probs) →
  (Z.of_nat (length probs) ≤ 2 ^ 23)%Z →
  k < length probs → is_zero (entry probs k) →
  Float64_not_negative B64.float64 → Float64_below_one B64.float64 →
  ∃ s, InitWithSeed probs sd = Ret (Some s, None) ∧
       ∀ r, ∃ o s' log, Next (advanced s r) = Ret (o, s', log) ∧ o ≠ k.
Proof.
  intros Hfin Hpos Htot Hn Hk Hz Hlo Hhi.
  destruct (B64Zero.zero_weight_table probs k Hfin Hpos Htot Hn Hk Hz sd)
    as (s & Hinit & Hlp & Hla & Hpk & Htab).
  exists s. split; [exact Hinit|]. intros r.
  destruct (Next_spec (length probs) (advanced s r) ltac:(lia) Hlp Hla)
    as (column & r1 & u & r2 & a & Hc & Hcol & Hu & Ha & HNext).
  eexists _, _, _. split; [exact HNext|]. clear HNext.
  cbn [advanced probability alias] in Ha |- *.
  pose proof (Hlo r1) as Hu0. pose proof (Hhi r1) as Hu1.
  rewrite Hu in Hu0, Hu1. cbn [fst] in Hu0, Hu1.
  cbn [flt fzero fone binary64] in Hu0, Hu1 |- *.
  destruct (decide (column = k)) as [->|Hne].
  - assert (Hf : B64.lt u (entry (probability s) k) = false)
      by (destruct Hpk as [->| ->]; by rewrite B64Zero.lt_zero_sign).
    rewrite Hf.
    destruct (Htab k Hk) as [Hak|Hp1]; [congruence|].
    unfold entry in Hpk. rewrite Hp1 in Hpk. by destruct Hpk.
  - destruct (Htab column Hcol) as [Hak|Hp1].
    + destruct (B64.lt u (entry (probability s) column)); [done|].
      intros ->. by apply Hak.
    + unfold entry. rewrite Hp1. cbn [default from_option id].
      by rewrite Hu1.
Qed.

Lemma zero_weight_is_never_drawn_witness :
  let probs := [B64.one; B64.zero; B64.of_nat 2] in
  Forall finite_nonneg probs ∧ Exists finite_pos probs ∧
  finite_nonneg (total probs) ∧
  (Z.of_nat (length probs) ≤ 2 ^ 23)%Z ∧
  1 < length probs ∧ is_zero (entry probs 1) ∧
  Float64_not_negative B64.float64 (H0 := lcg_gen) ∧
  Float64_below_one B64.float64 (H0 := lcg_gen) ∧
  ∃ s, InitWithSeed (FG := lcg_gen) probs 7 = Ret (Some s, None) ∧
       ∀ r, ∃ o s' log, Next (advanced s r) = Ret (o, s', log) ∧ o ≠ 1.
Proof.
  intros probs.
  assert (Hnn : Forall finite_nonneg probs)
    by (repeat apply Forall_cons_2; (reflexivity || exact I || apply Forall_nil_2)).
  assert (Hpos : Exists finite_pos probs)
    by (apply Exists_cons_hd; reflexivity).
  assert (Htot : finite_nonneg (total probs)) by (by vm_compute).
  assert (Hn : (Z.of_nat (length probs) ≤ 2 ^ 23)%Z) by (by vm_compute).
  assert (Hk : 1 < length probs) by (cbn; lia).
  assert (Hz : is_zero (entry probs 1)) by (by left).
  split; [exact Hnn|]. split; [exact Hpos|]. split; [exact Htot|].
  split; [exact Hn|]. split; [exact Hk|]. split; [exact Hz|].
  split; [exact lcg_gen_not_negative|]. split; [exact lcg_gen_below_one|].
  exact (zero_weight_is_never_drawn (FG := lcg_gen)
           (RandGenSpec0 := lcg_gen_spec) probs 1 7
           Hnn Hpos Htot Hn Hk Hz lcg_gen_not_negative lcg_gen_below_one).
Defined.
